(** * nullDC refsw2: the CORE software rasterizer, embedded in Rocq

    A shallow embedding of the list walker ([refsw_lists.cc]), the VRAM
    address mapper ([pvr_mem.h]) and the texture tables ([TexUtils.cc],
    [TexUtils.h]), with the properties of the specification stated over it.
    The single-precision values of the bump tables are real numbers. The
    AICA DSP playground ([dsp.cpp], [dsp_interp.cpp]) is embedded beside
    them.

    Unsigned 32-bit values are integers of [Z] kept in [0, 2^32); C
    bit-fields are decoded with explicit shifts and masks, the first
    declared field sitting in the least significant bits. *)

From Stdlib Require Import ZArith NArith List Lia Bool Reals Lra Psatz.
From Equations Require Import Equations.
Import ListNotations.
Open Scope Z_scope.

(** ** Machine words *)

Module Word.

(** Wrap-around of [uint32_t] arithmetic. *)
Definition u32 (z : Z) : Z := z mod 2 ^ 32.

(** A bit-field of [width] bits that starts at bit [lsb]. *)
Definition bits (lsb width w : Z) : Z :=
  Z.land (Z.shiftr w lsb) (Z.ones width).

(** [~x] on a [uint32_t]. *)
Definition not32 (x : Z) : Z := u32 (Z.lnot x).

Lemma u32_small z : 0 <= z < 2 ^ 32 -> u32 z = z.
Proof. intros H. unfold u32. now apply Z.mod_small. Qed.

Lemma u32_range z : 0 <= u32 z < 2 ^ 32.
Proof. unfold u32. apply Z.mod_pos_bound. lia. Qed.

Lemma bits_arith lsb width w :
  0 <= lsb -> 0 <= width -> bits lsb width w = (w / 2 ^ lsb) mod 2 ^ width.
Proof.
  intros Hl Hw. unfold bits.
  now rewrite Z.land_ones, Z.shiftr_div_pow2.
Qed.

Lemma bits_range lsb width w :
  0 <= lsb -> 0 <= width -> 0 <= bits lsb width w < 2 ^ width.
Proof.
  intros Hl Hw. rewrite bits_arith by assumption.
  apply Z.mod_pos_bound. now apply Z.pow_pos_nonneg.
Qed.

(** Masking with a field mask keeps the field in place. *)
Lemma land_field w lsb width :
  0 <= lsb -> 0 <= width ->
  Z.land w (Z.shiftl (Z.ones width) lsb) = bits lsb width w * 2 ^ lsb.
Proof.
  intros Hl Hw. unfold bits. rewrite <- Z.shiftl_mul_pow2 by assumption.
  apply Z.bits_inj'. intros n Hn.
  rewrite Z.land_spec, !Z.shiftl_spec by assumption.
  destruct (Z_lt_ge_dec n lsb) as [Hlt | Hge].
  - rewrite (Z.testbit_neg_r _ (n - lsb)) by lia.
    rewrite (Z.testbit_neg_r (Z.land _ _)) by lia.
    now rewrite andb_false_r.
  - rewrite Z.land_spec, Z.shiftr_spec by lia.
    now replace (n - lsb + lsb) with n by lia.
Qed.

(** Fields that do not overlap are assembled by [|] as by [+]. *)
Lemma lor_disjoint_low a b n :
  0 <= n -> 0 <= a < 2 ^ n -> Z.lor a (b * 2 ^ n) = a + b * 2 ^ n.
Proof.
  intros Hn Ha.
  assert (Hd : Z.land a (b * 2 ^ n) = 0).
  { apply Z.bits_inj'. intros i Hi.
    rewrite Z.land_spec, Z.bits_0.
    destruct (Z_lt_ge_dec i n) as [Hlt | Hge].
    - rewrite Z.mul_pow2_bits_low by assumption. apply andb_false_r.
    - rewrite <- (Z.mod_small a (2 ^ n)) by assumption.
      rewrite Z.mod_pow2_bits_high by lia. reflexivity. }
  rewrite Z.add_nocarry_lxor by assumption.
  now rewrite Z.lxor_lor.
Qed.

End Word.

(** ** VRAM view and address mapper ([pvr_mem.h]) *)

Module PvrMem.
Import Word.

Definition VRAM_SIZE : Z := 8 * 1024 * 1024.
Definition VRAM_MASK : Z := VRAM_SIZE - 1.
Definition VRAM_BANK_BIT : Z := 0x400000.

(** [pvr_map32]: the 64-bit wide bus interleaves the banks every 32 bits. *)
Definition pvr_map32 (offset32 : Z) : Z :=
  let static_bits := Z.lor (VRAM_MASK - (VRAM_BANK_BIT * 2 - 1)) 3 in
  let offset_bits := Z.land (VRAM_BANK_BIT - 1) (not32 3) in
  let bank := Z.land offset32 VRAM_BANK_BIT / VRAM_BANK_BIT in
  let rv := Z.land offset32 static_bits in
  let rv := Z.lor rv (u32 (Z.land offset32 offset_bits * 2)) in
  let rv := Z.lor rv (u32 (bank * 4)) in
  rv.

(** The video memory: a byte store; the index is a physical byte offset and
    the 8 MiB array covers the indices [0 .. VRAM_SIZE - 1]. *)
Definition Vram : Type := Z -> Z.

Definition poke (vram : Vram) (i b : Z) : Vram :=
  fun j => if j =? i then b else vram j.

(** Little-endian byte [k] of a word. *)
Definition byte_of (k w : Z) : Z := bits (8 * k) 8 w.

(** The 32-bit and 16-bit accesses through a cast pointer into the byte
    array, on a little-endian host. *)
Definition load32 (vram : Vram) (i : Z) : Z :=
  vram i + vram (i + 1) * 2 ^ 8 + vram (i + 2) * 2 ^ 16 + vram (i + 3) * 2 ^ 24.

Definition store16 (vram : Vram) (i data : Z) : Vram :=
  poke (poke vram i (byte_of 0 data)) (i + 1) (byte_of 1 data).

Definition store32 (vram : Vram) (i data : Z) : Vram :=
  poke (poke (poke (poke vram i (byte_of 0 data)) (i + 1) (byte_of 1 data))
          (i + 2) (byte_of 2 data)) (i + 3) (byte_of 3 data).

(** The byte indices a store of [n] bytes at index [i] touches. *)
Definition store_footprint (i : Z) (n : nat) : list Z :=
  map (fun k => i + Z.of_nat k) (seq 0 n).

Definition vri (vram : Vram) (addr : Z) : Z := load32 vram (pvr_map32 addr).

(** [pvr_write_area1_16]: [vaddr] is computed and left unused; the store
    goes through [pvr_map32 addr]. *)
Definition pvr_write_area1_16 (vram : Vram) (addr data : Z) : Vram :=
  let vaddr := Z.land addr VRAM_MASK in
  store16 vram (pvr_map32 addr) data.

Definition pvr_write_area1_32 (vram : Vram) (addr data : Z) : Vram :=
  let vaddr := Z.land addr VRAM_MASK in
  store32 vram (pvr_map32 addr) data.

(** An index of the 8 MiB byte array. *)
Definition in_vram (i : Z) : Prop := 0 <= i < VRAM_SIZE.

(** The indices written by the two stores. *)
Definition write16_footprint (addr : Z) : list Z :=
  store_footprint (pvr_map32 addr) 2.
Definition write32_footprint (addr : Z) : list Z :=
  store_footprint (pvr_map32 addr) 4.

(** A store leaves every byte outside its footprint as it was. *)
Lemma store16_frame vram i data j :
  ~ In j (store_footprint i 2) -> store16 vram i data j = vram j.
Proof.
  unfold store_footprint, store16, poke. cbn [seq map In Z.of_nat].
  intros Hj.
  destruct (Z.eqb_spec j (i + 1)) as [-> | _]; [exfalso; apply Hj; lia |].
  destruct (Z.eqb_spec j i) as [-> | _]; [exfalso; apply Hj; lia |].
  reflexivity.
Qed.

Lemma store32_frame vram i data j :
  ~ In j (store_footprint i 4) -> store32 vram i data j = vram j.
Proof.
  unfold store_footprint, store32, poke.
  cbn [seq map In Z.of_nat Pos.of_succ_nat Pos.succ].
  intros Hj.
  destruct (Z.eqb_spec j (i + 3)) as [-> | _]; [exfalso; apply Hj; lia |].
  destruct (Z.eqb_spec j (i + 2)) as [-> | _]; [exfalso; apply Hj; lia |].
  destruct (Z.eqb_spec j (i + 1)) as [-> | _]; [exfalso; apply Hj; lia |].
  destruct (Z.eqb_spec j i) as [-> | _]; [exfalso; apply Hj; lia |].
  reflexivity.
Qed.

(** *** The map in arithmetic form *)

Lemma pvr_map32_arith o :
  pvr_map32 o = o mod 4 + 4 * ((o / 2 ^ 22) mod 2) + 8 * ((o / 4) mod 2 ^ 20).
Proof.
  unfold pvr_map32.
  change (Z.lor (VRAM_MASK - (VRAM_BANK_BIT * 2 - 1)) 3) with (Z.ones 2).
  change (Z.land (VRAM_BANK_BIT - 1) (not32 3)) with (Z.shiftl (Z.ones 20) 2).
  change VRAM_BANK_BIT with (Z.shiftl (Z.ones 1) 22) at 1.
  change VRAM_BANK_BIT with (2 ^ 22).
  rewrite !land_field by lia.
  rewrite Z.land_ones by lia.
  rewrite Z.div_mul by lia.
  rewrite !bits_arith by lia.
  change (2 ^ 2) with 4. change (2 ^ 1) with 2.
  pose proof (Z.mod_pos_bound o 4 ltac:(lia)) as H4.
  pose proof (Z.mod_pos_bound (o / 2 ^ 22) 2 ltac:(lia)) as H2.
  pose proof (Z.mod_pos_bound (o / 4) (2 ^ 20) ltac:(lia)) as H20.
  rewrite !u32_small by lia.
  rewrite <- Z.lor_assoc.
  rewrite (Z.lor_comm ((o / 4) mod 2 ^ 20 * 4 * 2)).
  rewrite Z.lor_assoc.
  replace ((o / 2 ^ 22) mod 2 * 4) with ((o / 2 ^ 22) mod 2 * 2 ^ 2) by lia.
  rewrite lor_disjoint_low by lia.
  replace ((o / 4) mod 2 ^ 20 * 4 * 2) with ((o / 4) mod 2 ^ 20 * 2 ^ 3) by lia.
  rewrite lor_disjoint_low by lia.
  lia.
Qed.

Lemma pvr_map32_range o : 0 <= pvr_map32 o < VRAM_SIZE.
Proof.
  rewrite pvr_map32_arith. unfold VRAM_SIZE.
  pose proof (Z.mod_pos_bound o 4 ltac:(lia)).
  pose proof (Z.mod_pos_bound (o / 2 ^ 22) 2 ltac:(lia)).
  pose proof (Z.mod_pos_bound (o / 4) (2 ^ 20) ltac:(lia)).
  lia.
Qed.

End PvrMem.

(** ** The rendering registers ([pvr_regs.h]) *)

Module PvrRegs.
Import Word.

Definition pvr_RegSize : Z := 0x8000.
Definition pvr_RegMask : Z := pvr_RegSize - 1.

(** [emu_regs]: the register block, an array of 32-bit words. *)
Definition RegFile : Type := Z -> Z.

(** [PvrReg(x,t)] *)
Definition PvrReg (emu_regs : RegFile) (x : Z) : Z :=
  emu_regs (Z.land (x / 4) pvr_RegMask).

Definition PARAM_BASE_addr : Z := 0x00000020.
Definition REGION_BASE_addr : Z := 0x0000002C.
Definition FB_W_CTRL_addr : Z := 0x00000048.
Definition FB_W_LINESTRIDE_addr : Z := 0x0000004C.
Definition FB_W_SOF1_addr : Z := 0x00000060.
Definition FB_W_SOF2_addr : Z := 0x00000064.
Definition FPU_SHAD_SCALE_addr : Z := 0x00000074.
Definition FPU_PARAM_CFG_addr : Z := 0x0000007C.
Definition ISP_BACKGND_D_addr : Z := 0x00000088.
Definition ISP_BACKGND_T_addr : Z := 0x0000008C.
Definition ISP_FEED_CFG_addr : Z := 0x00000098.
Definition SCALER_CTL_addr : Z := 0x000000F4.

Section Registers.
Variable emu_regs : RegFile.

Definition PARAM_BASE : Z := PvrReg emu_regs PARAM_BASE_addr.
Definition REGION_BASE : Z := PvrReg emu_regs REGION_BASE_addr.
Definition FB_W_CTRL : Z := PvrReg emu_regs FB_W_CTRL_addr.
Definition FB_W_LINESTRIDE : Z := PvrReg emu_regs FB_W_LINESTRIDE_addr.
Definition FB_W_SOF1 : Z := PvrReg emu_regs FB_W_SOF1_addr.
Definition FB_W_SOF2 : Z := PvrReg emu_regs FB_W_SOF2_addr.
Definition FPU_SHAD_SCALE : Z := PvrReg emu_regs FPU_SHAD_SCALE_addr.
Definition FPU_PARAM_CFG : Z := PvrReg emu_regs FPU_PARAM_CFG_addr.
Definition ISP_BACKGND_D : Z := PvrReg emu_regs ISP_BACKGND_D_addr.
Definition ISP_BACKGND_T : Z := PvrReg emu_regs ISP_BACKGND_T_addr.
Definition ISP_FEED_CFG : Z := PvrReg emu_regs ISP_FEED_CFG_addr.
Definition SCALER_CTL : Z := PvrReg emu_regs SCALER_CTL_addr.

(** [SCALER_CTL_type] *)
Definition vscalefactor : Z := bits 0 16 SCALER_CTL.
Definition hscale : Z := bits 16 1 SCALER_CTL.
Definition interlace : Z := bits 17 1 SCALER_CTL.
Definition fieldselect : Z := bits 18 1 SCALER_CTL.

(** [FB_W_CTRL_type], [FB_W_LINESTRIDE_type] *)
Definition fb_packmode : Z := bits 0 3 FB_W_CTRL.
Definition stride : Z := bits 0 9 FB_W_LINESTRIDE.

(** [FPU_SHAD_SCALE_type], [FPU_PARAM_CFG_type], [ISP_FEED_CFG_type] *)
Definition intensity_shadow : Z := bits 8 1 FPU_SHAD_SCALE.
Definition region_header_type : Z := bits 21 1 FPU_PARAM_CFG.
Definition feed_pre_sort : Z := bits 0 1 ISP_FEED_CFG.

End Registers.

(** [ISP_BACKGND_T_type]: the layout of a parameter tag. *)
Definition tag_offset (tag : Z) : Z := bits 0 3 tag.
Definition tag_param_offs_in_words (tag : Z) : Z := bits 3 21 tag.
Definition tag_skip (tag : Z) : Z := bits 24 3 tag.
Definition tag_shadow (tag : Z) : Z := bits 27 1 tag.
Definition tag_cache_bypass (tag : Z) : Z := bits 28 1 tag.

End PvrRegs.

(** ** Region array and object list words ([refsw_lists_regtypes.h]) *)

Module RegTypes.
Import Word.

(** [RegionArrayEntryControl] *)
Definition tilex (control : Z) : Z := bits 2 6 control.
Definition tiley (control : Z) : Z := bits 8 6 control.
Definition no_writeout (control : Z) : Z := bits 28 1 control.
Definition pre_sort (control : Z) : Z := bits 29 1 control.
Definition z_keep (control : Z) : Z := bits 30 1 control.
Definition last_region (control : Z) : Z := bits 31 1 control.

(** The assignment [control.pre_sort = v]. *)
Definition set_pre_sort (control v : Z) : Z :=
  Z.lor (Z.land control (not32 (Z.shiftl 1 29))) (Z.shiftl (Z.land v 1) 29).

(** [ListPointer] *)
Definition ptr_in_words (p : Z) : Z := bits 2 22 p.
Definition empty (p : Z) : Z := bits 31 1 p.

(** [RegionArrayEntry] ([refsw_lists.h] is not part of the sources; the
    fields are those [ReadRegionArrayEntry] fills), each as its [full]
    word. *)
Record RegionArrayEntry : Type := mkEntry
  { control : Z; opaque : Z; opaque_mod : Z; trans : Z; trans_mod : Z;
    puncht : Z }.

(** [ObjectListEntry] and its views. *)
Definition is_not_triangle_strip (obj : Z) : Z := bits 31 1 obj.
Definition obj_type (obj : Z) : Z := bits 29 3 obj.

(** [ObjectListTstrip]; the arrays share [param_offs_in_words], [skip]
    and [shadow]. *)
Definition param_offs_in_words (obj : Z) : Z := bits 0 21 obj.
Definition skip (obj : Z) : Z := bits 21 3 obj.
Definition shadow (obj : Z) : Z := bits 24 1 obj.
Definition mask (obj : Z) : Z := bits 25 6 obj.

(** [ObjectListTarray], [ObjectListQarray] *)
Definition prims (obj : Z) : Z := bits 25 4 obj.

(** [ObjectListLink] *)
Definition next_block_ptr_in_words (obj : Z) : Z := bits 2 22 obj.
Definition end_of_list (obj : Z) : Z := bits 28 1 obj.

End RegTypes.

(** ** Texture helpers ([TexUtils.h], [TexUtils.cc]) *)

Module TexUtils.
Import Word.

(** *** Unpack to a 32-bit word ([TexUtils.h]) *)

Definition ARGB1555_32 (word : Z) : Z :=
  Z.lor (Z.lor (Z.lor
    (if Z.land word 0x8000 =? 0 then 0 else 0xFF000000)
    (Z.shiftl (Z.land (Z.shiftr word 0) 0x1F) 3))
    (Z.shiftl (Z.land (Z.shiftr word 5) 0x1F) 11))
    (Z.shiftl (Z.land (Z.shiftr word 10) 0x1F) 19).

Definition ARGB565_32 (word : Z) : Z :=
  Z.lor (Z.lor (Z.lor
    (Z.shiftl (Z.land (Z.shiftr word 0) 0x1F) 3)
    (Z.shiftl (Z.land (Z.shiftr word 5) 0x3F) 10))
    (Z.shiftl (Z.land (Z.shiftr word 11) 0x1F) 19))
    0xFF000000.

Definition ARGB4444_32 (word : Z) : Z :=
  Z.lor (Z.lor (Z.lor
    (u32 (Z.shiftl (Z.land (Z.shiftr word 12) 0xF) 28))
    (Z.shiftl (Z.land (Z.shiftr word 0) 0xF) 4))
    (Z.shiftl (Z.land (Z.shiftr word 4) 0xF) 12))
    (Z.shiftl (Z.land (Z.shiftr word 8) 0xF) 20).

Definition ARGB8888_32 (word : Z) : Z := word.

(** The 8-bit channel [k] (0 is the least significant byte) of a 32-bit
    color, and the 4-bit nibble [k] of a 16-bit texel. *)
Definition channel (k color : Z) : Z := bits (8 * k) 8 color.
Definition nibble (k word : Z) : Z := bits (4 * k) 4 word.

(** A nibble duplicated to 8 bits: [0xF] gives [0xFF]. *)
Definition dup_nibble (n : Z) : Z := Z.lor (Z.shiftl n 4) n.

(** [cclamp<pixel_type>(minv, maxv, x)] *)
Definition cclamp (minv maxv x : Z) : Z := Z.min maxv (Z.max minv x).

(** [packRGB(R, G, B)]: the three arguments are converted to [uint8_t]. *)
Definition packRGB (R G B : Z) : Z :=
  let R := R mod 2 ^ 8 in
  let G := G mod 2 ^ 8 in
  let B := B mod 2 ^ 8 in
  Z.lor (Z.lor (Z.lor (Z.shiftl R 0) (Z.shiftl G 8)) (Z.shiftl B 16)) 0xFF000000.

(** [YUV422(Y, Yu, Yv)]: [int32_t] arithmetic, whose division truncates.
    An overflow of [int32_t] is undefined in C; the integers are unbounded
    here, and the properties take the arguments from a range far from it. *)
Definition YUV422 (Y Yu Yv : Z) : Z :=
  let Yu := Yu - 128 in
  let Yv := Yv - 128 in
  let R := Y + Z.quot (Yv * 11) 8 in
  let G := Y - Z.quot (Yu * 11 + Yv * 22) 32 in
  let B := Y + Z.quot (Yu * 110) 64 in
  packRGB (cclamp 0 255 R) (cclamp 0 255 G) (cclamp 0 255 B).

(** *** The twiddle table ([TexUtils.cc])

    [twiddle_slow] works on [uint32_t] values only; they are in [N] here.
    A shift by 32 or more is undefined in C; the shifted bit is wrapped to
    32 bits. *)

Local Open Scope N_scope.

Definition wrap32 (n : N) : N := n mod 2 ^ 32.

(** The variables of the loop of [twiddle_slow]. *)
Record TwState : Type := mkTw
  { tw_rv : N; tw_sh : N; tw_x : N; tw_y : N; tw_x_sz : N; tw_y_sz : N }.

(** [if (y_sz) { ... }] *)
Definition twiddle_step_y (s : TwState) : TwState :=
  if negb (tw_y_sz s =? 0) then
    let temp := N.land (tw_y s) 1 in
    mkTw (N.lor (tw_rv s) (wrap32 (N.shiftl temp (tw_sh s)))) (tw_sh s + 1)
         (tw_x s) (N.shiftr (tw_y s) 1) (tw_x_sz s) (N.shiftr (tw_y_sz s) 1)
  else s.

(** [if (x_sz) { ... }] *)
Definition twiddle_step_x (s : TwState) : TwState :=
  if negb (tw_x_sz s =? 0) then
    let temp := N.land (tw_x s) 1 in
    mkTw (N.lor (tw_rv s) (wrap32 (N.shiftl temp (tw_sh s)))) (tw_sh s + 1)
         (N.shiftr (tw_x s) 1) (tw_y s) (N.shiftr (tw_x_sz s) 1) (tw_y_sz s)
  else s.

Definition twiddle_body (s : TwState) : TwState :=
  twiddle_step_x (twiddle_step_y s).

(** [while (x_sz != 0 || y_sz != 0)] *)
Definition twiddle_cond (s : TwState) : bool :=
  negb (tw_x_sz s =? 0) || negb (tw_y_sz s =? 0).

Definition twiddle_measure (s : TwState) : nat :=
  N.to_nat (tw_x_sz s + tw_y_sz s).

Lemma shiftr1_lt n : n <> 0 -> N.shiftr n 1 < n.
Proof. intros H. rewrite N.shiftr_div_pow2. apply N.div_lt; lia. Qed.

Lemma shiftr1_le n : N.shiftr n 1 <= n.
Proof.
  rewrite N.shiftr_div_pow2. apply N.Div0.div_le_upper_bound.
  change (2 ^ 1) with 2. lia.
Qed.

Lemma twiddle_body_decreases s :
  twiddle_cond s = true -> (twiddle_measure (twiddle_body s) < twiddle_measure s)%nat.
Proof.
  unfold twiddle_cond, twiddle_body, twiddle_step_x, twiddle_step_y, twiddle_measure.
  destruct s as [r h x y xs ys]; cbn -[N.shiftr N.add N.to_nat].
  destruct (N.eqb_spec ys 0) as [-> | Hy]; cbn -[N.shiftr N.add N.to_nat];
    (destruct (N.eqb_spec xs 0) as [-> | Hx]; cbn -[N.shiftr N.add N.to_nat]);
    intros Hc; try discriminate.
  - pose proof (shiftr1_lt xs Hx). lia.
  - pose proof (shiftr1_lt ys Hy). lia.
  - pose proof (shiftr1_lt ys Hy). pose proof (shiftr1_le xs). lia.
Qed.

Definition inspect {A : Type} (a : A) : { b : A | a = b } := exist _ a eq_refl.

Equations? twiddle_while (s : TwState) : TwState by wf (twiddle_measure s) lt :=
  twiddle_while s with inspect (twiddle_cond s) => {
    | exist _ true H := twiddle_while (twiddle_body s)
    | exist _ false _ := s }.
Proof. now apply twiddle_body_decreases. Qed.

Definition twiddle_slow (x y x_sz y_sz : N) : N :=
  let rv := 0 in
  let sh := 0 in
  let x_sz := N.shiftr x_sz 1 in
  let y_sz := N.shiftr y_sz 1 in
  tw_rv (twiddle_while (mkTw rv sh x y x_sz y_sz)).

Definition index_range (n : nat) : list N := map N.of_nat (seq 0 n).

(** [InitTexUtils], first loop: the table [detwiddle[2][11][1024]] after the
    fill, as nested lists; row [s] of half [0] holds
    [twiddle_slow i 0 1024 (1 << s)], row [s] of half [1] holds
    [twiddle_slow 0 i (1 << s) 1024]. *)
Definition InitTexUtils_detwiddle : list (list (list N)) :=
  let x_sz := 1024 in
  [ map (fun s => let y_sz := N.shiftl 1 s in
           map (fun i => twiddle_slow i 0 x_sz y_sz) (index_range 1024))
        (index_range 11);
    map (fun s => let y_sz := N.shiftl 1 s in
           map (fun i => twiddle_slow 0 i y_sz x_sz) (index_range 1024))
        (index_range 11) ].

(** [detwiddle[t][s][i]] after [InitTexUtils]. *)
Definition detwiddle (t s i : N) : N :=
  nth (N.to_nat i) (nth (N.to_nat s) (nth (N.to_nat t) InitTexUtils_detwiddle []) []) 0.

(** [twop2(x,y,bcx,bcy)] *)
Definition twop2 (x y bcx bcy : N) : N :=
  wrap32 (detwiddle 0 bcy x + detwiddle 1 bcx y).

(** [twop(x,y,bcx,bcy)] *)
Definition twop (x y bcx bcy : N) : N :=
  wrap32 (detwiddle 0 (bcy + 3) x + detwiddle 1 (bcx + 3) y).

End TexUtils.

(** ** The bump-map tables ([TexUtils.cc])

    The second loop of [InitTexUtils] fills three tables of [int8_t] from
    single-precision products. A float is a real number here; the value of
    each product, as the float arithmetic and [sinf], [cosf] of the C
    library give it, is taken as given, one per index. *)

Module BumpTables.
Local Open Scope R_scope.

(** The conversion of a floating-point value to an integer type, as the
    assignment to an [int8_t] makes it: the fractional part is discarded.
    The products lie within the range of [int8_t]. *)
Definition float_to_int (r : R) : Z :=
  if Rle_dec 0 r then Int_part r else (- Int_part (- r))%Z.

(** [(i / 256.0f) * (M_PI / 2)] and [(i / 256.0f) * (2 * M_PI)] *)
Definition angle90 (i : Z) : R := IZR i / 256 * (PI / 2).
Definition angle360 (i : Z) : R := IZR i / 256 * (2 * PI).

Section InitTexUtils.

(** The floats [127 * sinf(...)], [127 * cosf(...)] and [127 * cosf(...)]
    of the three assignments at index [i]. *)
Variables product_sin90 product_cos90 product_cos360 : Z -> R.

Definition BM_SIN90 (i : Z) : Z := float_to_int (product_sin90 i).
Definition BM_COS90 (i : Z) : Z := float_to_int (product_cos90 i).
Definition BM_COS360 (i : Z) : Z := float_to_int (product_cos360 i).

End InitTexUtils.

(** The products without any rounding error. *)
Definition exact_sin90 (i : Z) : R := 127 * sin (angle90 i).
Definition exact_cos90 (i : Z) : R := 127 * cos (angle90 i).
Definition exact_cos360 (i : Z) : R := 127 * cos (angle360 i).

(** The float arithmetic is accurate to a thousandth on the 256 entries. *)
Definition accurate (product exact : Z -> R) : Prop :=
  forall i, (0 <= i < 256)%Z -> Rabs (product i - exact i) <= / 1000.

(** Rounding to the nearest integer. *)
Definition round (r : R) : Z := Int_part (r + / 2).

(** [z] is [r] with its fractional part discarded. *)
Definition truncated (r : R) (z : Z) : Prop :=
  Rabs (IZR z) <= Rabs r < Rabs (IZR z) + 1 /\ 0 <= r * IZR z.

End BumpTables.

(** ** The tile back end ([refsw_tile.h])

    [refsw_tile.h] and its implementation are not part of the sources: the
    ISP rasterizers, the TSP tag resolution and the tile buffers are taken
    as an interface, with the names the list walker calls them by. *)

Module Tile.
Import PvrMem PvrRegs.

(** Modelled from the spec: the enumeration [RenderMode] of
    [refsw_tile.h], "Render mode enumeration (closed set): OPAQUE,
    PUNCHTHROUGH_PASS0, PUNCHTHROUGH_PASSN, PUNCHTHROUGH_MV,
    TRANSLUCENT_AUTOSORT, TRANSLUCENT_PRESORT, MODIFIER". *)
Inductive RenderMode : Type :=
| RM_OPAQUE
| RM_PUNCHTHROUGH_PASS0
| RM_PUNCHTHROUGH_PASSN
| RM_PUNCHTHROUGH_MV
| RM_TRANSLUCENT_AUTOSORT
| RM_TRANSLUCENT_PRESORT
| RM_MODIFIER.

Definition RenderMode_eqb (a b : RenderMode) : bool :=
  match a, b with
  | RM_OPAQUE, RM_OPAQUE
  | RM_PUNCHTHROUGH_PASS0, RM_PUNCHTHROUGH_PASS0
  | RM_PUNCHTHROUGH_PASSN, RM_PUNCHTHROUGH_PASSN
  | RM_PUNCHTHROUGH_MV, RM_PUNCHTHROUGH_MV
  | RM_TRANSLUCENT_AUTOSORT, RM_TRANSLUCENT_AUTOSORT
  | RM_TRANSLUCENT_PRESORT, RM_TRANSLUCENT_PRESORT
  | RM_MODIFIER, RM_MODIFIER => true
  | _, _ => false
  end.

(** [taRECT], by the fields [RenderCORE] sets. *)
Record taRECT : Type := mkRect { left : Z; top : Z; right : Z; bottom : Z }.

(** [FLT_MAX], as the bits of the float. *)
Definition FLT_MAX : Z := 0x7F7FFFFF.

(** The functions of the tile back end. Floats pass through as their 32
    bits. The back end reads the video memory and the registers and owns
    the tile buffers; it never writes to the video memory. *)
Class Backend : Type := {
  TileBuffers : Type;
  DrawParameters : Type;
  Vertex : Type;
  (** [params.isp.full] *)
  isp_full : DrawParameters -> Z;
  (** [decode_pvr_vertices(&params, base, skip, two_volumes, vtx, count,
      offset)]: the parameters, the vertex array and the returned pointer. *)
  decode_pvr_vertices :
    Vram -> RegFile -> Z -> Z -> bool -> nat -> Z ->
    DrawParameters * (nat -> Vertex) * Z;
  (** [RasterizeTriangle_table[render_mode](params, tag, v1, v2, v3, v4,
      area)] *)
  RasterizeTriangle :
    RenderMode -> DrawParameters -> Z -> Vertex -> Vertex -> Vertex ->
    option Vertex -> taRECT -> Vram -> RegFile -> TileBuffers -> TileBuffers;
  (** [RenderParamTags<mode>(left, top)] *)
  RenderParamTags :
    RenderMode -> Z -> Z -> Vram -> RegFile -> TileBuffers -> TileBuffers;
  SummarizeStencilOr : TileBuffers -> TileBuffers;
  SummarizeStencilAnd : TileBuffers -> TileBuffers;
  ClearFpuCache : TileBuffers -> TileBuffers;
  (** [ClearBuffers(tag, depth, stencil)] *)
  ClearBuffers : Z -> Z -> Z -> TileBuffers -> TileBuffers;
  ClearParamStatusBuffer : TileBuffers -> TileBuffers;
  PeelBuffersPTInitial : Z -> TileBuffers -> TileBuffers;
  PeelBuffersPT : TileBuffers -> TileBuffers;
  (** [PeelBuffers(depth, stencil)] *)
  PeelBuffers : Z -> Z -> TileBuffers -> TileBuffers;
  ClearMoreToDraw : TileBuffers -> TileBuffers;
  GetMoreToDraw : TileBuffers -> bool;
  SetTagToMax : TileBuffers -> TileBuffers;
  (** [GetColorOutputBuffer()]: the accumulator, byte [k] of the buffer. *)
  GetColorOutputBuffer : TileBuffers -> Z -> Z
}.

End Tile.

(** ** The list walker ([refsw_lists.cc]) *)

Module Lists.
Import Word PvrMem PvrRegs RegTypes Tile.

(** What a run leaves behind for an observer: the tag resolutions it asked
    the TSP for and the stores it made to the video memory, oldest first. *)
Inductive Event : Type :=
| EvParamTags (mode : RenderMode) (left top : Z)
| EvWrite16 (addr data : Z)
| EvWrite32 (addr data : Z).

(** How a call ends: it returns, an [assert] fails (the process is
    aborted), or the loop budget of the model is used up (the code is still
    running). Each comes with the state reached. *)
Inductive Outcome (A : Type) : Type :=
| Done (a : A)
| AssertFailed (a : A)
| OutOfFuel (a : A).
Arguments Done {A} a.
Arguments AssertFailed {A} a.
Arguments OutOfFuel {A} a.

Definition state_of {A : Type} (o : Outcome A) : A :=
  match o with
  | Done a | AssertFailed a | OutOfFuel a => a
  end.

(** The call has ended: it has returned or the process was aborted. *)
Definition ended {A : Type} (o : Outcome A) : bool :=
  match o with
  | OutOfFuel _ => false
  | _ => true
  end.

Definition bind {A : Type} (o : Outcome A) (k : A -> Outcome A) : Outcome A :=
  match o with
  | Done a => k a
  | AssertFailed a => AssertFailed a
  | OutOfFuel a => OutOfFuel a
  end.

Notation "x <- o ;; k" := (bind o (fun x => k))
  (at level 61, o at next level, right associativity).

Lemma Done_inj {A : Type} (a b : A) : Done a = Done b -> a = b.
Proof. intros H. now injection H. Qed.

(** [assert(cond);] in the state [a], followed by [k]. *)
Definition assert {A : Type} (a : A) (cond : bool) (k : Outcome A) : Outcome A :=
  if cond then k else AssertFailed a.

(** [CoreTagFromDesc]: each bit-field assignment keeps the low bits of the
    value that fit the field. *)
Definition CoreTagFromDesc
    (cache_bypass shadow skip param_offs_in_words tag_offset : Z) : Z :=
  Z.lor (Z.lor (Z.lor (Z.lor
    (bits 0 3 tag_offset)
    (Z.shiftl (bits 0 21 param_offs_in_words) 3))
    (Z.shiftl (bits 0 3 skip) 24))
    (Z.shiftl (bits 0 1 shadow) 27))
    (Z.shiftl (bits 0 1 cache_bypass) 28).

(** [bayerBias] of the write-out. *)
Definition bayerBias : list (list Z) :=
  [ [   8; 136;  40; 168 ];
    [ 200;  72; 232; 104 ];
    [  56; 184;  24; 152 ];
    [ 248; 120; 216;  88 ] ].

(** [bayerBias[y & 3][x & 3]] *)
Definition bayer (y x : Z) : Z :=
  nth (Z.to_nat (Z.land x 3)) (nth (Z.to_nat (Z.land y 3)) bayerBias []) 0.

(** [if (v < 0) v = 0; else if (v > hi) v = hi;] *)
Definition clamp0 (hi v : Z) : Z :=
  if v <? 0 then 0 else if v >? hi then hi else v.

(** The RGB565 branch of the write-out, up to the clamp: the components
    [(r5, g6, b5)] of the pixel at [(x, y)]. Division of [int] truncates. *)
Definition dither565 (x y r8 g8 b8 : Z) : Z * Z * Z :=
  let T := bayer y x in
  let r5 := Z.quot (r8 * 31 + T) 255 in
  let g6 := Z.quot (g8 * 63 + T) 255 in
  let b5 := Z.quot (b8 * 31 + T) 255 in
  (clamp0 31 r5, clamp0 63 g6, clamp0 31 b5).

(** [(r5 << 0) | (g6 << 5) | (b5 << 11)] *)
Definition pack565 (c : Z * Z * Z) : Z :=
  let '(r5, g6, b5) := c in
  Z.lor (Z.lor (Z.shiftl r5 0) (Z.shiftl g6 5)) (Z.shiftl b5 11).

(** The components of a packed RGB565 pixel. *)
Definition red565 (pixel : Z) : Z := bits 0 5 pixel.
Definition green565 (pixel : Z) : Z := bits 5 6 pixel.
Definition blue565 (pixel : Z) : Z := bits 11 5 pixel.

(** The 8888 branch: [src[0] + src[1] * 256U + ...] in 32 bits. *)
Definition pack8888 (s0 s1 s2 s3 : Z) : Z :=
  u32 (s0 + s1 * 256 + s2 * 256 * 256 + s3 * 256 * 256 * 256).

(** [vert_packed_color_(to, src)]: the four bytes [to[0..3]] it fills. *)
Definition vert_packed_color_ (src : Z) : Z * Z * Z * Z :=
  let t := src in
  let to0 := t mod 2 ^ 8 in
  let t := Z.shiftr t 8 in
  let to1 := t mod 2 ^ 8 in
  let t := Z.shiftr t 8 in
  let to2 := t mod 2 ^ 8 in
  let t := Z.shiftr t 8 in
  let to3 := t mod 2 ^ 8 in
  (to0, to1, to2, to3).

Section Walker.
Context {B : Backend}.
Variable emu_regs : RegFile.

(** The state a frame works on: [emu_vram], the buffers of the tile back
    end, and the events so far. *)
Record Core : Type := mkCore
  { vram : Vram; tile : TileBuffers; trace : list Event }.

Definition on_tile (f : TileBuffers -> TileBuffers) (c : Core) : Core :=
  mkCore (vram c) (f (tile c)) (trace c).

Definition emit (e : Event) (c : Core) : Core :=
  mkCore (vram c) (tile c) (trace c ++ [e]).

(** [RenderParamTags<mode>(left, top)] *)
Definition RenderParamTags (mode : RenderMode) (left top : Z) (c : Core) : Core :=
  emit (EvParamTags mode left top)
       (on_tile (Tile.RenderParamTags mode left top (vram c) emu_regs) c).

(** [RenderTriangle] *)
Definition RenderTriangle (render_mode : RenderMode) (params : DrawParameters)
    (tag : Z) (v1 v2 v3 : Vertex) (v4 : option Vertex) (area : taRECT)
    (c : Core) : Core :=
  let c := on_tile (RasterizeTriangle render_mode params tag v1 v2 v3 v4 area
                      (vram c) emu_regs) c in
  let c := if RenderMode_eqb render_mode RM_TRANSLUCENT_PRESORT
           then RenderParamTags RM_TRANSLUCENT_PRESORT (left area) (top area) c
           else c in
  if RenderMode_eqb render_mode RM_MODIFIER then
    let VolumeMode := bits 29 3 (isp_full params) in
    if VolumeMode =? 1 then on_tile SummarizeStencilOr c
    else if VolumeMode =? 2 then on_tile SummarizeStencilAnd c
    else c
  else c.

(** [ReadRegionArrayEntry]: the entry and the size of it in bytes. *)
Definition ReadRegionArrayEntry (emu_vram : Vram) (base : Z)
  : RegionArrayEntry * Z :=
  let fmt_v1 := region_header_type emu_regs =? 0 in
  let control := vri emu_vram base in
  let opaque := vri emu_vram (u32 (base + 4)) in
  let opaque_mod := vri emu_vram (u32 (base + 8)) in
  let trans := vri emu_vram (u32 (base + 12)) in
  let trans_mod := vri emu_vram (u32 (base + 16)) in
  if fmt_v1 then
    (mkEntry (set_pre_sort control (feed_pre_sort emu_regs))
             opaque opaque_mod trans trans_mod 0x80000000, 5 * 4)
  else
    (mkEntry control opaque opaque_mod trans trans_mod
             (vri emu_vram (u32 (base + 20))), 6 * 4).

(** [params.isp.CacheBypass] *)
Definition CacheBypass (params : DrawParameters) : Z :=
  bits 21 1 (isp_full params).

(** [obj.tstrip.shadow & ~FPU_SHAD_SCALE.intensity_shadow], as a [bool]. *)
Definition two_volumes_of (obj : Z) : bool :=
  negb (Z.land (shadow obj) (Z.lnot (intensity_shadow emu_regs)) =? 0).

(** The triangles of a strip: for each [i] of 0..5 whose mask bit
    [1 << (5-i)] is set, the index [i] with the three positions in [vtx]
    the call of [RenderTriangle] takes its vertices from. *)
Definition strip_triangle (obj : Z) (i : nat) : list (nat * (nat * nat * nat)) :=
  if negb (Z.land (mask obj) (Z.shiftl 1 (5 - Z.of_nat i)) =? 0) then
    let not_even := Nat.land i 1 in
    let even := Nat.lxor not_even 1 in
    [(i, (i + not_even, i + even, i + 2))%nat]
  else [].

Definition strip_triangles (obj : Z) : list (nat * (nat * nat * nat)) :=
  flat_map (strip_triangle obj) (seq 0 6).

(** The tag [RenderTriangleStrip] forms for triangle [i]. *)
Definition strip_tag (cache_bypass obj : Z) (i : nat) : Z :=
  CoreTagFromDesc cache_bypass (shadow obj) (skip obj)
                  (param_offs_in_words obj) (Z.of_nat i).

(** [RenderTriangleStrip] *)
Definition RenderTriangleStrip (render_mode : RenderMode) (obj : Z)
    (rect : taRECT) (c : Core) : Core :=
  let param_base := Z.land (PARAM_BASE emu_regs) 0xF00000 in
  let tag_address := u32 (param_base + param_offs_in_words obj * 4) in
  let two_volumes := two_volumes_of obj in
  let '(params, vtx, _) :=
    decode_pvr_vertices (vram c) emu_regs tag_address (skip obj) two_volumes 8 0 in
  fold_left
    (fun c '(i, (a, b, d)) =>
       let tag := strip_tag (CacheBypass params) obj i in
       RenderTriangle render_mode params tag (vtx a) (vtx b) (vtx d) None rect c)
    (strip_triangles obj) c.

(** The loop of [RenderTriangleArray]: [n] triangles are left, the next
    one is read at [param_ptr]. *)
Fixpoint triangle_array_loop (n : nat) (render_mode : RenderMode) (obj : Z)
    (rect : taRECT) (param_base param_ptr : Z) (c : Core) : Core :=
  match n with
  | O => c
  | S n' =>
      let tag_address := param_ptr in
      let '(params, vtx, param_ptr) :=
        decode_pvr_vertices (vram c) emu_regs tag_address (skip obj)
                            (two_volumes_of obj) 3 0 in
      let tag := CoreTagFromDesc (CacheBypass params) (shadow obj) (skip obj)
                   (u32 (tag_address - param_base) / 4) 0 in
      let c := RenderTriangle render_mode params tag (vtx 0%nat) (vtx 1%nat)
                 (vtx 2%nat) None rect c in
      triangle_array_loop n' render_mode obj rect param_base param_ptr c
  end.

(** [RenderTriangleArray] *)
Definition RenderTriangleArray (render_mode : RenderMode) (obj : Z)
    (rect : taRECT) (c : Core) : Core :=
  let triangles := prims obj + 1 in
  let param_base := Z.land (PARAM_BASE emu_regs) 0xF00000 in
  let param_ptr := u32 (param_base + param_offs_in_words obj * 4) in
  triangle_array_loop (Z.to_nat triangles) render_mode obj rect param_base
                      param_ptr c.

(** The loop of [RenderQuadArray]. *)
Fixpoint quad_array_loop (n : nat) (render_mode : RenderMode) (obj : Z)
    (rect : taRECT) (param_base param_ptr : Z) (c : Core) : Core :=
  match n with
  | O => c
  | S n' =>
      let tag_address := param_ptr in
      let '(params, vtx, param_ptr) :=
        decode_pvr_vertices (vram c) emu_regs tag_address (skip obj)
                            (two_volumes_of obj) 4 0 in
      let tag := CoreTagFromDesc (CacheBypass params) (shadow obj) (skip obj)
                   (u32 (tag_address - param_base) / 4) 0 in
      let c := RenderTriangle render_mode params tag (vtx 0%nat) (vtx 1%nat)
                 (vtx 2%nat) (Some (vtx 3%nat)) rect c in
      quad_array_loop n' render_mode obj rect param_base param_ptr c
  end.

(** [RenderQuadArray] *)
Definition RenderQuadArray (render_mode : RenderMode) (obj : Z)
    (rect : taRECT) (c : Core) : Core :=
  let quads := prims obj + 1 in
  let param_base := Z.land (PARAM_BASE emu_regs) 0xF00000 in
  let param_ptr := u32 (param_base + param_offs_in_words obj * 4) in
  quad_array_loop (Z.to_nat quads) render_mode obj rect param_base param_ptr c.

(** [RenderObjectList]: one unit of [fuel] per turn of the [for (;;)]. An
    object of a type that is not handled is reported and skipped. *)
Fixpoint RenderObjectList (fuel : nat) (render_mode : RenderMode) (base : Z)
    (rect : taRECT) (c : Core) : Outcome Core :=
  match fuel with
  | O => OutOfFuel c
  | S fuel' =>
      let obj := vri (vram c) base in
      let base := u32 (base + 4) in
      if is_not_triangle_strip obj =? 0 then
        RenderObjectList fuel' render_mode base rect
          (RenderTriangleStrip render_mode obj rect c)
      else if obj_type obj =? 7 then
        if negb (end_of_list obj =? 0) then Done c
        else RenderObjectList fuel' render_mode
               (next_block_ptr_in_words obj * 4) rect c
      else if obj_type obj =? 4 then
        RenderObjectList fuel' render_mode base rect
          (RenderTriangleArray render_mode obj rect c)
      else if obj_type obj =? 5 then
        RenderObjectList fuel' render_mode base rect
          (RenderQuadArray render_mode obj rect c)
      else
        RenderObjectList fuel' render_mode base rect c
  end.

(** The punch-through peel of [RenderCORE]: [while (GetMoreToDraw())]. *)
Fixpoint punchthrough_loop (fuel : nat) (entry : RegionArrayEntry)
    (rect : taRECT) (c : Core) : Outcome Core :=
  match fuel with
  | O => OutOfFuel c
  | S fuel' =>
      if GetMoreToDraw (tile c) then
        let c := on_tile ClearMoreToDraw c in
        c <- RenderObjectList fuel' RM_PUNCHTHROUGH_PASSN
               (ptr_in_words (puncht entry) * 4) rect c ;;
        if negb (GetMoreToDraw (tile c)) then Done c
        else
          let c := on_tile ClearMoreToDraw c in
          let c := on_tile PeelBuffersPT c in
          let c := RenderParamTags RM_PUNCHTHROUGH_PASS0 (left rect) (top rect) c in
          punchthrough_loop fuel' entry rect c
      else Done c
  end.

(** The punch-through pass: the block under [if (!entry.puncht.empty)]. *)
Definition punchthrough_pass (fuel : nat) (entry : RegionArrayEntry)
    (rect : taRECT) (c : Core) : Outcome Core :=
  let c := on_tile (PeelBuffersPTInitial FLT_MAX) c in
  let c := on_tile ClearMoreToDraw c in
  c <- RenderObjectList fuel RM_PUNCHTHROUGH_PASS0
         (ptr_in_words (puncht entry) * 4) rect c ;;
  let c := on_tile PeelBuffersPT c in
  let c := RenderParamTags RM_PUNCHTHROUGH_PASS0 (left rect) (top rect) c in
  c <- punchthrough_loop fuel entry rect c ;;
  if empty (opaque_mod entry) =? 0 then
    c <- RenderObjectList fuel RM_MODIFIER
           (ptr_in_words (opaque_mod entry) * 4) rect c ;;
    Done (RenderParamTags RM_PUNCHTHROUGH_MV (left rect) (top rect) c)
  else Done c.

(** The layer peeling of the translucent list: [do { ... } while
    (GetMoreToDraw() != 0)]. *)
Fixpoint autosort_loop (fuel : nat) (entry : RegionArrayEntry)
    (rect : taRECT) (c : Core) : Outcome Core :=
  match fuel with
  | O => OutOfFuel c
  | S fuel' =>
      let c := on_tile ClearMoreToDraw c in
      let c := on_tile (PeelBuffers FLT_MAX 0) c in
      c <- RenderObjectList fuel' RM_TRANSLUCENT_AUTOSORT
             (ptr_in_words (trans entry) * 4) rect c ;;
      c <- (if empty (trans_mod entry) =? 0
            then RenderObjectList fuel' RM_MODIFIER
                   (ptr_in_words (trans_mod entry) * 4) rect c
            else Done c) ;;
      let c := RenderParamTags RM_TRANSLUCENT_AUTOSORT (left rect) (top rect) c in
      if GetMoreToDraw (tile c) then autosort_loop fuel' entry rect c
      else Done c
  end.

(** The translucent pass: the block under [if (!entry.trans.empty)]. *)
Definition translucent_pass (fuel : nat) (entry : RegionArrayEntry)
    (rect : taRECT) (c : Core) : Outcome Core :=
  if negb (pre_sort (control entry) =? 0) then
    let c := on_tile ClearParamStatusBuffer c in
    RenderObjectList fuel RM_TRANSLUCENT_PRESORT
      (ptr_in_words (trans entry) * 4) rect c
  else
    let c := on_tile SetTagToMax c in
    autosort_loop fuel entry rect c.

(** One pixel of the write-out: [src] is the position in the color buffer,
    [dst] the address in video memory. *)
Definition write_pixel (fb_packmode x y src dst : Z) (c : Core) : Core :=
  let copy := GetColorOutputBuffer (tile c) in
  if fb_packmode =? 1 then
    let r8 := copy src in
    let g8 := copy (src + 1) in
    let b8 := copy (src + 2) in
    let pixel := pack565 (dither565 x y r8 g8 b8) in
    emit (EvWrite16 dst pixel)
         (mkCore (pvr_write_area1_16 (vram c) dst pixel) (tile c) (trace c))
  else
    let pixel := pack8888 (copy src) (copy (src + 1)) (copy (src + 2))
                          (copy (src + 3)) in
    emit (EvWrite32 dst pixel)
         (mkCore (pvr_write_area1_32 (vram c) dst pixel) (tile c) (trace c)).

(** [for (int x = 0; x < 32; x++)], with [n] pixels left in the line. *)
Fixpoint write_line (n : nat) (fb_packmode bpp x y src dst : Z) (c : Core)
  : Core * Z :=
  match n with
  | O => (c, src)
  | S n' =>
      let c := write_pixel fb_packmode x y src dst c in
      write_line n' fb_packmode bpp (x + 1) y (src + 4) (u32 (dst + bpp)) c
  end.

(** [for (int y = 0; y < 32; y++)], with [n] lines left. *)
Fixpoint write_lines (n : nat) (fb_packmode bpp base offset_bytes y src : Z)
    (c : Core) : Core :=
  match n with
  | O => c
  | S n' =>
      let dst := u32 (base + offset_bytes + y * stride emu_regs * 8) in
      let '(c, src) := write_line 32 fb_packmode bpp 0 y src dst c in
      write_lines n' fb_packmode bpp base offset_bytes (y + 1) src c
  end.

(** The write-out: the block under [if (!entry.control.no_writeout)]. *)
Definition write_out (entry : RegionArrayEntry) (c : Core) : Outcome Core :=
  let field := fieldselect emu_regs in
  let interlace := interlace emu_regs in
  let base := if negb (interlace =? 0) && negb (field =? 0)
              then FB_W_SOF2 emu_regs else FB_W_SOF1 emu_regs in
  assert c (hscale emu_regs =? 0) (
  assert c (interlace =? 0) (
  let vscale := vscalefactor emu_regs in
  assert c ((vscale =? 0x401) || (vscale =? 0x400) || (vscale =? 0x800)) (
  let fb_packmode := fb_packmode emu_regs in
  assert c ((fb_packmode =? 0x1) || (fb_packmode =? 0x6)) (
  let bpp := if fb_packmode =? 0x1 then 2 else 4 in
  let offset_bytes :=
    tilex (control entry) * 32 * bpp +
    tiley (control entry) * 32 * stride emu_regs * 8 in
  Done (write_lines 32 fb_packmode bpp base offset_bytes 0 0 c))))).

(** The start of a tile: the FPU cache is reset and the buffers are
    cleared, unless [z_keep] asks to keep them. *)
Definition tile_clear (entry : RegionArrayEntry) (c : Core) : Core :=
  let c := on_tile ClearFpuCache c in
  let bgTag := ISP_BACKGND_T emu_regs in
  if z_keep (control entry) =? 0
  then on_tile (ClearBuffers bgTag (ISP_BACKGND_D emu_regs) 0) c
  else on_tile ClearParamStatusBuffer c.

(** "Render OPAQ to TAGS": the block under [if (!entry.opaque.empty)]. *)
Definition opaque_lists (fuel : nat) (entry : RegionArrayEntry)
    (rect : taRECT) (c : Core) : Outcome Core :=
  if empty (opaque entry) =? 0 then
    c <- RenderObjectList fuel RM_OPAQUE
           (ptr_in_words (opaque entry) * 4) rect c ;;
    if empty (opaque_mod entry) =? 0
    then RenderObjectList fuel RM_MODIFIER
           (ptr_in_words (opaque_mod entry) * 4) rect c
    else Done c
  else Done c.

(** The rectangle of the tile of an entry. *)
Definition tile_rect (entry : RegionArrayEntry) : taRECT :=
  let rect_top := tiley (control entry) * 32 in
  let rect_left := tilex (control entry) * 32 in
  mkRect rect_left rect_top (rect_left + 32) (rect_top + 32).

(** The body of the region loop of [RenderCORE], for the entry read. *)
Definition RenderTile (fuel : nat) (entry : RegionArrayEntry) (c : Core)
  : Outcome Core :=
  let rect := tile_rect entry in
  let c := tile_clear entry c in
  c <- opaque_lists fuel entry rect c ;;
  let c := RenderParamTags RM_OPAQUE (left rect) (top rect) c in
  c <- (if empty (puncht entry) =? 0
        then punchthrough_pass fuel entry rect c else Done c) ;;
  c <- (if empty (trans entry) =? 0
        then translucent_pass fuel entry rect c else Done c) ;;
  if no_writeout (control entry) =? 0 then write_out entry c else Done c.

(** The body of the region loop from the punch-through pass on: what
    follows [RenderParamTags<RM_OPAQUE>(rect.left, rect.top)]. *)
Definition after_opaque (fuel : nat) (entry : RegionArrayEntry) (c : Core)
  : Outcome Core :=
  let rect := tile_rect entry in
  c <- (if empty (puncht entry) =? 0
        then punchthrough_pass fuel entry rect c else Done c) ;;
  c <- (if empty (trans entry) =? 0
        then translucent_pass fuel entry rect c else Done c) ;;
  if no_writeout (control entry) =? 0 then write_out entry c else Done c.

(** The region loop of [RenderCORE]: [do { ... } while
    (!entry.control.last_region)], one unit of [fuel] per entry. *)
Fixpoint RenderCORE_loop (fuel : nat) (base : Z) (c : Core) : Outcome Core :=
  match fuel with
  | O => OutOfFuel c
  | S fuel' =>
      let '(entry, step) := ReadRegionArrayEntry (vram c) base in
      let base := u32 (base + step) in
      c <- RenderTile fuel' entry c ;;
      if last_region (control entry) =? 0
      then RenderCORE_loop fuel' base c
      else Done c
  end.

(** [RenderCORE] *)
Definition RenderCORE (fuel : nat) (c : Core) : Outcome Core :=
  let base := REGION_BASE emu_regs in
  RenderCORE_loop fuel base c.

End Walker.

Arguments Core {B}.
Arguments mkCore {B} vram tile trace.

(** [ffi_refsw2_render(vram, regs)] ([refsw2_stub.cc]): the globals are
    set and the frame is rendered; the buffers of the tile back end are
    what earlier frames left. *)
Definition ffi_refsw2_render {B : Backend} (fuel : nat) (vram : Vram)
    (regs : RegFile) (buffers : TileBuffers) : Outcome Core :=
  let emu_vram := vram in
  let emu_regs := regs in
  RenderCORE emu_regs fuel (mkCore emu_vram buffers []).

End Lists.

(** ** The AICA DSP playground ([dsp.cpp], [dsp_interp.cpp], [dsp.h])

    Signed 32-bit values are integers of [Z] kept in [-2^31, 2^31). A left
    shift of a signed value wraps around in two's complement, a right
    shift of a signed value is arithmetic, and the bit operations are
    those of [Z], which agree with the 32-bit ones on this range. *)

Module AicaDsp.
Import Word.

(** Wrap-around to [int32_t], [int64_t] and [int16_t]. *)
Definition s32 (z : Z) : Z := (z + 2 ^ 31) mod 2 ^ 32 - 2 ^ 31.
Definition s64 (z : Z) : Z := (z + 2 ^ 63) mod 2 ^ 64 - 2 ^ 63.
Definition s16 (z : Z) : Z := (z + 2 ^ 15) mod 2 ^ 16 - 2 ^ 15.

(** [a << k] on an [int32_t]. *)
Definition shl32 (a k : Z) : Z := s32 (Z.shiftl a k).

(** The loop of [PACK]: [n] turns are left. *)
Fixpoint PACK_loop (n : nat) (temp exponent : Z) : Z :=
  match n with
  | O => exponent
  | S n' =>
      if negb (Z.land temp 0x800000 =? 0) then exponent
      else PACK_loop n' (u32 (Z.shiftl temp 1)) (exponent + 1)
  end.

(** [PACK] ([dsp.cpp]) *)
Definition PACK (val : Z) : Z :=
  let sign := Z.land (Z.shiftr val 23) 0x1 in
  let temp := u32 (Z.land (Z.lxor val (shl32 val 1)) 0xFFFFFF) in
  let exponent := PACK_loop 12 temp 0 in
  let val := if exponent <? 12
             then Z.land (shl32 val exponent) 0x3FFFFF
             else shl32 val 11 in
  let val := Z.shiftr val 11 in
  let val := Z.lor val (Z.shiftl sign 15) in
  let val := Z.lor val (Z.shiftl exponent 11) in
  val mod 2 ^ 16.

(** [UNPACK] ([dsp.cpp]) *)
Definition UNPACK (val : Z) : Z :=
  let sign := Z.land (Z.shiftr val 15) 0x1 in
  let exponent := Z.land (Z.shiftr val 11) 0xF in
  let mantissa := Z.land val 0x7FF in
  let uval := Z.shiftl mantissa 11 in
  let '(exponent, uval) :=
    if exponent >? 11 then (11, uval)
    else (exponent, Z.lor uval (Z.shiftl (Z.lxor sign 1) 22)) in
  let uval := Z.lor uval (Z.shiftl sign 23) in
  let uval := shl32 uval 8 in
  let uval := Z.shiftr uval 8 in
  let uval := Z.shiftr uval exponent in
  uval.

(** [_INST] ([dsp.h]) *)
Record INST : Type := mkINST
  { TRA : Z; TWT : Z; TWA : Z;
    XSEL : Z; YSEL : Z; IRA : Z; IWT : Z; IWA : Z;
    EWT : Z; EWA : Z; ADRL : Z; FRCL : Z; SHIFT : Z; YRL : Z; NEGB : Z;
    ZERO : Z; BSEL : Z;
    NOFL : Z; TABLE : Z; MWT : Z; MRD : Z; MASA : Z; ADREB : Z; NXADR : Z }.

(** [(w >> lsb) & mask] *)
Definition field (w lsb mask : Z) : Z := Z.land (Z.shiftr w lsb) mask.

(** [DecodeInst]: the four words of [IPtr]. *)
Definition DecodeInst (IPtr0 IPtr1 IPtr2 IPtr3 : Z) : INST :=
  {| TRA := field IPtr0 9 0x7F;
     TWT := field IPtr0 8 0x01;
     TWA := field IPtr0 1 0x7F;
     XSEL := field IPtr1 15 0x01;
     YSEL := field IPtr1 13 0x03;
     IRA := field IPtr1 7 0x3F;
     IWT := field IPtr1 6 0x01;
     IWA := field IPtr1 1 0x1F;
     TABLE := field IPtr2 15 0x01;
     MWT := field IPtr2 14 0x01;
     MRD := field IPtr2 13 0x01;
     EWT := field IPtr2 12 0x01;
     EWA := field IPtr2 8 0x0F;
     ADRL := field IPtr2 7 0x01;
     FRCL := field IPtr2 6 0x01;
     SHIFT := field IPtr2 4 0x03;
     YRL := field IPtr2 3 0x01;
     NEGB := field IPtr2 2 0x01;
     ZERO := field IPtr2 1 0x01;
     BSEL := field IPtr2 0 0x01;
     NOFL := field IPtr3 15 1;
     MASA := field IPtr3 9 0x3f;
     ADREB := field IPtr3 8 0x1;
     NXADR := field IPtr3 7 0x1 |}.

(** [w |= (v & mask) << lsb] *)
Definition put (w v mask lsb : Z) : Z :=
  Z.lor w (u32 (Z.shiftl (Z.land v mask) lsb)).

(** [EncodeInst]: the four words written to [IPtr]. *)
Definition EncodeInst (i : INST) : Z * Z * Z * Z :=
  let IPtr0 := 0 in
  let IPtr1 := 0 in
  let IPtr2 := 0 in
  let IPtr3 := 0 in
  let IPtr0 := put IPtr0 (TRA i) 0x7F 9 in
  let IPtr0 := put IPtr0 (TWT i) 0x01 8 in
  let IPtr0 := put IPtr0 (TWA i) 0x7F 1 in
  let IPtr1 := put IPtr1 (XSEL i) 0x01 15 in
  let IPtr1 := put IPtr1 (YSEL i) 0x03 13 in
  let IPtr1 := put IPtr1 (IRA i) 0x3F 7 in
  let IPtr1 := put IPtr1 (IWT i) 0x01 6 in
  let IPtr1 := put IPtr1 (IWA i) 0x1F 1 in
  let IPtr2 := put IPtr2 (TABLE i) 0x01 15 in
  let IPtr2 := put IPtr2 (MWT i) 0x01 14 in
  let IPtr2 := put IPtr2 (MRD i) 0x01 13 in
  let IPtr2 := put IPtr2 (EWT i) 0x01 12 in
  let IPtr2 := put IPtr2 (EWA i) 0x0F 8 in
  let IPtr2 := put IPtr2 (ADRL i) 0x01 7 in
  let IPtr2 := put IPtr2 (FRCL i) 0x01 6 in
  let IPtr2 := put IPtr2 (SHIFT i) 0x03 4 in
  let IPtr2 := put IPtr2 (YRL i) 0x01 3 in
  let IPtr2 := put IPtr2 (NEGB i) 0x01 2 in
  let IPtr2 := put IPtr2 (ZERO i) 0x01 1 in
  let IPtr2 := put IPtr2 (BSEL i) 0x01 0 in
  let IPtr3 := put IPtr3 (NOFL i) 0x01 15 in
  let IPtr3 := put IPtr3 (MASA i) 0x3f 9 in
  let IPtr3 := put IPtr3 (ADREB i) 0x01 8 in
  let IPtr3 := put IPtr3 (NXADR i) 0x01 7 in
  (IPtr0, IPtr1, IPtr2, IPtr3).

(** *** The interpreter ([dsp_interp.cpp])

    [aica_reg] and [aica_ram] are byte arrays; [CommonData] is the
    structure at byte [0x2800] of [aica_reg] and [DSPData] the one at byte
    [0x3000], their members being the 32-bit little-endian words at the
    offsets [dsp.h] lays out. *)

Definition Mem : Type := PvrMem.Vram.

(** The members of [DSPData] and the second word of [CommonData]. *)
Definition COEF_at (i : Z) : Z := 0x3000 + 0x000 + 4 * i.
Definition MADRS_at (i : Z) : Z := 0x3000 + 0x200 + 4 * i.
Definition MPRO_at (i : Z) : Z := 0x3000 + 0x400 + 4 * i.
Definition TEMP_l_at (i : Z) : Z := 0x3000 + 0x1000 + 8 * i.
Definition TEMP_h_at (i : Z) : Z := 0x3000 + 0x1000 + 8 * i + 4.
Definition MEMS_l_at (i : Z) : Z := 0x3000 + 0x1400 + 8 * i.
Definition MEMS_h_at (i : Z) : Z := 0x3000 + 0x1400 + 8 * i + 4.
Definition MIXS_l_at (i : Z) : Z := 0x3000 + 0x1500 + 8 * i.
Definition MIXS_h_at (i : Z) : Z := 0x3000 + 0x1500 + 8 * i + 4.
Definition EFREG_at (i : Z) : Z := 0x3000 + 0x1580 + 4 * i.
Definition EXTS_at (i : Z) : Z := 0x3000 + 0x15C0 + 4 * i.
Definition CommonData_4 : Z := 0x2800 + 4.

(** [CommonData->RBP] (12 bits from bit 0) and [CommonData->RBL] (2 bits
    from bit 13). *)
Definition RBP (reg : Mem) : Z := bits 0 12 (PvrMem.load32 reg CommonData_4).
Definition RBL (reg : Mem) : Z := bits 13 2 (PvrMem.load32 reg CommonData_4).

(** [ReadReg], [WriteReg] ([dsp.cpp]) *)
Definition ReadReg (reg : Mem) (addr : Z) : Z := PvrMem.load32 reg addr.
Definition WriteReg (reg : Mem) (addr data : Z) : Mem :=
  PvrMem.store32 reg addr data.

(** A 16-bit word of [aica_ram]. *)
Definition load16 (ram : Mem) (i : Z) : Z := ram i + ram (i + 1) * 2 ^ 8.

Definition GetMEMS (reg : Mem) (idx : Z) : Z :=
  s32 (Z.lor (PvrMem.load32 reg (MEMS_l_at idx))
             (u32 (Z.shiftl (PvrMem.load32 reg (MEMS_h_at idx)) 8))).

Definition SetMEMS (reg : Mem) (idx val : Z) : Mem :=
  let reg := PvrMem.store32 reg (MEMS_l_at idx) (Z.land val 0xFF) in
  PvrMem.store32 reg (MEMS_h_at idx) (Z.land (Z.shiftr val 8) 0xFFFF).

Definition GetMIXS (reg : Mem) (idx : Z) : Z :=
  s32 (Z.lor (PvrMem.load32 reg (MIXS_l_at idx))
             (u32 (Z.shiftl (PvrMem.load32 reg (MIXS_h_at idx)) 4))).

Definition GetTEMP (reg : Mem) (idx : Z) : Z :=
  s32 (Z.lor (PvrMem.load32 reg (TEMP_l_at idx))
             (u32 (Z.shiftl (PvrMem.load32 reg (TEMP_h_at idx)) 8))).

Definition SetTEMP (reg : Mem) (idx val : Z) : Mem :=
  let reg := PvrMem.store32 reg (TEMP_l_at idx) (Z.land val 0xFF) in
  PvrMem.store32 reg (TEMP_h_at idx) (Z.land (Z.shiftr val 8) 0xFFFF).

Definition GetRBL (reg : Mem) : Z :=
  match RBL reg with
  | 0 => 8 * 1024
  | 1 => 16 * 1024
  | 2 => 32 * 1024
  | 3 => 64 * 1024
  | _ => 0
  end.

Definition GetRBP (reg : Mem) : Z := u32 (RBP reg * 2048).

(** The globals of the interpreter, with the two byte arrays and
    [aram_mask]. *)
Record Dsp : Type := mkDsp
  { aica_reg : Mem;
    aica_ram : Mem;
    aram_mask : Z;
    MDEC_CT : Z;
    ACC : Z;
    SHIFTED : Z;
    X : Z;
    Y : Z;
    B : Z;
    INPUTS : Z;
    MEMVAL : Z -> Z;
    FRC_REG : Z;
    Y_REG : Z;
    ADRS_REG : Z }.

Definition set_MEMVAL (m : Z -> Z) (i v : Z) : Z -> Z :=
  fun j => if j =? i then v else m j.

(** [Step(step)]: [None] when [assert(IRA < 0x38)] fails. The fields of
    the instruction are read from [IPtr] where the source reads them, the
    later ones after the stores that precede them. [0 - B] and the
    conversion of [v + B] to [int32_t] wrap around like the shifts. *)
Definition Step (step : Z) (d : Dsp) : option Dsp :=
  let reg := aica_reg d in
  let ram := aica_ram d in
  let IPtr (reg : Mem) (k : Z) := PvrMem.load32 reg (MPRO_at (step * 4 + k)) in
  let TRA := field (IPtr reg 0) 9 0x7F in
  let TWT := field (IPtr reg 0) 8 0x01 in
  let XSEL := field (IPtr reg 1) 15 0x01 in
  let YSEL := field (IPtr reg 1) 13 0x03 in
  let IRA := field (IPtr reg 1) 7 0x3F in
  let IWT := field (IPtr reg 1) 6 0x01 in
  let EWT := field (IPtr reg 2) 12 0x01 in
  let ADRL := field (IPtr reg 2) 7 0x01 in
  let FRCL := field (IPtr reg 2) 6 0x01 in
  let SHIFT := field (IPtr reg 2) 4 0x03 in
  let YRL := field (IPtr reg 2) 3 0x01 in
  let NEGB := field (IPtr reg 2) 2 0x01 in
  let ZERO := field (IPtr reg 2) 1 0x01 in
  let BSEL := field (IPtr reg 2) 0 0x01 in
  let COEF := u32 step in
  if negb (IRA <? 0x38) then None else
  (* INPUTS RW *)
  let INPUTS :=
    if IRA <=? 0x1f then GetMEMS reg IRA
    else if IRA <=? 0x2F then shl32 (GetMIXS reg (IRA - 0x20)) 4
    else if IRA <=? 0x31
      then s32 (u32 (Z.shiftl (PvrMem.load32 reg (EXTS_at (IRA - 0x30))) 8))
    else 0 in
  let INPUTS := shl32 INPUTS 8 in
  let INPUTS := Z.shiftr INPUTS 8 in
  let reg :=
    if negb (IWT =? 0) then
      let IWA := field (IPtr reg 1) 1 0x1F in
      SetMEMS reg IWA (MEMVAL d (Z.land step 3))
    else reg in
  (* Operand sel: B *)
  let B :=
    if ZERO =? 0 then
      let B :=
        if negb (BSEL =? 0) then ACC d
        else
          let B := shl32 (GetTEMP reg (Z.land (u32 (TRA + MDEC_CT d)) 0x7F)) 2 in
          let B := shl32 B 6 in
          Z.shiftr B 6 in
      if negb (NEGB =? 0) then s32 (0 - B) else B
    else 0 in
  (* X *)
  let X :=
    if negb (XSEL =? 0) then INPUTS
    else
      let X := GetTEMP reg (Z.land (u32 (TRA + MDEC_CT d)) 0x7F) in
      let X := shl32 X 8 in
      Z.shiftr X 8 in
  (* Y *)
  let Y :=
    if YSEL =? 0 then FRC_REG d
    else if YSEL =? 1 then s32 (Z.shiftr (PvrMem.load32 reg (COEF_at COEF)) 3)
    else if YSEL =? 2 then Z.land (Z.shiftr (Y_REG d) 11) 0x1FFF
    else if YSEL =? 3 then Z.land (Z.shiftr (Y_REG d) 4) 0x0FFF
    else Y d in
  let Y_REG := if negb (YRL =? 0) then INPUTS else Y_REG d in
  (* Shifter *)
  let SHIFTED :=
    if SHIFT =? 0 then
      let SHIFTED := Z.shiftr (ACC d) 2 in
      let SHIFTED := if SHIFTED >? 0x0007FFFF then 0x0007FFFF else SHIFTED in
      if SHIFTED <? - 0x00080000 then - 0x00080000 else SHIFTED
    else if SHIFT =? 1 then
      let SHIFTED := Z.shiftr (ACC d) 1 in
      let SHIFTED := if SHIFTED >? 0x0007FFFF then 0x0007FFFF else SHIFTED in
      if SHIFTED <? - 0x00080000 then - 0x00080000 else SHIFTED
    else if SHIFT =? 2 then
      let SHIFTED := Z.shiftr (ACC d) 1 in
      let SHIFTED := shl32 SHIFTED 8 in
      Z.shiftr SHIFTED 8
    else if SHIFT =? 3 then
      let SHIFTED := Z.shiftr (ACC d) 2 in
      let SHIFTED := shl32 SHIFTED 8 in
      Z.shiftr SHIFTED 8
    else SHIFTED d in
  (* ACCUM *)
  let Y := shl32 Y 19 in
  let Y := Z.shiftr Y 19 in
  let v := Z.shiftr (X * Y) 10 in
  let v := s64 (Z.shiftl v 6) in
  let v := Z.shiftr v 6 in
  let ACC := s32 (v + B) in
  let ACC := shl32 ACC 6 in
  let ACC := Z.shiftr ACC 6 in
  let reg :=
    if negb (TWT =? 0) then
      let TWA := field (IPtr reg 0) 1 0x7F in
      SetTEMP reg (Z.land (u32 (TWA + MDEC_CT d)) 0x7F) SHIFTED
    else reg in
  let FRC_REG :=
    if negb (FRCL =? 0) then
      if SHIFT =? 3 then Z.land SHIFTED 0x0FFF
      else Z.land (Z.shiftr SHIFTED 11) 0x1FFF
    else FRC_REG d in
  let '(ram, MEMVAL) :=
    if negb (Z.land step 1 =? 0) then
      let MWT := field (IPtr reg 2) 14 0x01 in
      let MRD := field (IPtr reg 2) 13 0x01 in
      if negb (MRD =? 0) || negb (MWT =? 0) then
        let TABLE := field (IPtr reg 2) 15 0x01 in
        let NOFL := field (IPtr reg 3) 15 1 in
        let MASA := field (IPtr reg 3) 9 0x3f in
        let ADREB := field (IPtr reg 3) 8 0x1 in
        let NXADR := field (IPtr reg 3) 7 0x1 in
        let ADDR := PvrMem.load32 reg (MADRS_at MASA) in
        let ADDR :=
          if negb (ADREB =? 0) then u32 (ADDR + Z.land (ADRS_REG d) 0x0FFF)
          else ADDR in
        let ADDR := if negb (NXADR =? 0) then u32 (ADDR + 1) else ADDR in
        let ADDR :=
          if TABLE =? 0 then
            let ADDR := u32 (ADDR + MDEC_CT d) in
            Z.land ADDR (u32 (GetRBL reg - 1))
          else Z.land ADDR 0xFFFF in
        let ADDR := u32 (Z.shiftl ADDR 1) in
        let ADDR := u32 (ADDR + GetRBP reg) in
        let MEMVAL :=
          if negb (MRD =? 0) then
            if negb (NOFL =? 0) then
              set_MEMVAL (MEMVAL d) (Z.land (step + 2) 3)
                (shl32 (s16 (load16 ram (Z.land ADDR (aram_mask d)))) 8)
            else
              set_MEMVAL (MEMVAL d) (Z.land (step + 2) 3)
                (UNPACK (load16 ram (Z.land ADDR (aram_mask d))))
          else MEMVAL d in
        let ram :=
          if negb (MWT =? 0) then
            if negb (NOFL =? 0) then
              PvrMem.store16 ram (Z.land ADDR (aram_mask d)) (Z.shiftr SHIFTED 8)
            else
              PvrMem.store16 ram (Z.land ADDR (aram_mask d)) (PACK SHIFTED)
          else ram in
        (ram, MEMVAL)
      else (ram, MEMVAL d)
    else (ram, MEMVAL d) in
  let ADRS_REG :=
    if negb (ADRL =? 0) then
      if SHIFT =? 3 then u32 (Z.land (Z.shiftr SHIFTED 12) 0xFFF)
      else u32 (Z.shiftr INPUTS 16)
    else ADRS_REG d in
  let reg :=
    if negb (EWT =? 0) then
      let EWA := field (IPtr reg 2) 8 0x0F in
      PvrMem.store32 reg (EFREG_at EWA)
        (u32 (PvrMem.load32 reg (EFREG_at EWA) + Z.shiftr SHIFTED 4))
    else reg in
  Some {| aica_reg := reg; aica_ram := ram; aram_mask := aram_mask d;
          MDEC_CT := MDEC_CT d; ACC := ACC; SHIFTED := SHIFTED; X := X;
          Y := Y; B := B; INPUTS := INPUTS; MEMVAL := MEMVAL;
          FRC_REG := FRC_REG; Y_REG := Y_REG; ADRS_REG := ADRS_REG |}.

(** [Step128Start]: [EFREG] is cleared. *)
Definition Step128Start (d : Dsp) : Dsp :=
  let reg :=
    fold_left (fun reg k => PvrMem.poke reg (EFREG_at 0 + Z.of_nat k) 0)
              (seq 0 64) (aica_reg d) in
  {| aica_reg := reg; aica_ram := aica_ram d; aram_mask := aram_mask d;
     MDEC_CT := MDEC_CT d; ACC := ACC d; SHIFTED := SHIFTED d; X := X d;
     Y := Y d; B := B d; INPUTS := INPUTS d; MEMVAL := MEMVAL d;
     FRC_REG := FRC_REG d; Y_REG := Y_REG d; ADRS_REG := ADRS_REG d |}.

(** [Step128SEnd] *)
Definition Step128SEnd (d : Dsp) : Dsp :=
  let MDEC_CT := u32 (MDEC_CT d - 1) in
  let MDEC_CT := if MDEC_CT =? 0 then GetRBL (aica_reg d) else MDEC_CT in
  {| aica_reg := aica_reg d; aica_ram := aica_ram d; aram_mask := aram_mask d;
     MDEC_CT := MDEC_CT; ACC := ACC d; SHIFTED := SHIFTED d; X := X d;
     Y := Y d; B := B d; INPUTS := INPUTS d; MEMVAL := MEMVAL d;
     FRC_REG := FRC_REG d; Y_REG := Y_REG d; ADRS_REG := ADRS_REG d |}.

(** The loop of [Step128]: the steps from [step] on, [n] of them. *)
Fixpoint Step128_loop (n : nat) (step : Z) (d : Dsp) : option Dsp :=
  match n with
  | O => Some d
  | S n' =>
      match Step step d with
      | Some d' => Step128_loop n' (step + 1) d'
      | None => None
      end
  end.

(** [Step128] *)
Definition Step128 (d : Dsp) : option Dsp :=
  match Step128_loop 128 0 (Step128Start d) with
  | Some d' => Some (Step128SEnd d')
  | None => None
  end.

End AicaDsp.

(** ** Exhaustive checks over a bounded index range *)

Module Exhaust.

(** [p] holds at [z], [z + 1], ..., [z + n - 1]. *)
Fixpoint forall_from (n : nat) (z : Z) (p : Z -> bool) : bool :=
  match n with
  | O => true
  | S k => p z && forall_from k (z + 1) p
  end.

(** [p] holds at every [z] with [0 <= z < n]. *)
Definition forall_below (n : Z) (p : Z -> bool) : bool :=
  forall_from (Z.to_nat n) 0 p.

Lemma forall_from_spec n : forall z p,
  forall_from n z p = true ->
  forall k, z <= k < z + Z.of_nat n -> p k = true.
Proof.
  induction n as [| n IH]; intros z p H k Hk; [lia |].
  cbn [forall_from] in H. apply andb_true_iff in H. destruct H as [Hz Hrest].
  destruct (Z.eq_dec k z) as [-> | Hne]; [assumption |].
  apply (IH (z + 1) p Hrest). lia.
Qed.

Lemma forall_below_spec n p :
  forall_below n p = true -> forall k, 0 <= k < n -> p k = true.
Proof.
  unfold forall_below. intros H k Hk.
  apply (forall_from_spec _ _ _ H). lia.
Qed.

End Exhaust.

(** ** Properties of the twiddle tables *)

Module TwiddleFacts.
Import TexUtils Exhaust.
Local Open Scope N_scope.

Lemma twiddle_while_unfold s :
  twiddle_while s = if twiddle_cond s then twiddle_while (twiddle_body s) else s.
Proof.
  funelim (twiddle_while s).
  - match goal with H : twiddle_cond _ = true |- _ => now rewrite H end.
  - match goal with H : twiddle_cond _ = false |- _ => now rewrite H end.
Qed.

(** The bit a half-step contributes, and the shift count after it. *)
Definition step_bit (h v sz : N) : N :=
  if sz =? 0 then 0 else wrap32 (N.shiftl (N.land v 1) h).
Definition step_sh (h sz : N) : N := if sz =? 0 then h else h + 1.

Lemma twiddle_body_mk r h x y xs ys :
  twiddle_body (mkTw r h x y xs ys) =
  mkTw (N.lor (N.lor r (step_bit h y ys)) (step_bit (step_sh h ys) x xs))
       (step_sh (step_sh h ys) xs)
       (if xs =? 0 then x else N.shiftr x 1)
       (if ys =? 0 then y else N.shiftr y 1)
       (N.shiftr xs 1) (N.shiftr ys 1).
Proof.
  unfold twiddle_body, twiddle_step_x, twiddle_step_y, step_bit, step_sh.
  cbn -[N.shiftr N.shiftl N.land N.lor wrap32 N.add].
  destruct (N.eqb_spec ys 0) as [-> | Hy];
    cbn -[N.shiftr N.shiftl N.land N.lor wrap32 N.add];
    (destruct (N.eqb_spec xs 0) as [-> | Hx];
     cbn -[N.shiftr N.shiftl N.land N.lor wrap32 N.add]);
    rewrite ?N.lor_0_r; reflexivity.
Qed.

Lemma step_bit_zero h sz : step_bit h 0 sz = 0.
Proof. unfold step_bit. destruct (sz =? 0); reflexivity. Qed.

Lemma half_zero sz : (if sz =? 0 then 0 else N.shiftr 0 1) = 0.
Proof. destruct (sz =? 0); reflexivity. Qed.

Ltac lor_ac :=
  apply N.bits_inj; intros ?k; rewrite ?N.lor_spec, ?N.bits_0;
  repeat match goal with
         | |- context [N.testbit ?a ?k] => destruct (N.testbit a k)
         end; reflexivity.

(** The accumulator only collects bits: what it holds on entry is or-ed
    into the result. *)
Lemma twiddle_while_rv (n : nat) : forall r h x y xs ys,
  (twiddle_measure (mkTw r h x y xs ys) < n)%nat ->
  tw_rv (twiddle_while (mkTw r h x y xs ys)) =
  N.lor r (tw_rv (twiddle_while (mkTw 0 h x y xs ys))).
Proof.
  induction n as [| n IH]; intros r h x y xs ys Hm; [lia |].
  rewrite (twiddle_while_unfold (mkTw r h x y xs ys)).
  rewrite (twiddle_while_unfold (mkTw 0 h x y xs ys)).
  change (twiddle_cond (mkTw 0 h x y xs ys))
    with (twiddle_cond (mkTw r h x y xs ys)).
  destruct (twiddle_cond (mkTw r h x y xs ys)) eqn:Hc.
  - pose proof (twiddle_body_decreases _ Hc) as Hd.
    rewrite twiddle_body_mk in Hd. rewrite !twiddle_body_mk.
    rewrite IH by (unfold twiddle_measure in *; simpl in *; lia).
    rewrite (IH (N.lor (N.lor 0 _) _))
      by (unfold twiddle_measure in *; simpl in *; lia).
    lor_ac.
  - simpl. now rewrite N.lor_0_r.
Qed.

(** The bits of [x] and the bits of [y] are placed independently. *)
Lemma twiddle_while_split (n : nat) : forall r h x y xs ys,
  (twiddle_measure (mkTw r h x y xs ys) < n)%nat ->
  tw_rv (twiddle_while (mkTw r h x y xs ys)) =
  N.lor r (N.lor (tw_rv (twiddle_while (mkTw 0 h x 0 xs ys)))
                 (tw_rv (twiddle_while (mkTw 0 h 0 y xs ys)))).
Proof.
  induction n as [| n IH]; intros r h x y xs ys Hm; [lia |].
  rewrite (twiddle_while_unfold (mkTw r h x y xs ys)).
  rewrite (twiddle_while_unfold (mkTw 0 h x 0 xs ys)).
  rewrite (twiddle_while_unfold (mkTw 0 h 0 y xs ys)).
  change (twiddle_cond (mkTw 0 h x 0 xs ys))
    with (twiddle_cond (mkTw r h x y xs ys)).
  change (twiddle_cond (mkTw 0 h 0 y xs ys))
    with (twiddle_cond (mkTw r h x y xs ys)).
  destruct (twiddle_cond (mkTw r h x y xs ys)) eqn:Hc.
  - pose proof (twiddle_body_decreases _ Hc) as Hd.
    rewrite twiddle_body_mk in Hd. rewrite !twiddle_body_mk.
    rewrite !step_bit_zero, !half_zero.
    assert (Hm' : forall a b c d,
               (twiddle_measure (mkTw a b c d (N.shiftr xs 1) (N.shiftr ys 1)) < n)%nat)
      by (intros; unfold twiddle_measure in *; simpl in *; lia).
    rewrite IH by apply Hm'.
    rewrite (twiddle_while_rv n (N.lor (N.lor 0 0) _)) by apply Hm'.
    rewrite (twiddle_while_rv n (N.lor (N.lor 0 _) 0)) by apply Hm'.
    lor_ac.
  - simpl. now rewrite N.lor_0_r.
Qed.

Lemma twiddle_slow_split x y x_sz y_sz :
  twiddle_slow x y x_sz y_sz =
  N.lor (twiddle_slow x 0 x_sz y_sz) (twiddle_slow 0 y x_sz y_sz).
Proof.
  unfold twiddle_slow. cbv zeta.
  rewrite (twiddle_while_split (S (twiddle_measure (mkTw 0 0 x y (N.shiftr x_sz 1) (N.shiftr y_sz 1)))))
    by lia.
  apply N.lor_0_l.
Qed.

(** Row [s], column [i] of the square case, checked for every [s < 11] and
    [i < 2^s]: the 1024-wide table entries agree with the square ones, the
    [x] entry has no even bit and the [y] entry no odd bit. *)
Definition square_row_ok (s i : Z) : bool :=
  let sz := N.shiftl 1 (Z.to_N s) in
  let i := Z.to_N i in
  (twiddle_slow i 0 sz sz =? twiddle_slow i 0 1024 sz) &&
  (twiddle_slow 0 i sz sz =? twiddle_slow 0 i sz 1024) &&
  (N.land (twiddle_slow i 0 1024 sz) 0x55555555 =? 0) &&
  (N.land (twiddle_slow 0 i sz 1024) 0x55555555 =? twiddle_slow 0 i sz 1024) &&
  (twiddle_slow i 0 1024 sz + twiddle_slow 0 i sz 1024 <? 2 ^ 31).

Lemma square_rows_checked :
  forall_below 11 (fun s => forall_below (2 ^ s) (square_row_ok s)) = true.
Proof. vm_compute. reflexivity. Qed.

Lemma square_row s i :
  s <= 10 -> i < 2 ^ s ->
  let sz := N.shiftl 1 s in
  twiddle_slow i 0 sz sz = twiddle_slow i 0 1024 sz /\
  twiddle_slow 0 i sz sz = twiddle_slow 0 i sz 1024 /\
  N.land (twiddle_slow i 0 1024 sz) 0x55555555 = 0 /\
  N.land (twiddle_slow 0 i sz 1024) 0x55555555 = twiddle_slow 0 i sz 1024 /\
  twiddle_slow i 0 1024 sz + twiddle_slow 0 i sz 1024 < 2 ^ 31.
Proof.
  intros Hs Hi sz.
  pose proof (forall_below_spec _ _ square_rows_checked (Z.of_N s) ltac:(lia)) as Hrow.
  cbv beta in Hrow.
  assert (Hi' : (0 <= Z.of_N i < 2 ^ Z.of_N s)%Z).
  { change 2%Z with (Z.of_N 2). rewrite <- N2Z.inj_pow. lia. }
  pose proof (forall_below_spec _ _ Hrow (Z.of_N i) Hi') as Hok.
  unfold square_row_ok in Hok. rewrite !N2Z.id in Hok. fold sz in Hok.
  cbv zeta in Hok.
  repeat (apply andb_true_iff in Hok; destruct Hok as [Hok ?]).
  repeat match goal with H : (_ =? _) = true |- _ => apply N.eqb_eq in H end.
  match goal with H : (_ <? _) = true |- _ => apply N.ltb_lt in H end.
  auto.
Qed.

Lemma nth_index_range {A : Type} (f : N -> A) (n k : nat) (d : A) :
  (k < n)%nat -> nth k (map f (index_range n)) d = f (N.of_nat k).
Proof.
  intros Hk. unfold index_range. rewrite map_map.
  rewrite (nth_indep _ d (f (N.of_nat 0))) by (now rewrite length_map, length_seq).
  rewrite (map_nth (fun x => f (N.of_nat x))).
  now rewrite seq_nth.
Qed.

Lemma detwiddle_0 s i :
  s < 11 -> i < 1024 ->
  detwiddle 0 s i = twiddle_slow i 0 1024 (N.shiftl 1 s).
Proof.
  intros Hs Hi. unfold detwiddle, InitTexUtils_detwiddle.
  change (N.to_nat 0) with 0%nat. cbv zeta. cbn [nth].
  rewrite (nth_index_range _ 11) by lia.
  rewrite (nth_index_range _ 1024) by lia.
  now rewrite !N2Nat.id.
Qed.

Lemma detwiddle_1 s i :
  s < 11 -> i < 1024 ->
  detwiddle 1 s i = twiddle_slow 0 i (N.shiftl 1 s) 1024.
Proof.
  intros Hs Hi. unfold detwiddle, InitTexUtils_detwiddle.
  change (N.to_nat 1) with 1%nat. cbv zeta. cbn [nth].
  rewrite (nth_index_range _ 11) by lia.
  rewrite (nth_index_range _ 1024) by lia.
  now rewrite !N2Nat.id.
Qed.

Lemma pow2_le_1024 s : s <= 10 -> 2 ^ s <= 1024.
Proof. intros H. change 1024 with (2 ^ 10). apply N.pow_le_mono_r; lia. Qed.

End TwiddleFacts.

(** ** Loop budgets: a call that has ended keeps its outcome *)

Module Fuel.
Import Word PvrMem PvrRegs RegTypes Tile Lists.

Definition fuel_mono {A : Type} (f : nat -> Outcome A) : Prop :=
  forall n m, (n <= m)%nat -> ended (f n) = true -> f m = f n.

Lemma fuel_mono_const {A : Type} (o : Outcome A) : fuel_mono (fun _ => o).
Proof. intros n m _ _. reflexivity. Qed.

Lemma fuel_mono_bind {A : Type} (f : nat -> Outcome A) (k : nat -> A -> Outcome A) :
  fuel_mono f -> (forall a, fuel_mono (fun n => k n a)) ->
  fuel_mono (fun n => bind (f n) (k n)).
Proof.
  intros Hf Hk n m Hle Hn. cbv beta in *.
  destruct (f n) as [a | a | a] eqn:Hfn; cbn [bind ended] in Hn;
    try discriminate.
  - rewrite (Hf n m Hle) by (now rewrite Hfn). rewrite Hfn. cbn [bind].
    now apply (Hk a n m).
  - rewrite (Hf n m Hle) by (now rewrite Hfn). now rewrite Hfn.
Qed.

Lemma fuel_mono_if {A : Type} (b : bool) (f g : nat -> Outcome A) :
  fuel_mono f -> fuel_mono g -> fuel_mono (fun n => if b then f n else g n).
Proof. intros Hf Hg. destruct b; assumption. Qed.

Section Walker.
Context {B : Backend}.
Variable emu_regs : RegFile.

Lemma RenderObjectList_mono mode base rect c :
  fuel_mono (fun n => RenderObjectList emu_regs n mode base rect c).
Proof.
  intros n. revert mode base rect c.
  induction n as [| n IH]; intros mode base rect c m Hle Hn;
    [cbn [RenderObjectList ended] in Hn; discriminate |].
  destruct m as [| m]; [lia |].
  cbn [RenderObjectList] in *. cbv zeta in *.
  repeat match goal with
         | |- context [if ?b then _ else _] => destruct b
         end; try reflexivity; apply IH; solve [lia | assumption].
Qed.

(** A call of [RenderObjectList] inside a loop body, on a larger budget. *)
Ltac step_object_list n m :=
  match goal with
  | H : context [RenderObjectList _ n ?a ?b ?r ?s] |- _ =>
      let Hl := fresh "Hl" in
      let Hr := fresh "Hr" in
      pose proof (RenderObjectList_mono a b r s n m ltac:(lia)) as Hl;
      cbv beta in Hl;
      destruct (RenderObjectList emu_regs n a b r s) eqn:Hr;
      cbn [bind ended] in H; try discriminate;
      rewrite Hl by reflexivity; cbn [bind]; try reflexivity
  end.

Lemma punchthrough_loop_mono entry rect c :
  fuel_mono (fun n => punchthrough_loop emu_regs n entry rect c).
Proof.
  intros n. revert c.
  induction n as [| n IH]; intros c m Hle Hn;
    [cbn [punchthrough_loop ended] in Hn; discriminate |].
  destruct m as [| m]; [lia |].
  cbn [punchthrough_loop] in *. cbv zeta in *.
  destruct (GetMoreToDraw (tile c)); [| reflexivity].
  step_object_list n m.
  match goal with
  | |- context [if ?b then _ else _] => destruct b
  end; [reflexivity | apply IH; [lia | assumption]].
Qed.

Lemma autosort_loop_mono entry rect c :
  fuel_mono (fun n => autosort_loop emu_regs n entry rect c).
Proof.
  intros n. revert c.
  induction n as [| n IH]; intros c m Hle Hn;
    [cbn [autosort_loop ended] in Hn; discriminate |].
  destruct m as [| m]; [lia |].
  cbn [autosort_loop] in *. cbv zeta in *.
  step_object_list n m.
  destruct (empty (trans_mod entry) =? 0).
  - step_object_list n m.
    match goal with
    | |- context [if ?b then _ else _] => destruct b
    end; [apply IH; [lia | assumption] | reflexivity].
  - cbn [bind] in *.
    match goal with
    | |- context [if ?b then _ else _] => destruct b
    end; [apply IH; [lia | assumption] | reflexivity].
Qed.

Lemma punchthrough_pass_mono entry rect c :
  fuel_mono (fun n => punchthrough_pass emu_regs n entry rect c).
Proof.
  unfold punchthrough_pass.
  apply fuel_mono_bind; [apply RenderObjectList_mono | intros c1].
  apply fuel_mono_bind; [apply punchthrough_loop_mono | intros c2].
  apply fuel_mono_if; [| apply fuel_mono_const].
  apply fuel_mono_bind; [apply RenderObjectList_mono | intros c3].
  apply fuel_mono_const.
Qed.

Lemma translucent_pass_mono entry rect c :
  fuel_mono (fun n => translucent_pass emu_regs n entry rect c).
Proof.
  unfold translucent_pass.
  apply fuel_mono_if; [apply RenderObjectList_mono | apply autosort_loop_mono].
Qed.

Lemma RenderTile_mono entry c :
  fuel_mono (fun n => RenderTile emu_regs n entry c).
Proof.
  unfold RenderTile, opaque_lists. cbv zeta.
  apply fuel_mono_bind.
  { apply fuel_mono_if; [| apply fuel_mono_const].
    apply fuel_mono_bind; [apply RenderObjectList_mono | intros c1].
    apply fuel_mono_if; [apply RenderObjectList_mono | apply fuel_mono_const]. }
  intros c1.
  apply fuel_mono_bind.
  { apply fuel_mono_if; [apply punchthrough_pass_mono | apply fuel_mono_const]. }
  intros c2.
  apply fuel_mono_bind.
  { apply fuel_mono_if; [apply translucent_pass_mono | apply fuel_mono_const]. }
  intros c3. apply fuel_mono_const.
Qed.

Lemma RenderCORE_loop_mono base c :
  fuel_mono (fun n => RenderCORE_loop emu_regs n base c).
Proof.
  intros n. revert base c.
  induction n as [| n IH]; intros base c m Hle Hn;
    [cbn [RenderCORE_loop ended] in Hn; discriminate |].
  destruct m as [| m]; [lia |].
  cbn [RenderCORE_loop] in *.
  destruct (ReadRegionArrayEntry emu_regs (vram c) base) as [entry step].
  pose proof (RenderTile_mono entry c n m ltac:(lia)) as Ht. cbv beta in Ht.
  destruct (RenderTile emu_regs n entry c) as [c1 | c1 | c1] eqn:Hr;
    cbn [bind ended] in Hn; try discriminate;
    rewrite Ht by reflexivity; cbn [bind]; [| reflexivity].
  destruct (last_region (control entry) =? 0); [| reflexivity].
  apply IH; [lia | assumption].
Qed.

End Walker.
End Fuel.

(** ** The region loop, entry by entry *)

Module RegionWalk.
Import Word PvrMem PvrRegs RegTypes Tile Lists Fuel.

Section Walker.
Context {B : Backend}.
Variable emu_regs : RegFile.

(** The passes of the tile of [entry], started in [c], all end and leave
    [c']. *)
Definition tile_completes (entry : RegionArrayEntry) (c c' : Core) : Prop :=
  exists n, RenderTile emu_regs n entry c = Done c'.

(** [entries_read base c es c']: from the address [base] and the state [c]
    the entries [es] are read one after the other, whatever their
    [last_region] flags, each at the address that follows the entry before
    it and in the state the tile before it left; every tile ends, and [c']
    is the state after the last one. *)
Inductive entries_read : Z -> Core -> list RegionArrayEntry -> Core -> Prop :=
| read_none base c : entries_read base c [] c
| read_next base c entry es c1 c' :
    entry = fst (ReadRegionArrayEntry emu_regs (vram c) base) ->
    tile_completes entry c c1 ->
    entries_read
      (u32 (base + snd (ReadRegionArrayEntry emu_regs (vram c) base))) c1 es c' ->
    entries_read base c (entry :: es) c'.

Lemma region_loop_reads fuel : forall base c c',
  RenderCORE_loop emu_regs fuel base c = Done c' ->
  exists es e,
    entries_read base c (es ++ [e]) c' /\
    Forall (fun x => last_region (control x) = 0) es /\
    last_region (control e) <> 0.
Proof.
  induction fuel as [| fuel IH]; intros base c c' Hrun;
    [cbn [RenderCORE_loop] in Hrun; discriminate |].
  cbn [RenderCORE_loop] in Hrun.
  destruct (ReadRegionArrayEntry emu_regs (vram c) base) as [entry step] eqn:Hread.
  destruct (RenderTile emu_regs fuel entry c) as [c1 | c1 | c1] eqn:Htile;
    cbn [bind] in Hrun; try discriminate.
  assert (Hc : tile_completes entry c c1) by (now exists fuel).
  destruct (Z.eqb_spec (last_region (control entry)) 0) as [Hz | Hnz].
  - destruct (IH _ _ _ Hrun) as (es & e & Hes & Hall & He).
    exists (entry :: es), e. repeat split; [| now constructor | assumption].
    cbn [app]. eapply read_next; rewrite ?Hread; cbn [fst snd]; eauto.
  - injection Hrun as <-.
    exists [], entry. repeat split; [| constructor | assumption].
    cbn [app]. eapply read_next; rewrite ?Hread; cbn [fst snd]; eauto.
    constructor.
Qed.

Lemma reads_region_loop es : forall base c e c',
  entries_read base c (es ++ [e]) c' ->
  Forall (fun x => last_region (control x) = 0) es ->
  last_region (control e) <> 0 ->
  exists fuel, RenderCORE_loop emu_regs fuel base c = Done c'.
Proof.
  induction es as [| x es IH]; intros base c e c' Hes Hall He; cbn [app] in Hes.
  - inversion Hes as [| ? ? ? ? c1 ? Hentry [n Htile] Hrest]; subst.
    inversion Hrest; subst.
    exists (S n). cbn [RenderCORE_loop].
    destruct (ReadRegionArrayEntry emu_regs (vram c) base) as [entry step].
    cbn [fst] in Htile. rewrite Htile. cbn [bind].
    destruct (Z.eqb_spec (last_region (control entry)) 0); [contradiction | reflexivity].
  - inversion Hes as [| ? ? ? ? c1 ? Hentry [n Htile] Hrest]; subst.
    apply Forall_cons_iff in Hall. destruct Hall as [Hx Hall'].
    destruct (IH _ _ _ _ Hrest Hall' He) as [m Hloop].
    exists (S (Nat.max n m)). cbn [RenderCORE_loop].
    destruct (ReadRegionArrayEntry emu_regs (vram c) base) as [entry step].
    cbn [fst snd] in *.
    rewrite (RenderTile_mono emu_regs entry c n (Nat.max n m))
      by (rewrite ?Htile; solve [lia | reflexivity]).
    rewrite Htile. cbn [bind].
    rewrite Hx. cbn [Z.eqb].
    rewrite (RenderCORE_loop_mono emu_regs _ c1 m (Nat.max n m))
      by (rewrite ?Hloop; solve [lia | reflexivity]).
    exact Hloop.
Qed.

End Walker.
End RegionWalk.

(** ** A tile back end that draws nothing, and video memory by its words *)

Module Fixtures.
Import Word PvrMem PvrRegs RegTypes Tile Lists.

(** No buffers, no parameters: every call returns at once, there is never
    more to draw, and every byte of the color buffer is [color]. *)
Definition solid (color : Z) : Backend := {|
  TileBuffers := unit;
  DrawParameters := unit;
  Vertex := unit;
  isp_full := fun _ => 0;
  decode_pvr_vertices := fun _ _ base _ _ _ _ => (tt, fun _ => tt, base);
  RasterizeTriangle := fun _ _ _ _ _ _ _ _ _ _ b => b;
  Tile.RenderParamTags := fun _ _ _ _ _ b => b;
  SummarizeStencilOr := fun b => b;
  SummarizeStencilAnd := fun b => b;
  ClearFpuCache := fun b => b;
  ClearBuffers := fun _ _ _ b => b;
  ClearParamStatusBuffer := fun b => b;
  PeelBuffersPTInitial := fun _ b => b;
  PeelBuffersPT := fun b => b;
  PeelBuffers := fun _ _ b => b;
  ClearMoreToDraw := fun b => b;
  GetMoreToDraw := fun _ => false;
  SetTagToMax := fun b => b;
  GetColorOutputBuffer := fun _ _ => color
|}.

(** The back end with a black color buffer. *)
Definition idle : Backend := solid 0.

(** A state of a frame over the idle back end. *)
Definition idle_core (vram : Vram) (trace : list Event) : Core (B := idle) :=
  mkCore (B := idle) vram tt trace.

(** The 32-bit address a byte index of the video memory is mapped from. *)
Definition pvr_unmap32 (i : Z) : Z :=
  i mod 4 + 4 * ((i / 8) mod 2 ^ 20) + 2 ^ 22 * ((i / 4) mod 2).

(** The video memory in which the 32-bit word at the aligned address
    [4 * k] is [words k]. *)
Definition vram_of_words (words : Z -> Z) : Vram :=
  fun i => let a := pvr_unmap32 i in byte_of (a mod 4) (words (a / 4)).

(** A register block with the given words at the given addresses, zero
    elsewhere. *)
Definition regs_of (l : list (Z * Z)) : RegFile :=
  fun i => fold_right (fun '(addr, v) r => if i =? addr / 4 then v else r) 0 l.

(** A region array of 1025 entries in the 5-word format at address 0:
    nothing to draw and nothing to write out in any of them, and
    [last_region] set in the last one only. *)
Definition long_region_array : Vram :=
  vram_of_words (fun k =>
    if k mod 5 =? 0
    then (if k / 5 =? 1024 then 0x90000000 else 0x10000000)
    else 0x80000000).

(** A region array of one entry at address 0: the given control word, and
    every list pointer empty. *)
Definition single_tile_array (control : Z) : Vram :=
  vram_of_words (fun k => if k =? 0 then control else 0x80000000).

(** RGB565 write-out with the frame buffer at the odd address [0x7FFFFF]. *)
Definition regs_unaligned : RegFile :=
  regs_of [ (FB_W_CTRL_addr, 1); (SCALER_CTL_addr, 0x400);
            (FB_W_SOF1_addr, 0x7FFFFF); (FB_W_LINESTRIDE_addr, 160) ].

(** ARGB8888 write-out with the frame buffer at [0x200000]. *)
Definition regs_aligned : RegFile :=
  regs_of [ (FB_W_CTRL_addr, 6); (SCALER_CTL_addr, 0x400);
            (FB_W_SOF1_addr, 0x200000); (FB_W_LINESTRIDE_addr, 320) ].

End Fixtures.

(** ** A back end that records its calls *)

Module Recording.
Import Word PvrMem PvrRegs RegTypes Tile Lists.

(** The calls that change the tile buffers. *)
Inductive Call : Type :=
| CallRasterizeTriangle (mode : RenderMode) (tag : Z)
| CallRenderParamTags (mode : RenderMode) (left top : Z)
| CallSummarizeStencilOr
| CallSummarizeStencilAnd
| CallClearFpuCache
| CallClearBuffers (tag depth stencil : Z)
| CallClearParamStatusBuffer
| CallPeelBuffersPTInitial (depth : Z)
| CallPeelBuffersPT
| CallPeelBuffers (depth stencil : Z)
| CallClearMoreToDraw
| CallSetTagToMax.

(** The tile buffers are the calls made on them, oldest first; there is
    never more to draw and the color buffer is black. *)
Definition recording : Backend := {|
  TileBuffers := list Call;
  DrawParameters := unit;
  Vertex := unit;
  isp_full := fun _ => 0;
  decode_pvr_vertices := fun _ _ base _ _ _ _ => (tt, fun _ => tt, base);
  RasterizeTriangle := fun mode _ tag _ _ _ _ _ _ _ b =>
    b ++ [CallRasterizeTriangle mode tag];
  Tile.RenderParamTags := fun mode l t _ _ b => b ++ [CallRenderParamTags mode l t];
  SummarizeStencilOr := fun b => b ++ [CallSummarizeStencilOr];
  SummarizeStencilAnd := fun b => b ++ [CallSummarizeStencilAnd];
  ClearFpuCache := fun b => b ++ [CallClearFpuCache];
  ClearBuffers := fun tag d s b => b ++ [CallClearBuffers tag d s];
  ClearParamStatusBuffer := fun b => b ++ [CallClearParamStatusBuffer];
  PeelBuffersPTInitial := fun d b => b ++ [CallPeelBuffersPTInitial d];
  PeelBuffersPT := fun b => b ++ [CallPeelBuffersPT];
  PeelBuffers := fun d s b => b ++ [CallPeelBuffers d s];
  ClearMoreToDraw := fun b => b ++ [CallClearMoreToDraw];
  GetMoreToDraw := fun _ => false;
  SetTagToMax := fun b => b ++ [CallSetTagToMax];
  GetColorOutputBuffer := fun _ _ => 0
|}.

End Recording.


(** ** Triangle strips and parameter tags *)

Module StripFacts.
Import Word PvrMem PvrRegs RegTypes Tile Lists.

(** Testing [m & (1 << n)] tests bit [n] of [m]. *)
Lemma land_bit_eqb m n :
  0 <= n -> (Z.land m (Z.shiftl 1 n) =? 0) = negb (Z.testbit m n).
Proof.
  intros Hn. change 1 with (Z.ones 1) at 1.
  rewrite land_field by lia. rewrite bits_arith by lia.
  change (2 ^ 1) with 2. rewrite <- Z.testbit_spec' by assumption.
  pose proof (Z.pow_pos_nonneg 2 n ltac:(lia) Hn).
  destruct (Z.testbit m n); cbn [Z.b2z negb].
  - apply Z.eqb_neq. lia.
  - apply Z.eqb_eq. lia.
Qed.

(** A field or-ed in above the low [w] bits leaves them as they are. *)
Lemma bits_low_lor_shiftl a x n w :
  0 <= w <= n -> bits 0 w (Z.lor a (Z.shiftl x n)) = bits 0 w a.
Proof.
  intros Hw. unfold bits. rewrite !Z.shiftr_0_r.
  apply Z.bits_inj'. intros k Hk.
  rewrite !Z.land_spec, Z.lor_spec, Z.shiftl_spec by assumption.
  rewrite Z.testbit_ones_nonneg by lia.
  destruct (Z.ltb_spec k w) as [Hlt | Hge].
  - rewrite (Z.testbit_neg_r x) by lia. now rewrite orb_false_r.
  - now rewrite !andb_false_r.
Qed.

Lemma tag_offset_CoreTagFromDesc cache_bypass shadow skip offs t :
  0 <= t < 8 ->
  tag_offset (CoreTagFromDesc cache_bypass shadow skip offs t) = t.
Proof.
  intros Ht. unfold tag_offset, CoreTagFromDesc.
  rewrite !bits_low_lor_shiftl by lia.
  rewrite !bits_arith by lia.
  change (2 ^ 0) with 1. rewrite !Z.div_1_r.
  rewrite Z.mod_mod by lia. apply Z.mod_small. lia.
Qed.

(** The triangle of position [i], when the strip has it. *)
Definition strip_positions (i : nat) : nat * nat * nat :=
  let parity := Nat.land i 1 in
  (i + parity, i + 1 - parity, i + 2)%nat.

Lemma strip_triangle_cases obj i :
  (i < 6)%nat ->
  strip_triangle obj i =
  if Z.testbit (mask obj) (5 - Z.of_nat i) then [(i, strip_positions i)] else [].
Proof.
  intros Hi. unfold strip_triangle. rewrite land_bit_eqb by lia.
  rewrite negb_involutive.
  destruct (Z.testbit (mask obj) (5 - Z.of_nat i)); [| reflexivity].
  do 6 (destruct i as [| i]; [reflexivity |]). lia.
Qed.

Lemma In_strip_triangles obj i t :
  In (i, t) (strip_triangles obj) <->
  (i < 6)%nat /\ Z.testbit (mask obj) (5 - Z.of_nat i) = true /\
  t = strip_positions i.
Proof.
  unfold strip_triangles. rewrite in_flat_map. split.
  - intros (j & Hj & Hin). apply in_seq in Hj.
    rewrite strip_triangle_cases in Hin by lia.
    destruct (Z.testbit (mask obj) (5 - Z.of_nat j)) eqn:Hbit;
      [| contradiction].
    destruct Hin as [Heq | []]. injection Heq as <- <-.
    repeat split; [lia | assumption].
  - intros (Hi & Hbit & ->). exists i. split; [apply in_seq; lia |].
    rewrite strip_triangle_cases, Hbit by assumption. now left.
Qed.

End StripFacts.


(** ** The RGB565 write-out *)

Module DitherFacts.
Import Word Lists.

Lemma land3_cases x :
  Z.land x 3 = 0 \/ Z.land x 3 = 1 \/ Z.land x 3 = 2 \/ Z.land x 3 = 3.
Proof.
  replace (Z.land x 3) with (x mod 4) by (symmetry; apply (Z.land_ones x 2); lia).
  pose proof (Z.mod_pos_bound x 4 ltac:(lia)). lia.
Qed.

Lemma bayer_range y x : 8 <= bayer y x <= 248.
Proof.
  unfold bayer.
  destruct (land3_cases x) as [-> | [-> | [-> | ->]]];
    destruct (land3_cases y) as [-> | [-> | [-> | ->]]];
    cbv; split; discriminate.
Qed.

Lemma bayer_mod y x :
  bayer y x =
  nth (Z.to_nat (x mod 4)) (nth (Z.to_nat (y mod 4)) bayerBias []) 0.
Proof.
  unfold bayer.
  replace (Z.land x 3) with (x mod 4) by (symmetry; apply (Z.land_ones x 2); lia).
  replace (Z.land y 3) with (y mod 4) by (symmetry; apply (Z.land_ones y 2); lia).
  reflexivity.
Qed.

(** The quotient is in range already: the clamp changes nothing. *)
Lemma quantize_in_range v k T hi :
  0 <= v <= 255 -> 8 <= T <= 248 -> 0 < k -> hi = k ->
  clamp0 hi (Z.quot (v * k + T) 255) = (v * k + T) / 255 /\
  0 <= (v * k + T) / 255 <= hi.
Proof.
  intros Hv HT Hk ->.
  rewrite Z.quot_div_nonneg by lia.
  assert (Hq : 0 <= (v * k + T) / 255 <= k).
  { split; [apply Z.div_pos; lia |].
    apply Z.lt_succ_r. apply Z.div_lt_upper_bound; nia. }
  split; [| exact Hq].
  unfold clamp0.
  destruct (Z.ltb_spec ((v * k + T) / 255) 0); [lia |].
  destruct (Z.gtb_spec ((v * k + T) / 255) k); [lia | reflexivity].
Qed.

Lemma pack565_sum r5 g6 b5 :
  0 <= r5 <= 31 -> 0 <= g6 <= 63 -> 0 <= b5 <= 31 ->
  pack565 (r5, g6, b5) = r5 + g6 * 2 ^ 5 + b5 * 2 ^ 11.
Proof.
  intros Hr Hg Hb. unfold pack565.
  rewrite Z.shiftl_0_r, !Z.shiftl_mul_pow2 by lia.
  rewrite (lor_disjoint_low r5 g6 5) by lia.
  rewrite (lor_disjoint_low _ b5 11) by lia.
  reflexivity.
Qed.

Lemma pack565_fields r5 g6 b5 :
  0 <= r5 <= 31 -> 0 <= g6 <= 63 -> 0 <= b5 <= 31 ->
  red565 (pack565 (r5, g6, b5)) = r5 /\
  green565 (pack565 (r5, g6, b5)) = g6 /\
  blue565 (pack565 (r5, g6, b5)) = b5.
Proof.
  intros Hr Hg Hb. rewrite pack565_sum by assumption.
  unfold red565, green565, blue565. rewrite !bits_arith by lia.
  change (2 ^ 0) with 1. change (2 ^ 5) with 32. change (2 ^ 6) with 64.
  change (2 ^ 11) with 2048.
  repeat split; Z.to_euclidean_division_equations; lia.
Qed.

End DitherFacts.


(** ** What the passes of a tile leave behind *)

Module PassFacts.
Import Word PvrMem PvrRegs RegTypes Tile Lists.

Definition is_tags (e : Event) : Prop :=
  match e with
  | EvParamTags _ _ _ => True
  | _ => False
  end.

Section Walker.
Context {B : Backend}.
Variable emu_regs : RegFile.

(** From [c] to [c'] the video memory was left alone and the only events
    are tag resolutions. *)
Definition shaded (c c' : Core) : Prop :=
  vram c' = vram c /\
  exists l, trace c' = trace c ++ l /\ Forall is_tags l.

(** A pass only shades, as far as it has come; no pass fails an
    assertion. *)
Definition pass_ok (c : Core) (o : Outcome Core) : Prop :=
  match o with
  | Done c' | OutOfFuel c' => shaded c c'
  | AssertFailed _ => False
  end.

Lemma shaded_refl c : shaded c c.
Proof.
  split; [reflexivity |]. exists []. split; [now rewrite app_nil_r | constructor].
Qed.

Lemma shaded_trans c1 c2 c3 : shaded c1 c2 -> shaded c2 c3 -> shaded c1 c3.
Proof.
  intros [Hv1 (l1 & Ht1 & Hl1)] [Hv2 (l2 & Ht2 & Hl2)].
  split; [congruence |].
  exists (l1 ++ l2). split; [now rewrite Ht2, Ht1, app_assoc |].
  apply Forall_app. now split.
Qed.

Lemma shaded_on_tile f c : shaded c (on_tile f c).
Proof.
  split; [reflexivity |].
  exists []. split; [cbn [on_tile trace]; now rewrite app_nil_r | constructor].
Qed.

Lemma shaded_RenderParamTags mode l t c :
  shaded c (RenderParamTags emu_regs mode l t c).
Proof.
  split; [reflexivity |].
  exists [EvParamTags mode l t]. split; [reflexivity |].
  constructor; [exact I | constructor].
Qed.

Lemma shaded_step c f g : shaded c (f c) -> (forall x, shaded x (g x)) ->
  shaded c (g (f c)).
Proof. intros Hf Hg. eapply shaded_trans; [exact Hf | apply Hg]. Qed.

Lemma shaded_RenderTriangle mode params tag v1 v2 v3 v4 area c :
  shaded c (RenderTriangle emu_regs mode params tag v1 v2 v3 v4 area c).
Proof.
  unfold RenderTriangle. cbv zeta.
  set (c1 := on_tile _ c).
  assert (H1 : shaded c c1) by apply shaded_on_tile.
  set (c2 := if RenderMode_eqb mode RM_TRANSLUCENT_PRESORT then _ else c1).
  assert (H2 : shaded c c2).
  { subst c2. destruct (RenderMode_eqb mode RM_TRANSLUCENT_PRESORT);
      [| exact H1].
    eapply shaded_trans; [exact H1 | apply shaded_RenderParamTags]. }
  destruct (RenderMode_eqb mode RM_MODIFIER); [| exact H2].
  destruct (bits 29 3 (isp_full params) =? 1);
    [eapply shaded_trans; [exact H2 | apply shaded_on_tile] |].
  destruct (bits 29 3 (isp_full params) =? 2);
    [eapply shaded_trans; [exact H2 | apply shaded_on_tile] | exact H2].
Qed.

Lemma shaded_fold {A : Type} (f : Core -> A -> Core) (l : list A) :
  (forall c a, shaded c (f c a)) -> forall c, shaded c (fold_left f l c).
Proof.
  intros Hf. induction l as [| a l IH]; intros c; cbn [fold_left].
  - apply shaded_refl.
  - eapply shaded_trans; [apply Hf | apply IH].
Qed.

Lemma shaded_RenderTriangleStrip mode obj rect c :
  shaded c (RenderTriangleStrip emu_regs mode obj rect c).
Proof.
  unfold RenderTriangleStrip. cbv zeta.
  destruct (decode_pvr_vertices _ _ _ _ _ _ _) as [[params vtx] p].
  apply shaded_fold. intros c0 [i [[a b] d]]. apply shaded_RenderTriangle.
Qed.

Lemma shaded_triangle_array_loop n mode obj rect pb : forall pp c,
  shaded c (triangle_array_loop emu_regs n mode obj rect pb pp c).
Proof.
  induction n as [| n IH]; intros pp c; cbn [triangle_array_loop].
  - apply shaded_refl.
  - cbv zeta.
    destruct (decode_pvr_vertices _ _ _ _ _ _ _) as [[params vtx] p].
    eapply shaded_trans; [apply shaded_RenderTriangle | apply IH].
Qed.

Lemma shaded_quad_array_loop n mode obj rect pb : forall pp c,
  shaded c (quad_array_loop emu_regs n mode obj rect pb pp c).
Proof.
  induction n as [| n IH]; intros pp c; cbn [quad_array_loop].
  - apply shaded_refl.
  - cbv zeta.
    destruct (decode_pvr_vertices _ _ _ _ _ _ _) as [[params vtx] p].
    eapply shaded_trans; [apply shaded_RenderTriangle | apply IH].
Qed.

Lemma pass_ok_at c c0 o : pass_ok c0 o -> shaded c c0 -> pass_ok c o.
Proof.
  intros Ho H. destruct o as [c' | c' | c']; cbn [pass_ok] in *; auto;
    eapply shaded_trans; eassumption.
Qed.

Lemma pass_ok_bind_at c c0 o k :
  pass_ok c0 o -> shaded c c0 -> (forall c1, pass_ok c1 (k c1)) ->
  pass_ok c (bind o k).
Proof.
  intros Ho H Hk. destruct o as [c1 | c1 | c1]; cbn [bind pass_ok] in *; auto.
  - eapply pass_ok_at; [apply Hk |]. eapply shaded_trans; eassumption.
  - eapply shaded_trans; eassumption.
Qed.

(** The calls of the tile back end and the tag resolutions between two
    states of a pass. *)
Ltac shade :=
  repeat first
    [ apply shaded_refl
    | eapply shaded_trans; [| apply shaded_RenderParamTags]
    | eapply shaded_trans; [| apply shaded_on_tile] ].

Lemma pass_ok_RenderObjectList fuel : forall mode base rect c,
  pass_ok c (RenderObjectList emu_regs fuel mode base rect c).
Proof.
  induction fuel as [| fuel IH]; intros mode base rect c;
    cbn [RenderObjectList]; [apply shaded_refl |].
  cbv zeta.
  destruct (is_not_triangle_strip _ =? 0).
  { eapply pass_ok_at; [apply IH | apply shaded_RenderTriangleStrip]. }
  destruct (obj_type _ =? 7).
  { destruct (negb _); [apply shaded_refl | apply IH]. }
  destruct (obj_type _ =? 4).
  { eapply pass_ok_at; [apply IH |].
    unfold RenderTriangleArray. apply shaded_triangle_array_loop. }
  destruct (obj_type _ =? 5).
  { eapply pass_ok_at; [apply IH |].
    unfold RenderQuadArray. apply shaded_quad_array_loop. }
  apply IH.
Qed.

Lemma pass_ok_punchthrough_loop fuel entry rect : forall c,
  pass_ok c (punchthrough_loop emu_regs fuel entry rect c).
Proof.
  induction fuel as [| fuel IH]; intros c; cbn [punchthrough_loop]; [apply shaded_refl |].
  cbv zeta.
  destruct (GetMoreToDraw (tile c)); [| apply shaded_refl].
  eapply pass_ok_bind_at; [apply pass_ok_RenderObjectList | shade | intros c1].
  destruct (negb _); [apply shaded_refl |].
  eapply pass_ok_at; [apply IH | shade].
Qed.

Lemma pass_ok_punchthrough_pass fuel entry rect c :
  pass_ok c (punchthrough_pass emu_regs fuel entry rect c).
Proof.
  unfold punchthrough_pass. cbv zeta.
  eapply pass_ok_bind_at; [apply pass_ok_RenderObjectList | shade | intros c1].
  eapply pass_ok_bind_at; [apply pass_ok_punchthrough_loop | shade | intros c2].
  destruct (empty _ =? 0); [| apply shaded_refl].
  eapply pass_ok_bind_at; [apply pass_ok_RenderObjectList | shade | intros c3].
  cbn [pass_ok]. shade.
Qed.

Lemma pass_ok_autosort_loop fuel entry rect : forall c,
  pass_ok c (autosort_loop emu_regs fuel entry rect c).
Proof.
  induction fuel as [| fuel IH]; intros c; cbn [autosort_loop]; [apply shaded_refl |].
  cbv zeta.
  eapply pass_ok_bind_at; [apply pass_ok_RenderObjectList | shade | intros c1].
  eapply pass_ok_bind_at; [| apply shaded_refl | intros c2].
  { destruct (empty _ =? 0);
      [apply pass_ok_RenderObjectList | apply shaded_refl]. }
  destruct (GetMoreToDraw _).
  - eapply pass_ok_at; [apply IH | shade].
  - cbn [pass_ok]. shade.
Qed.

Lemma pass_ok_translucent_pass fuel entry rect c :
  pass_ok c (translucent_pass emu_regs fuel entry rect c).
Proof.
  unfold translucent_pass.
  destruct (negb _).
  - eapply pass_ok_at; [apply pass_ok_RenderObjectList | shade].
  - eapply pass_ok_at; [apply pass_ok_autosort_loop | shade].
Qed.

End Walker.

Ltac shade :=
  repeat first
    [ apply shaded_refl
    | eapply shaded_trans; [| apply shaded_RenderParamTags]
    | eapply shaded_trans; [| apply shaded_on_tile] ].

End PassFacts.


(** ** The write-out and the tile as a whole *)

Module TileFacts.
Import Word PvrMem PvrRegs RegTypes Tile Lists PassFacts.

(** A store is aligned to its size. *)
Definition aligned_store (e : Event) : Prop :=
  match e with
  | EvParamTags _ _ _ => True
  | EvWrite16 a _ => a mod 2 = 0
  | EvWrite32 a _ => a mod 4 = 0
  end.

Lemma is_tags_aligned l : Forall is_tags l -> Forall aligned_store l.
Proof.
  apply Forall_impl. intros [m x y | a d | a d]; cbn; tauto.
Qed.

Lemma u32_mod_2 z : u32 z mod 2 = z mod 2.
Proof.
  unfold u32. change (2 ^ 32) with 4294967296.
  Z.to_euclidean_division_equations. lia.
Qed.

Lemma u32_mod_4 z : u32 z mod 4 = z mod 4.
Proof.
  unfold u32. change (2 ^ 32) with 4294967296.
  Z.to_euclidean_division_equations. lia.
Qed.

Section Walker.
Context {B : Backend}.
Variable emu_regs : RegFile.

(** The configurations the write-out asserts. *)
Definition config_supported : bool :=
  (hscale emu_regs =? 0) && (interlace emu_regs =? 0) &&
  ((vscalefactor emu_regs =? 0x401) || (vscalefactor emu_regs =? 0x400) ||
   (vscalefactor emu_regs =? 0x800)) &&
  ((fb_packmode emu_regs =? 0x1) || (fb_packmode emu_regs =? 0x6)).

Lemma config_supported_false :
  config_supported = false <->
  hscale emu_regs <> 0 \/ interlace emu_regs <> 0 \/
  (vscalefactor emu_regs <> 0x401 /\ vscalefactor emu_regs <> 0x400 /\
   vscalefactor emu_regs <> 0x800) \/
  (fb_packmode emu_regs <> 0x1 /\ fb_packmode emu_regs <> 0x6).
Proof.
  unfold config_supported.
  destruct (Z.eqb_spec (hscale emu_regs) 0);
    destruct (Z.eqb_spec (interlace emu_regs) 0);
    destruct (Z.eqb_spec (vscalefactor emu_regs) 0x401);
    destruct (Z.eqb_spec (vscalefactor emu_regs) 0x400);
    destruct (Z.eqb_spec (vscalefactor emu_regs) 0x800);
    destruct (Z.eqb_spec (fb_packmode emu_regs) 0x1);
    destruct (Z.eqb_spec (fb_packmode emu_regs) 0x6);
    cbn [andb orb]; split; intros H; try discriminate; try reflexivity;
    try tauto.
Qed.

(** [bpp] of the write-out. *)
Definition pixel_bytes : Z := if fb_packmode emu_regs =? 0x1 then 2 else 4.

Lemma write_out_cases entry c :
  write_out emu_regs entry c =
  if config_supported then
    Done (write_lines emu_regs 32 (fb_packmode emu_regs) pixel_bytes
            (FB_W_SOF1 emu_regs)
            (tilex (control entry) * 32 * pixel_bytes +
             tiley (control entry) * 32 * stride emu_regs * 8) 0 0 c)
  else AssertFailed c.
Proof.
  unfold write_out, assert, config_supported, pixel_bytes. cbv zeta.
  destruct (hscale emu_regs =? 0); [| reflexivity].
  destruct (interlace emu_regs =? 0); [| reflexivity].
  cbn [negb andb].
  destruct ((vscalefactor emu_regs =? 0x401) || (vscalefactor emu_regs =? 0x400) ||
            (vscalefactor emu_regs =? 0x800)); [| reflexivity].
  cbn [andb].
  destruct ((fb_packmode emu_regs =? 0x1) || (fb_packmode emu_regs =? 0x6));
    reflexivity.
Qed.

(** From [c] to [c'] aligned stores were made, and nothing else. *)
Definition stored (c c' : Core) : Prop :=
  exists l, trace c' = trace c ++ l /\ Forall aligned_store l.

Lemma stored_refl c : stored c c.
Proof. exists []. split; [now rewrite app_nil_r | constructor]. Qed.

Lemma stored_trans c1 c2 c3 : stored c1 c2 -> stored c2 c3 -> stored c1 c3.
Proof.
  intros (l1 & Ht1 & Hl1) (l2 & Ht2 & Hl2).
  exists (l1 ++ l2). split; [now rewrite Ht2, Ht1, app_assoc |].
  apply Forall_app. now split.
Qed.

Lemma shaded_stored c c' : shaded c c' -> stored c c'.
Proof.
  intros [_ (l & Ht & Hl)]. exists l. split; [exact Ht |].
  now apply is_tags_aligned.
Qed.

Lemma stored_write_pixel x y src dst c :
  dst mod pixel_bytes = 0 ->
  stored c (write_pixel (fb_packmode emu_regs) x y src dst c).
Proof.
  unfold pixel_bytes, write_pixel. cbv zeta. intros Hd.
  destruct (fb_packmode emu_regs =? 1).
  - eexists. split; [reflexivity |]. constructor; [exact Hd | constructor].
  - eexists. split; [reflexivity |]. constructor; [exact Hd | constructor].
Qed.

Lemma next_pixel_aligned dst :
  dst mod pixel_bytes = 0 -> u32 (dst + pixel_bytes) mod pixel_bytes = 0.
Proof.
  unfold pixel_bytes. destruct (fb_packmode emu_regs =? 1); intros Hd.
  - rewrite u32_mod_2. Z.to_euclidean_division_equations. lia.
  - rewrite u32_mod_4. Z.to_euclidean_division_equations. lia.
Qed.

Lemma stored_write_line n y : forall x src dst c,
  dst mod pixel_bytes = 0 ->
  stored c (fst (write_line n (fb_packmode emu_regs) pixel_bytes x y src dst c)).
Proof.
  induction n as [| n IH]; intros x src dst c Hd; cbn [write_line fst].
  - apply stored_refl.
  - cbv zeta. eapply stored_trans; [apply stored_write_pixel; exact Hd |].
    apply IH. now apply next_pixel_aligned.
Qed.

Lemma line_start_aligned base offs y :
  base mod pixel_bytes = 0 ->
  u32 (base + (tilex offs * 32 * pixel_bytes + tiley offs * 32 * stride emu_regs * 8)
       + y * stride emu_regs * 8) mod pixel_bytes = 0.
Proof.
  unfold pixel_bytes. destruct (fb_packmode emu_regs =? 1); intros Hb.
  - rewrite u32_mod_2. Z.to_euclidean_division_equations. lia.
  - rewrite u32_mod_4. Z.to_euclidean_division_equations. lia.
Qed.

Lemma stored_write_lines n base offs : forall y src c,
  base mod pixel_bytes = 0 ->
  stored c (write_lines emu_regs n (fb_packmode emu_regs) pixel_bytes base
              (tilex offs * 32 * pixel_bytes + tiley offs * 32 * stride emu_regs * 8)
              y src c).
Proof.
  induction n as [| n IH]; intros y src c Hb; cbn [write_lines].
  - apply stored_refl.
  - cbv zeta.
    pose proof (stored_write_line 32 y 0 src
                  (u32 (base + (tilex offs * 32 * pixel_bytes +
                                tiley offs * 32 * stride emu_regs * 8)
                        + y * stride emu_regs * 8)) c
                  (line_start_aligned base offs y Hb)) as Hline.
    destruct (write_line 32 _ _ 0 y src _ c) as [c1 src1].
    cbn [fst] in Hline.
    eapply stored_trans; [exact Hline | now apply IH].
Qed.

(** The tag resolution of the opaque pass of the tile of an entry. *)
Definition opaque_resolution (entry : RegionArrayEntry) : Event :=
  EvParamTags RM_OPAQUE (tilex (control entry) * 32) (tiley (control entry) * 32).

(** The passes of a tile before its write-out, by what they leave: [c1] is
    the state the write-out starts in. *)
Definition passes_done (entry : RegionArrayEntry) (c c1 : Core) : Prop :=
  vram c1 = vram c /\
  exists pre post,
    trace c1 = trace c ++ pre ++ opaque_resolution entry :: post /\
    Forall is_tags pre /\ Forall is_tags post /\
    (empty (opaque entry) <> 0 -> pre = []).

Lemma RenderTile_cases fuel entry c :
  match RenderTile emu_regs fuel entry c with
  | Done c' =>
      exists c1, passes_done entry c c1 /\
        if no_writeout (control entry) =? 0
        then write_out emu_regs entry c1 = Done c'
        else c' = c1
  | AssertFailed c' =>
      passes_done entry c c' /\
      no_writeout (control entry) = 0 /\
      write_out emu_regs entry c' = AssertFailed c'
  | OutOfFuel c' =>
      (empty (opaque entry) = 0 /\ shaded c c') \/ passes_done entry c c'
  end.
Proof.
  unfold RenderTile. cbv zeta.
  assert (H0 : shaded c (tile_clear emu_regs entry c) /\
               trace (tile_clear emu_regs entry c) = trace c).
  { unfold tile_clear. cbv zeta.
    destruct (z_keep (control entry) =? 0); (split; [shade | reflexivity]). }
  destruct H0 as [Hs0 Ht0].
  set (c0 := tile_clear emu_regs entry c) in *.
  assert (HA : pass_ok c0 (opaque_lists emu_regs fuel entry (tile_rect entry) c0) /\
               (empty (opaque entry) <> 0 ->
                opaque_lists emu_regs fuel entry (tile_rect entry) c0 = Done c0)).
  { unfold opaque_lists. destruct (Z.eqb_spec (empty (opaque entry)) 0) as [He | He].
    - split; [| intros Hn; contradiction].
      eapply pass_ok_bind_at;
        [apply pass_ok_RenderObjectList | apply shaded_refl | intros c1].
      destruct (empty (opaque_mod entry) =? 0);
        [apply pass_ok_RenderObjectList | apply shaded_refl].
    - split; [apply shaded_refl | reflexivity]. }
  destruct HA as [HA HAe].
  destruct (opaque_lists emu_regs fuel entry (tile_rect entry) c0)
    as [cA | cA | cA] eqn:HoA; cbn [bind pass_ok] in *; [| contradiction |].
  2:{ left. split; [| eapply shaded_trans; eassumption].
      destruct (Z.eq_dec (empty (opaque entry)) 0) as [He | He];
        [exact He | specialize (HAe He); discriminate]. }
  destruct HA as [HvA (pre & HtA & Hpre)].
  set (cB := RenderParamTags emu_regs RM_OPAQUE _ _ cA).
  assert (HtB : trace cB = trace c ++ pre ++ [opaque_resolution entry]).
  { subst cB. unfold RenderParamTags, emit, on_tile. cbn [trace].
    rewrite HtA, Ht0, <- app_assoc. reflexivity. }
  assert (HvB : vram cB = vram c).
  { destruct Hs0 as [Hv0 _]. subst cB. cbn. congruence. }
  assert (Hpre0 : empty (opaque entry) <> 0 -> pre = []).
  { intros Hn. specialize (HAe Hn). injection HAe as Heq.
    rewrite Heq in HtA.
    rewrite <- (app_nil_r (trace c0)) in HtA at 1.
    apply app_inv_head in HtA. now symmetry. }
  assert (Hfrom : forall cX, shaded cB cX -> passes_done entry c cX).
  { intros cX [HvX (post & HtX & Hpost)].
    split; [congruence |].
    exists pre, post. repeat split; try assumption.
    rewrite HtX, HtB, <- !app_assoc. reflexivity. }
  assert (HB : pass_ok cB
            (if empty (puncht entry) =? 0
             then punchthrough_pass emu_regs fuel entry (tile_rect entry) cB
             else Done cB)).
  { destruct (empty (puncht entry) =? 0);
      [apply pass_ok_punchthrough_pass | apply shaded_refl]. }
  destruct (if empty (puncht entry) =? 0 then _ else Done cB)
    as [cP | cP | cP]; cbn [bind pass_ok] in *;
    [| contradiction | right; now apply Hfrom].
  assert (HC : pass_ok cP
            (if empty (trans entry) =? 0
             then translucent_pass emu_regs fuel entry (tile_rect entry) cP
             else Done cP)).
  { destruct (empty (trans entry) =? 0);
      [apply pass_ok_translucent_pass | apply shaded_refl]. }
  destruct (if empty (trans entry) =? 0 then _ else Done cP)
    as [cT | cT | cT]; cbn [bind pass_ok] in *;
    [| contradiction
     | right; apply Hfrom; eapply shaded_trans; eassumption].
  assert (Hdone : passes_done entry c cT)
    by (apply Hfrom; eapply shaded_trans; eassumption).
  destruct (Z.eqb_spec (no_writeout (control entry)) 0) as [Hw | Hw].
  - pose proof (write_out_cases entry cT) as Hout.
    destruct config_supported; rewrite Hout.
    + exists cT. split; [exact Hdone | exact Hout].
    + split; [exact Hdone |]. split; [exact Hw | exact Hout].
  - exists cT. split; [exact Hdone | reflexivity].
Qed.

(** The write-out only adds events. *)
Definition grows (c c' : Core) : Prop := exists l, trace c' = trace c ++ l.

Lemma grows_trans c1 c2 c3 : grows c1 c2 -> grows c2 c3 -> grows c1 c3.
Proof.
  intros [l1 H1] [l2 H2]. exists (l1 ++ l2). now rewrite H2, H1, app_assoc.
Qed.

Lemma grows_write_line n pm bpp y : forall x src dst c,
  grows c (fst (write_line n pm bpp x y src dst c)).
Proof.
  induction n as [| n IH]; intros x src dst c; cbn [write_line fst].
  - exists []. now rewrite app_nil_r.
  - cbv zeta. eapply grows_trans; [| apply IH].
    unfold write_pixel. cbv zeta.
    destruct (pm =? 1); eexists; reflexivity.
Qed.

Lemma grows_write_lines n pm bpp base offs : forall y src c,
  grows c (write_lines emu_regs n pm bpp base offs y src c).
Proof.
  induction n as [| n IH]; intros y src c; cbn [write_lines].
  - exists []. now rewrite app_nil_r.
  - cbv zeta.
    pose proof (grows_write_line 32 pm bpp y 0 src
                  (u32 (base + offs + y * stride emu_regs * 8)) c) as Hline.
    destruct (write_line 32 pm bpp 0 y src _ c) as [c1 src1].
    cbn [fst] in Hline. eapply grows_trans; [exact Hline | apply IH].
Qed.

Lemma grows_write_out entry c c' :
  write_out emu_regs entry c = Done c' -> grows c c'.
Proof.
  rewrite write_out_cases. destruct config_supported; [| discriminate].
  intros H. apply Done_inj in H. subst c'. apply grows_write_lines.
Qed.

Lemma passes_done_stored entry c c1 : passes_done entry c c1 -> stored c c1.
Proof.
  intros [_ (pre & post & Ht & Hpre & Hpost & _)].
  exists (pre ++ opaque_resolution entry :: post). split; [exact Ht |].
  apply is_tags_aligned. apply Forall_app. split; [exact Hpre |].
  constructor; [exact I | exact Hpost].
Qed.

(** With an aligned frame buffer every store of a tile is aligned, as far
    as the tile has come. *)
Lemma RenderTile_stored fuel entry c :
  FB_W_SOF1 emu_regs mod pixel_bytes = 0 ->
  stored c (state_of (RenderTile emu_regs fuel entry c)).
Proof.
  intros Hsof. pose proof (RenderTile_cases fuel entry c) as Hc.
  destruct (RenderTile emu_regs fuel entry c) as [c' | c' | c'];
    cbn [state_of].
  - destruct Hc as (c1 & Hdone & Hout).
    apply passes_done_stored in Hdone.
    destruct (no_writeout (control entry) =? 0); [| now subst c'].
    eapply stored_trans; [exact Hdone |].
    rewrite write_out_cases in Hout.
    destruct config_supported; [| discriminate].
    apply Done_inj in Hout. subst c'. now apply stored_write_lines.
  - destruct Hc as (Hdone & _). now apply passes_done_stored in Hdone.
  - destruct Hc as [[_ Hs] | Hdone];
      [now apply shaded_stored | now apply passes_done_stored in Hdone].
Qed.

Lemma RenderCORE_loop_stored fuel : forall base c,
  FB_W_SOF1 emu_regs mod pixel_bytes = 0 ->
  stored c (state_of (RenderCORE_loop emu_regs fuel base c)).
Proof.
  induction fuel as [| fuel IH]; intros base c Hsof;
    cbn [RenderCORE_loop]; [apply stored_refl |].
  destruct (ReadRegionArrayEntry emu_regs (vram c) base) as [entry step].
  pose proof (RenderTile_stored fuel entry c Hsof) as H1.
  destruct (RenderTile emu_regs fuel entry c) as [c1 | c1 | c1];
    cbn [bind state_of] in *; try exact H1.
  destruct (last_region (control entry) =? 0); [| exact H1].
  eapply stored_trans; [exact H1 | now apply IH].
Qed.

(** Only the write-out fails an assertion, and only on a configuration it
    does not support. *)
Lemma RenderCORE_loop_assert fuel : forall base c c',
  RenderCORE_loop emu_regs fuel base c = AssertFailed c' ->
  config_supported = false.
Proof.
  induction fuel as [| fuel IH]; intros base c c' Hrun;
    cbn [RenderCORE_loop] in Hrun; [discriminate |].
  destruct (ReadRegionArrayEntry emu_regs (vram c) base) as [entry step].
  pose proof (RenderTile_cases fuel entry c) as Hc.
  destruct (RenderTile emu_regs fuel entry c) as [c1 | c1 | c1];
    cbn [bind] in Hrun; try discriminate.
  - destruct (last_region (control entry) =? 0); [| discriminate].
    eapply IH; eassumption.
  - destruct Hc as (_ & _ & Hout). rewrite write_out_cases in Hout.
    destruct config_supported; [discriminate | reflexivity].
Qed.

(** On an unsupported configuration a tile that is written out does not
    come to its end: its passes over, the assertion fails, the video
    memory being as it was. *)
Lemma RenderTile_unsupported fuel entry c :
  config_supported = false -> no_writeout (control entry) = 0 ->
  ended (RenderTile emu_regs fuel entry c) = true ->
  exists c', RenderTile emu_regs fuel entry c = AssertFailed c' /\
             vram c' = vram c.
Proof.
  intros Hcfg Hw Hend. pose proof (RenderTile_cases fuel entry c) as Hc.
  destruct (RenderTile emu_regs fuel entry c) as [c' | c' | c'];
    cbn [ended] in Hend; try discriminate.
  - destruct Hc as (c1 & _ & Hout). rewrite Hw in Hout. cbn [Z.eqb] in Hout.
    rewrite write_out_cases, Hcfg in Hout. discriminate.
  - destruct Hc as ([Hv _] & _). now exists c'.
Qed.

Lemma RenderTile_unsupported_vram fuel entry c :
  config_supported = false ->
  vram (state_of (RenderTile emu_regs fuel entry c)) = vram c.
Proof.
  intros Hcfg. pose proof (RenderTile_cases fuel entry c) as Hc.
  destruct (RenderTile emu_regs fuel entry c) as [c' | c' | c'];
    cbn [state_of].
  - destruct Hc as (c1 & [Hv _] & Hout).
    destruct (no_writeout (control entry) =? 0); [| now subst c'].
    rewrite write_out_cases, Hcfg in Hout. discriminate.
  - destruct Hc as ([Hv _] & _). exact Hv.
  - destruct Hc as [[_ [Hv _]] | [Hv _]]; exact Hv.
Qed.

(** On an unsupported configuration a frame writes nothing, however far it
    comes. *)
Lemma RenderCORE_loop_unsupported fuel : forall base c,
  config_supported = false ->
  vram (state_of (RenderCORE_loop emu_regs fuel base c)) = vram c.
Proof.
  induction fuel as [| fuel IH]; intros base c Hcfg;
    cbn [RenderCORE_loop]; [reflexivity |].
  destruct (ReadRegionArrayEntry emu_regs (vram c) base) as [entry step].
  pose proof (RenderTile_unsupported_vram fuel entry c Hcfg) as H1.
  destruct (RenderTile emu_regs fuel entry c) as [c1 | c1 | c1];
    cbn [bind state_of] in *; try exact H1.
  destruct (last_region (control entry) =? 0); [| exact H1].
  rewrite IH by assumption. exact H1.
Qed.

End Walker.

(** The bytes of a store all lie in the 8 MiB array. *)
Definition store_inside (e : Event) : Prop :=
  match e with
  | EvParamTags _ _ _ => True
  | EvWrite16 a _ => Forall in_vram (write16_footprint a)
  | EvWrite32 a _ => Forall in_vram (write32_footprint a)
  end.

Lemma aligned_store_inside e : aligned_store e -> store_inside e.
Proof.
  destruct e as [m x y | a d | a d]; cbn [aligned_store store_inside];
    [tauto | |]; intros Ha.
  - unfold write16_footprint, store_footprint, in_vram, VRAM_SIZE.
    cbn [seq map]. rewrite pvr_map32_arith.
    pose proof (Z.mod_pos_bound (a / 2 ^ 22) 2 ltac:(lia)).
    pose proof (Z.mod_pos_bound (a / 4) (2 ^ 20) ltac:(lia)).
    assert (a mod 4 = 0 \/ a mod 4 = 2)
      by (Z.to_euclidean_division_equations; lia).
    repeat constructor; cbn [Z.of_nat]; lia.
  - unfold write32_footprint, store_footprint, in_vram, VRAM_SIZE.
    cbn [seq map]. rewrite pvr_map32_arith. rewrite Ha.
    pose proof (Z.mod_pos_bound (a / 2 ^ 22) 2 ltac:(lia)).
    pose proof (Z.mod_pos_bound (a / 4) (2 ^ 20) ltac:(lia)).
    repeat constructor; cbn [Z.of_nat Pos.of_succ_nat Pos.succ]; lia.
Qed.

(** [pvr_map32] looks at the address bits 0 to 22 only. *)
Lemma pvr_map32_masked addr :
  pvr_map32 (Z.land addr VRAM_MASK) = pvr_map32 addr.
Proof.
  change VRAM_MASK with (Z.ones 23). rewrite Z.land_ones by lia.
  rewrite !pvr_map32_arith.
  change (2 ^ 23) with 8388608. change (2 ^ 22) with 4194304.
  change (2 ^ 20) with 1048576.
  Z.to_euclidean_division_equations. lia.
Qed.

End TileFacts.


(** ** Truncation in the bump-map tables *)

Module BumpFacts.
Import BumpTables.
Local Open Scope R_scope.

Lemma Int_part_nonneg r : 0 <= r -> (0 <= Int_part r)%Z.
Proof.
  intros Hr. destruct (base_Int_part r) as [_ Hgt].
  assert (H : IZR (-1) < IZR (Int_part r)) by (change (IZR (-1)) with (-1); lra).
  apply lt_IZR in H. lia.
Qed.

Lemma float_to_int_truncated r : truncated r (float_to_int r).
Proof.
  unfold truncated, float_to_int.
  destruct (Rle_dec 0 r) as [Hr | Hr].
  - destruct (base_Int_part r) as [Hle Hgt].
    pose proof (IZR_le _ _ (Int_part_nonneg r Hr)) as Hz.
    rewrite !Rabs_pos_eq by assumption.
    split; [lra | nra].
  - assert (Hn : 0 <= - r) by lra.
    destruct (base_Int_part (- r)) as [Hle Hgt].
    pose proof (IZR_le _ _ (Int_part_nonneg (- r) Hn)) as Hz.
    rewrite opp_IZR, Rabs_Ropp.
    rewrite (Rabs_pos_eq (IZR _)) by assumption.
    rewrite Rabs_left by lra.
    split; [lra | nra].
Qed.

Lemma float_to_int_126 r : 126 <= r < 127 -> float_to_int r = 126%Z.
Proof.
  intros Hr. unfold float_to_int.
  destruct (Rle_dec 0 r) as [_ | Hn]; [| lra].
  symmetry. apply Int_part_spec. lra.
Qed.

Lemma round_127 r : 126 + / 2 <= r < 127 + / 2 -> round r = 127%Z.
Proof.
  intros Hr. unfold round. symmetry. apply Int_part_spec. lra.
Qed.

Lemma cos_small_bounds a :
  0 <= a <= 1 ->
  1 - a * a / 2 <= cos a <= 1 - a * a / 2 + a * a * a * a / 24.
Proof.
  intros Ha. pose proof PI2_1 as Hpi.
  destruct (cos_bound a 0) as [Hlb Hub]; [lra | lra |].
  unfold cos_approx, cos_term in *.
  cbn [sum_f_R0 Nat.mul Nat.add fact pow INR] in *.
  split; lra.
Qed.

(** Just below 127: the cosine of a small angle, scaled. *)
Lemma scaled_cos_below_127 x :
  3 / 512 <= x <= / 32 ->
  126 + 9 / 10 <= 127 * cos x <= 127 - 2 / 1000.
Proof.
  intros Hx.
  destruct (cos_small_bounds x ltac:(lra)) as [Hlb Hub].
  assert (H2lo : 9 / 262144 <= x * x) by nra.
  assert (H2hi : x * x <= / 1024) by nra.
  assert (H4 : x * x * x * x <= x * x / 1024) by nra.
  split; lra.
Qed.

Lemma PI_bounds : 3 < PI <= 4.
Proof. pose proof PI2_3_2. pose proof PI_4. lra. Qed.

Lemma exact_sin90_255 : 126 + 9 / 10 <= exact_sin90 255 <= 127 - 2 / 1000.
Proof.
  unfold exact_sin90, angle90.
  replace (255 / 256 * (PI / 2)) with (PI / 2 - PI / 512) by lra.
  rewrite sin_shift. apply scaled_cos_below_127.
  pose proof PI_bounds. lra.
Qed.

Lemma exact_cos90_1 : 126 + 9 / 10 <= exact_cos90 1 <= 127 - 2 / 1000.
Proof.
  unfold exact_cos90, angle90.
  replace (1 / 256 * (PI / 2)) with (PI / 512) by lra.
  apply scaled_cos_below_127. pose proof PI_bounds. lra.
Qed.

Lemma exact_cos360_1 : 126 + 9 / 10 <= exact_cos360 1 <= 127 - 2 / 1000.
Proof.
  unfold exact_cos360, angle360.
  replace (1 / 256 * (2 * PI)) with (PI / 128) by lra.
  apply scaled_cos_below_127. pose proof PI_bounds. lra.
Qed.

(** An accurate product that is exactly between 126.9 and 126.998 is
    stored as 126. *)
Lemma accurate_126 product exact i :
  accurate product exact -> (0 <= i < 256)%Z ->
  126 + 9 / 10 <= exact i <= 127 - 2 / 1000 ->
  float_to_int (product i) = 126%Z /\ round (exact i) = 127%Z.
Proof.
  intros Hacc Hi Hex. specialize (Hacc i Hi).
  pose proof (Rle_abs (product i - exact i)) as Hup.
  pose proof (Rle_abs (- (product i - exact i))) as Hlo.
  rewrite Rabs_Ropp in Hlo.
  split; [apply float_to_int_126 | apply round_127]; lra.
Qed.

Lemma accurate_exact exact : accurate exact exact.
Proof.
  intros i _. rewrite Rminus_diag, Rabs_R0. lra.
Qed.

End BumpFacts.

(** ** Reading back what was written to the video memory *)

Module MemFacts.
Import Word PvrMem.

Lemma pvr_map32_unmap i :
  0 <= i < VRAM_SIZE ->
  0 <= Fixtures.pvr_unmap32 i < VRAM_SIZE /\
  pvr_map32 (Fixtures.pvr_unmap32 i) = i.
Proof.
  intros Hi. unfold Fixtures.pvr_unmap32. rewrite pvr_map32_arith.
  unfold VRAM_SIZE in *.
  change (2 ^ 22) with 4194304. change (2 ^ 20) with 1048576.
  Z.to_euclidean_division_equations. lia.
Qed.

Lemma pvr_map32_inj o o' :
  0 <= o < VRAM_SIZE -> 0 <= o' < VRAM_SIZE ->
  pvr_map32 o = pvr_map32 o' -> o = o'.
Proof.
  intros Ho Ho'. rewrite !pvr_map32_arith. unfold VRAM_SIZE in *.
  change (2 ^ 22) with 4194304. change (2 ^ 20) with 1048576.
  Z.to_euclidean_division_equations. lia.
Qed.

Lemma pvr_map32_congr a b :
  a mod VRAM_SIZE = b mod VRAM_SIZE -> pvr_map32 a = pvr_map32 b.
Proof.
  intros Hne. rewrite !pvr_map32_arith. unfold VRAM_SIZE in *.
  change (2 ^ 22) with 4194304. change (2 ^ 20) with 1048576.
  Z.to_euclidean_division_equations. lia.
Qed.

(** Two aligned addresses that are not 8 MiB apart are mapped to words
    that do not overlap. *)
Lemma pvr_map32_aligned_apart a b :
  a mod 4 = 0 -> b mod 4 = 0 -> a mod VRAM_SIZE <> b mod VRAM_SIZE ->
  pvr_map32 b + 4 <= pvr_map32 a \/ pvr_map32 a + 4 <= pvr_map32 b.
Proof.
  intros Ha Hb Hne. rewrite !pvr_map32_arith. unfold VRAM_SIZE in *.
  change (2 ^ 22) with 4194304. change (2 ^ 20) with 1048576.
  Z.to_euclidean_division_equations. lia.
Qed.

Lemma pvr_map32_plus2 a : a mod 4 = 0 -> pvr_map32 (a + 2) = pvr_map32 a + 2.
Proof.
  intros Ha. rewrite !pvr_map32_arith.
  assert (Hk : a = 4 * (a / 4)) by (Z.to_euclidean_division_equations; lia).
  revert Hk. generalize (a / 4). intros k ->. clear Ha.
  change (2 ^ 22) with 4194304. change (2 ^ 20) with 1048576.
  Z.to_euclidean_division_equations. lia.
Qed.

Ltac pow2_bytes :=
  change (2 ^ (8 * 0)) with 1 in *; change (2 ^ (8 * 1)) with 256 in *;
  change (2 ^ (8 * 2)) with 65536 in *; change (2 ^ (8 * 3)) with 16777216 in *;
  change (2 ^ 8) with 256 in *; change (2 ^ 16) with 65536 in *;
  change (2 ^ 24) with 16777216 in *; change (2 ^ 32) with 4294967296 in *.

(** The four bytes of a 32-bit word make the word. *)
Lemma byte_of_sum d :
  0 <= d < 2 ^ 32 ->
  byte_of 0 d + byte_of 1 d * 2 ^ 8 + byte_of 2 d * 2 ^ 16 +
  byte_of 3 d * 2 ^ 24 = d.
Proof.
  intros Hd. unfold byte_of. rewrite !bits_arith by lia. pow2_bytes.
  Z.to_euclidean_division_equations. lia.
Qed.

(** The bytes of a word made of four bytes. *)
Lemma byte_of_bytes s0 s1 s2 s3 :
  0 <= s0 < 256 -> 0 <= s1 < 256 -> 0 <= s2 < 256 -> 0 <= s3 < 256 ->
  let w := s0 + s1 * 2 ^ 8 + s2 * 2 ^ 16 + s3 * 2 ^ 24 in
  byte_of 0 w = s0 /\ byte_of 1 w = s1 /\ byte_of 2 w = s2 /\ byte_of 3 w = s3.
Proof.
  intros H0 H1 H2 H3 w. subst w. unfold byte_of.
  rewrite !bits_arith by lia. pow2_bytes.
  repeat split; Z.to_euclidean_division_equations; lia.
Qed.

Lemma byte_of_half lo hi :
  0 <= lo < 2 ^ 16 -> 0 <= hi < 2 ^ 16 ->
  byte_of 0 (lo + hi * 2 ^ 16) = byte_of 0 lo /\
  byte_of 1 (lo + hi * 2 ^ 16) = byte_of 1 lo /\
  byte_of 2 (lo + hi * 2 ^ 16) = byte_of 0 hi /\
  byte_of 3 (lo + hi * 2 ^ 16) = byte_of 1 hi.
Proof.
  intros Hl Hh. unfold byte_of. rewrite !bits_arith by lia. pow2_bytes.
  repeat split; Z.to_euclidean_division_equations; lia.
Qed.

Lemma byte_of_sum16 d :
  0 <= d < 2 ^ 16 -> byte_of 0 d + byte_of 1 d * 2 ^ 8 = d.
Proof.
  intros Hd. unfold byte_of. rewrite !bits_arith by lia. pow2_bytes.
  Z.to_euclidean_division_equations. lia.
Qed.

Ltac poke_cases :=
  repeat match goal with
         | |- context [?a =? ?b] =>
             destruct (Z.eqb_spec a b); [try lia | try lia]
         end.

Lemma load32_store32 v i d :
  0 <= d < 2 ^ 32 -> load32 (store32 v i d) i = d.
Proof.
  intros Hd. unfold load32, store32, poke. poke_cases.
  now apply byte_of_sum.
Qed.

Lemma load32_store32_other v i d j :
  j + 4 <= i \/ i + 4 <= j -> load32 (store32 v i d) j = load32 v j.
Proof. intros Hd. unfold load32, store32, poke. poke_cases. Qed.

Lemma store32_bytes v i d k :
  0 <= k < 4 -> store32 v i d (i + k) = byte_of k d.
Proof.
  intros Hk. unfold store32, poke.
  assert (Hc : k = 0 \/ k = 1 \/ k = 2 \/ k = 3) by lia.
  destruct Hc as [-> | [-> | [-> | ->]]]; poke_cases; reflexivity.
Qed.

Lemma store16_bytes v i d k :
  0 <= k < 2 -> store16 v i d (i + k) = byte_of k d.
Proof.
  intros Hk. unfold store16, poke.
  assert (Hc : k = 0 \/ k = 1) by lia.
  destruct Hc as [-> | ->]; poke_cases; reflexivity.
Qed.

(** Two 16-bit stores side by side are one 32-bit store. *)
Lemma store16_pair v i lo hi j :
  0 <= lo < 2 ^ 16 -> 0 <= hi < 2 ^ 16 ->
  store16 (store16 v i lo) (i + 2) hi j = store32 v i (lo + hi * 2 ^ 16) j.
Proof.
  intros Hl Hh. destruct (byte_of_half lo hi Hl Hh) as (H0 & H1 & H2 & H3).
  unfold store16, store32, poke. rewrite H0, H1, H2, H3.
  replace (i + 2 + 1) with (i + 3) by lia.
  poke_cases; reflexivity.
Qed.

End MemFacts.


(** ** Parameter tags and region array entries, field by field *)

Module TagFacts.
Import Word PvrMem PvrRegs RegTypes Tile Lists.

Lemma CoreTagFromDesc_sum cb sh sk po t :
  CoreTagFromDesc cb sh sk po t =
  t mod 2 ^ 3 + (po mod 2 ^ 21) * 2 ^ 3 + (sk mod 2 ^ 3) * 2 ^ 24 +
  (sh mod 2) * 2 ^ 27 + (cb mod 2) * 2 ^ 28.
Proof.
  unfold CoreTagFromDesc. rewrite !bits_arith by lia.
  change (2 ^ 0) with 1. rewrite !Z.div_1_r. change (2 ^ 1) with 2.
  rewrite !Z.shiftl_mul_pow2 by lia.
  pose proof (Z.mod_pos_bound t (2 ^ 3) ltac:(lia)).
  pose proof (Z.mod_pos_bound po (2 ^ 21) ltac:(lia)).
  pose proof (Z.mod_pos_bound sk (2 ^ 3) ltac:(lia)).
  pose proof (Z.mod_pos_bound sh 2 ltac:(lia)).
  pose proof (Z.mod_pos_bound cb 2 ltac:(lia)).
  rewrite (lor_disjoint_low (t mod 2 ^ 3) _ 3) by lia.
  rewrite (lor_disjoint_low _ (sk mod 2 ^ 3) 24) by lia.
  rewrite (lor_disjoint_low _ (sh mod 2) 27) by lia.
  rewrite (lor_disjoint_low _ (cb mod 2) 28) by lia.
  reflexivity.
Qed.

Lemma CoreTagFromDesc_fields cb sh sk po t :
  let tag := CoreTagFromDesc cb sh sk po t in
  tag_offset tag = t mod 2 ^ 3 /\
  tag_param_offs_in_words tag = po mod 2 ^ 21 /\
  tag_skip tag = sk mod 2 ^ 3 /\
  tag_shadow tag = sh mod 2 /\
  tag_cache_bypass tag = cb mod 2 /\
  0 <= tag < 2 ^ 29.
Proof.
  intros tag. subst tag. rewrite CoreTagFromDesc_sum.
  unfold tag_offset, tag_param_offs_in_words, tag_skip, tag_shadow,
    tag_cache_bypass.
  rewrite !bits_arith by lia.
  pose proof (Z.mod_pos_bound t (2 ^ 3) ltac:(lia)) as Ha.
  pose proof (Z.mod_pos_bound po (2 ^ 21) ltac:(lia)) as Hb.
  pose proof (Z.mod_pos_bound sk (2 ^ 3) ltac:(lia)) as Hc.
  pose proof (Z.mod_pos_bound sh 2 ltac:(lia)) as Hd.
  pose proof (Z.mod_pos_bound cb 2 ltac:(lia)) as He.
  revert Ha Hb Hc Hd He.
  generalize (t mod 2 ^ 3) (po mod 2 ^ 21) (sk mod 2 ^ 3) (sh mod 2) (cb mod 2).
  intros a b c d e Ha Hb Hc Hd He.
  change (2 ^ 0) with 1. change (2 ^ 1) with 2. change (2 ^ 3) with 8 in *.
  change (2 ^ 21) with 2097152 in *. change (2 ^ 24) with 16777216.
  change (2 ^ 27) with 134217728. change (2 ^ 28) with 268435456.
  change (2 ^ 29) with 536870912.
  repeat split; try (Z.to_euclidean_division_equations; lia).
Qed.

(** The bits of a control word after [control.pre_sort = v]. *)
Lemma testbit_set_pre_sort control v n :
  0 <= n < 32 ->
  Z.testbit (set_pre_sort control v) n =
  if n =? 29 then Z.testbit v 0 else Z.testbit control n.
Proof.
  intros Hn. unfold set_pre_sort, not32, u32.
  rewrite Z.lor_spec, Z.land_spec, Z.shiftl_spec by lia.
  rewrite Z.mod_pow2_bits_low by lia.
  rewrite Z.lnot_spec by lia.
  rewrite Z.shiftl_spec by lia.
  rewrite Z.land_spec.
  destruct (Z.eqb_spec n 29) as [-> | Hne].
  - change (29 - 29) with 0. change (Z.testbit 1 0) with true.
    cbn [negb]. now rewrite andb_false_r, andb_true_r.
  - assert (Hb : Z.testbit 1 (n - 29) = false).
    { destruct (Z_lt_ge_dec n 29); [apply Z.testbit_neg_r; lia |].
      change 1 with (Z.ones 1). apply Z.ones_spec_high. lia. }
    rewrite Hb. cbn [negb]. now rewrite andb_true_r, andb_false_r, orb_false_r.
Qed.

Lemma bits_testbit_ext lsb width a b :
  0 <= lsb -> 0 <= width ->
  (forall n, lsb <= n < lsb + width -> Z.testbit a n = Z.testbit b n) ->
  bits lsb width a = bits lsb width b.
Proof.
  intros Hl Hw H. unfold bits. apply Z.bits_inj'. intros n Hn.
  rewrite !Z.land_spec, !Z.shiftr_spec by assumption.
  destruct (Z_lt_ge_dec n width).
  - rewrite H by lia. reflexivity.
  - rewrite Z.ones_spec_high by lia. now rewrite !andb_false_r.
Qed.

Lemma set_pre_sort_fields control v :
  tilex (set_pre_sort control v) = tilex control /\
  tiley (set_pre_sort control v) = tiley control /\
  no_writeout (set_pre_sort control v) = no_writeout control /\
  z_keep (set_pre_sort control v) = z_keep control /\
  last_region (set_pre_sort control v) = last_region control /\
  pre_sort (set_pre_sort control v) = v mod 2.
Proof.
  unfold tilex, tiley, no_writeout, z_keep, last_region, pre_sort.
  repeat split;
    try (apply bits_testbit_ext; [lia | lia |]; intros n Hn;
         rewrite testbit_set_pre_sort by lia;
         destruct (Z.eqb_spec n 29); [lia | reflexivity]).
  replace (v mod 2) with (Z.land v (Z.ones 1)) by (apply (Z.land_ones v 1); lia).
  unfold bits. apply Z.bits_inj'. intros n Hn.
  rewrite !Z.land_spec, !Z.shiftr_spec by assumption.
  destruct (Z.eq_dec n 0) as [-> | Hne].
  - rewrite testbit_set_pre_sort by lia. reflexivity.
  - rewrite Z.ones_spec_high by lia. now rewrite !andb_false_r.
Qed.

(** The type field of an object list entry holds the strip flag. *)
Lemma link_is_not_strip obj : obj_type obj = 7 -> is_not_triangle_strip obj = 1.
Proof.
  unfold obj_type, is_not_triangle_strip. rewrite !bits_arith by lia.
  change (2 ^ 29) with 536870912. change (2 ^ 31) with 2147483648.
  change (2 ^ 3) with 8. change (2 ^ 1) with 2.
  intros H. Z.to_euclidean_division_equations. lia.
Qed.

End TagFacts.


(** ** The twiddle tables of rectangular textures *)

Module TwiddleRect.
Import TexUtils Exhaust TwiddleFacts.
Local Open Scope N_scope.

(** [a] and [b] agree at [x], [x + 1], ..., [x + n - 1], the values of [a]
    there have no bit outside [m], and each is above the one before it,
    [prev] being the value before the first. *)
Fixpoint column_ok (n : nat) (x : N) (prev : option N) (a b : N -> N) (m : N)
  : bool :=
  match n with
  | O => true
  | S k =>
      let v := a x in
      (v =? b x) && (N.land v m =? v) &&
      match prev with Some p => p <? v | None => true end &&
      column_ok k (x + 1) (Some v) a b m
  end.

Lemma column_ok_spec n : forall x prev a b m,
  column_ok n x prev a b m = true ->
  (forall k, x <= k < x + N.of_nat n ->
     a k = b k /\ N.land (a k) m = a k) /\
  (forall k, x <= k -> k + 1 < x + N.of_nat n -> a k < a (k + 1)) /\
  (forall p, prev = Some p -> (0 < n)%nat -> p < a x).
Proof.
  induction n as [| n IH]; intros x prev a b m H.
  - repeat split; intros; lia.
  - cbn [column_ok] in H. cbv zeta in H.
    apply andb_true_iff in H. destruct H as [H Hrest].
    apply andb_true_iff in H. destruct H as [H Hprev].
    apply andb_true_iff in H. destruct H as [Hab Hm].
    apply N.eqb_eq in Hab. apply N.eqb_eq in Hm.
    destruct (IH _ _ _ _ _ Hrest) as (IH1 & IH2 & IH3).
    split; [| split].
    + intros k Hk. destruct (N.eq_dec k x) as [-> | Hne]; [now split |].
      apply IH1. lia.
    + intros k Hk Hk'. destruct (N.eq_dec k x) as [-> | Hne].
      * apply (IH3 (a x) eq_refl). lia.
      * apply IH2; lia.
    + intros p -> _. now apply N.ltb_lt in Hprev.
Qed.

(** The checks of a [2^bcx] by [2^bcy] texture. *)
Definition rect_ok (bcx bcy : N) : bool :=
  let xs := N.shiftl 1 bcx in
  let ys := N.shiftl 1 bcy in
  let mx := twiddle_slow (xs - 1) 0 xs ys in
  let my := twiddle_slow 0 (ys - 1) xs ys in
  (N.land mx my =? 0) && (N.lor mx my =? N.ones (bcx + bcy)) &&
  column_ok (N.to_nat xs) 0 None
    (fun x => twiddle_slow x 0 xs ys) (fun x => twiddle_slow x 0 1024 ys) mx &&
  column_ok (N.to_nat ys) 0 None
    (fun y => twiddle_slow 0 y xs ys) (fun y => twiddle_slow 0 y xs 1024) my.

Lemma rect_checked :
  forall_below 11 (fun bcx => forall_below 11 (fun bcy =>
    rect_ok (Z.to_N bcx) (Z.to_N bcy))) = true.
Proof. vm_compute. reflexivity. Qed.

Lemma rect_ok_all bcx bcy : bcx <= 10 -> bcy <= 10 -> rect_ok bcx bcy = true.
Proof.
  intros Hx Hy.
  pose proof (forall_below_spec _ _ rect_checked (Z.of_N bcx) ltac:(lia)) as H.
  cbv beta in H.
  pose proof (forall_below_spec _ _ H (Z.of_N bcy) ltac:(lia)) as H'.
  cbv beta in H'. now rewrite !N2Z.id in H'.
Qed.

Lemma shiftl_1 s : N.shiftl 1 s = 2 ^ s.
Proof. rewrite N.shiftl_mul_pow2. lia. Qed.

(** Strictly increasing steps make a strictly increasing function. *)
Lemma increasing_steps (f : N -> N) (n : N) :
  (forall k, k + 1 < n -> f k < f (k + 1)) ->
  forall i j, i < j -> j < n -> f i < f j.
Proof.
  intros Hstep i j Hij Hj.
  replace j with (i + 1 + N.of_nat (N.to_nat (j - i - 1))) in * by lia.
  induction (N.to_nat (j - i - 1)) as [| d IH].
  - rewrite N.add_0_r in *. apply Hstep. lia.
  - rewrite Nat2N.inj_succ in *.
    apply N.lt_trans with (f (i + 1 + N.of_nat d)); [apply IH; lia |].
    replace (i + 1 + N.succ (N.of_nat d)) with (i + 1 + N.of_nat d + 1) by lia.
    apply Hstep. lia.
Qed.

Lemma increasing_inj (f : N -> N) (n : N) :
  (forall k, k + 1 < n -> f k < f (k + 1)) ->
  forall i j, i < n -> j < n -> f i = f j -> i = j.
Proof.
  intros Hstep i j Hi Hj Heq.
  destruct (N.lt_trichotomy i j) as [Hlt | [Heq' | Hgt]]; [| assumption |].
  - pose proof (increasing_steps f n Hstep i j Hlt Hj). lia.
  - pose proof (increasing_steps f n Hstep j i Hgt Hi). lia.
Qed.

(** What the checks give for a [2^bcx] by [2^bcy] texture. *)
Lemma rect_facts bcx bcy :
  bcx <= 10 -> bcy <= 10 ->
  let xs := N.shiftl 1 bcx in
  let ys := N.shiftl 1 bcy in
  exists mx my,
    N.land mx my = 0 /\ N.lor mx my = N.ones (bcx + bcy) /\
    (forall x, x < 2 ^ bcx ->
       twiddle_slow x 0 xs ys = twiddle_slow x 0 1024 ys /\
       N.land (twiddle_slow x 0 xs ys) mx = twiddle_slow x 0 xs ys) /\
    (forall y, y < 2 ^ bcy ->
       twiddle_slow 0 y xs ys = twiddle_slow 0 y xs 1024 /\
       N.land (twiddle_slow 0 y xs ys) my = twiddle_slow 0 y xs ys) /\
    (forall x x', x < 2 ^ bcx -> x' < 2 ^ bcx ->
       twiddle_slow x 0 xs ys = twiddle_slow x' 0 xs ys -> x = x') /\
    (forall y y', y < 2 ^ bcy -> y' < 2 ^ bcy ->
       twiddle_slow 0 y xs ys = twiddle_slow 0 y' xs ys -> y = y').
Proof.
  intros Hx Hy xs ys. pose proof (rect_ok_all bcx bcy Hx Hy) as H.
  unfold rect_ok in H. fold xs ys in H. cbv zeta in H.
  apply andb_true_iff in H. destruct H as [H Hcy].
  apply andb_true_iff in H. destruct H as [H Hcx].
  apply andb_true_iff in H. destruct H as [Hd Hu].
  apply N.eqb_eq in Hd. apply N.eqb_eq in Hu.
  apply column_ok_spec in Hcx. destruct Hcx as (Hx1 & Hx2 & _).
  apply column_ok_spec in Hcy. destruct Hcy as (Hy1 & Hy2 & _).
  rewrite N2Nat.id in *.
  assert (Hxs : xs = 2 ^ bcx) by apply shiftl_1.
  assert (Hys : ys = 2 ^ bcy) by apply shiftl_1.
  eexists _, _. split; [exact Hd |]. split; [exact Hu |].
  split; [| split; [| split]].
  - intros x Hlt. apply Hx1. lia.
  - intros y Hlt. apply Hy1. lia.
  - intros x x' Hlt Hlt'.
    apply (increasing_inj (fun x => twiddle_slow x 0 xs ys) (2 ^ bcx));
      try assumption.
    intros k Hk. apply Hx2; lia.
  - intros y y' Hlt Hlt'.
    apply (increasing_inj (fun y => twiddle_slow 0 y xs ys) (2 ^ bcy));
      try assumption.
    intros k Hk. apply Hy2; lia.
Qed.

(** Bits kept apart by two masks. *)
Lemma land_lor_masked a b mx my :
  N.land a mx = a -> N.land b my = b -> N.land mx my = 0 ->
  N.land (N.lor a b) mx = a /\ N.land (N.lor a b) my = b /\ N.land a b = 0.
Proof.
  intros Ha Hb Hd.
  assert (Hbit : forall k, N.testbit mx k && N.testbit my k = false).
  { intros k. rewrite <- N.land_spec, Hd. apply N.bits_0. }
  assert (Hak : forall k, N.testbit a k = N.testbit a k && N.testbit mx k).
  { intros k. now rewrite <- N.land_spec, Ha. }
  assert (Hbk : forall k, N.testbit b k = N.testbit b k && N.testbit my k).
  { intros k. now rewrite <- N.land_spec, Hb. }
  repeat split; apply N.bits_inj; intros k;
    rewrite ?N.land_spec, ?N.lor_spec, ?N.bits_0;
    specialize (Hbit k); specialize (Hak k); specialize (Hbk k);
    destruct (N.testbit a k), (N.testbit b k), (N.testbit mx k),
      (N.testbit my k); cbn in *; congruence.
Qed.

Lemma lor_add_disjoint a b : N.land a b = 0 -> a + b = N.lor a b.
Proof.
  intros Hd. rewrite N.add_nocarry_lxor by assumption. now apply N.lxor_lor.
Qed.

Lemma below_ones v n : N.land v (N.ones n) = v -> v < 2 ^ n.
Proof.
  intros H. rewrite N.land_ones in H. rewrite <- H.
  apply N.mod_lt. apply N.pow_nonzero. lia.
Qed.

Lemma twiddle_slow_rect bcx bcy x y :
  bcx <= 10 -> bcy <= 10 -> x < 2 ^ bcx -> y < 2 ^ bcy ->
  let xs := N.shiftl 1 bcx in
  let ys := N.shiftl 1 bcy in
  twiddle_slow x y xs ys =
    twiddle_slow x 0 1024 ys + twiddle_slow 0 y xs 1024 /\
  twiddle_slow x y xs ys < 2 ^ (bcx + bcy).
Proof.
  intros Hbx Hby Hx Hy xs ys.
  destruct (rect_facts bcx bcy Hbx Hby) as (mx & my & Hd & Hu & Hxs & Hys & _).
  fold xs ys in Hxs, Hys.
  destruct (Hxs x Hx) as [Hx1 Hx2]. destruct (Hys y Hy) as [Hy1 Hy2].
  destruct (land_lor_masked _ _ _ _ Hx2 Hy2 Hd) as (Hlx & Hly & Hab).
  rewrite (twiddle_slow_split x y xs ys). split.
  - rewrite <- Hx1, <- Hy1. symmetry. now apply lor_add_disjoint.
  - apply below_ones. rewrite <- Hu.
    rewrite N.land_lor_distr_r, Hlx, Hly. reflexivity.
Qed.

Lemma twiddle_slow_inj bcx bcy x y x' y' :
  bcx <= 10 -> bcy <= 10 ->
  x < 2 ^ bcx -> y < 2 ^ bcy -> x' < 2 ^ bcx -> y' < 2 ^ bcy ->
  twiddle_slow x y (N.shiftl 1 bcx) (N.shiftl 1 bcy) =
  twiddle_slow x' y' (N.shiftl 1 bcx) (N.shiftl 1 bcy) ->
  x = x' /\ y = y'.
Proof.
  intros Hbx Hby Hx Hy Hx' Hy' Heq.
  destruct (rect_facts bcx bcy Hbx Hby)
    as (mx & my & Hd & Hu & Hxs & Hys & Hxi & Hyi).
  cbv zeta in *.
  destruct (Hxs x Hx) as [_ Hx2]. destruct (Hys y Hy) as [_ Hy2].
  destruct (Hxs x' Hx') as [_ Hx2']. destruct (Hys y' Hy') as [_ Hy2'].
  destruct (land_lor_masked _ _ _ _ Hx2 Hy2 Hd) as (Hlx & Hly & _).
  destruct (land_lor_masked _ _ _ _ Hx2' Hy2' Hd) as (Hlx' & Hly' & _).
  rewrite (twiddle_slow_split x y), (twiddle_slow_split x' y') in Heq.
  split.
  - apply Hxi; try assumption. rewrite <- Hlx, <- Hlx'. now rewrite Heq.
  - apply Hyi; try assumption. rewrite <- Hly, <- Hly'. now rewrite Heq.
Qed.

End TwiddleRect.


(** ** The unpackers of [TexUtils.h], texel by texel *)

Module UnpackFacts.
Import Word TexUtils Exhaust.

Lemma cclamp_range lo hi x : lo <= hi -> lo <= cclamp lo hi x <= hi.
Proof. unfold cclamp. lia. Qed.

Lemma cclamp_id lo hi x : lo <= x <= hi -> cclamp lo hi x = x.
Proof. unfold cclamp. lia. Qed.

Lemma cclamp_mono lo hi x y : x <= y -> cclamp lo hi x <= cclamp lo hi y.
Proof. unfold cclamp. lia. Qed.

Lemma packRGB_sum R G B :
  0 <= R <= 255 -> 0 <= G <= 255 -> 0 <= B <= 255 ->
  packRGB R G B = R + G * 2 ^ 8 + B * 2 ^ 16 + 255 * 2 ^ 24.
Proof.
  intros HR HG HB. unfold packRGB. cbv zeta.
  rewrite !Z.mod_small by lia.
  rewrite Z.shiftl_0_r, !Z.shiftl_mul_pow2 by lia.
  change 0xFF000000 with (255 * 2 ^ 24).
  rewrite (lor_disjoint_low R G 8) by lia.
  rewrite (lor_disjoint_low _ B 16) by lia.
  rewrite (lor_disjoint_low _ 255 24) by lia.
  reflexivity.
Qed.

Lemma channels_of_sum c0 c1 c2 c3 :
  0 <= c0 <= 255 -> 0 <= c1 <= 255 -> 0 <= c2 <= 255 -> 0 <= c3 <= 255 ->
  let w := c0 + c1 * 2 ^ 8 + c2 * 2 ^ 16 + c3 * 2 ^ 24 in
  channel 0 w = c0 /\ channel 1 w = c1 /\ channel 2 w = c2 /\ channel 3 w = c3.
Proof.
  intros H0 H1 H2 H3 w. subst w. unfold channel. rewrite !bits_arith by lia.
  change (2 ^ (8 * 0)) with 1. change (2 ^ (8 * 1)) with 256.
  change (2 ^ (8 * 2)) with 65536. change (2 ^ (8 * 3)) with 16777216.
  change (2 ^ 8) with 256. change (2 ^ 16) with 65536.
  change (2 ^ 24) with 16777216.
  repeat split; Z.to_euclidean_division_equations; lia.
Qed.

(** What is checked of the three unpackers on a 16-bit texel: the
    channels, and the texel found again in the unpacked color. *)
Definition unpack_565_ok (w : Z) : bool :=
  let c := ARGB565_32 w in
  (channel 0 c =? 8 * bits 0 5 w) && (channel 1 c =? 4 * bits 5 6 w) &&
  (channel 2 c =? 8 * bits 11 5 w) && (channel 3 c =? 255) &&
  (c <? 2 ^ 32) &&
  (bits 3 5 c + bits 10 6 c * 2 ^ 5 + bits 19 5 c * 2 ^ 11 =? w).

Definition unpack_1555_ok (w : Z) : bool :=
  let c := ARGB1555_32 w in
  (channel 0 c =? 8 * bits 0 5 w) && (channel 1 c =? 8 * bits 5 5 w) &&
  (channel 2 c =? 8 * bits 10 5 w) && (channel 3 c =? 255 * bits 15 1 w) &&
  (c <? 2 ^ 32) &&
  (bits 3 5 c + bits 11 5 c * 2 ^ 5 + bits 19 5 c * 2 ^ 10 + bits 31 1 c * 2 ^ 15 =? w).

Definition unpack_4444_ok (w : Z) : bool :=
  let c := ARGB4444_32 w in
  (c <? 2 ^ 32) &&
  (bits 4 4 c + bits 12 4 c * 2 ^ 4 + bits 20 4 c * 2 ^ 8 + bits 28 4 c * 2 ^ 12 =? w).

Lemma unpack_checked :
  forall_below 65536 (fun w => unpack_565_ok w && unpack_1555_ok w && unpack_4444_ok w) = true.
Proof. vm_compute. reflexivity. Qed.

Lemma unpack_facts w :
  0 <= w < 2 ^ 16 ->
  unpack_565_ok w = true /\ unpack_1555_ok w = true /\ unpack_4444_ok w = true.
Proof.
  intros Hw.
  pose proof (forall_below_spec _ _ unpack_checked w Hw) as H. cbv beta in H.
  apply andb_true_iff in H. destruct H as [H H3].
  apply andb_true_iff in H. destruct H as [H1 H2]. auto.
Qed.

End UnpackFacts.


(** ** Object lists: where a walk ends, and the tag resolutions of the
    pre-sorted pass *)

Module ObjectListFacts.
Import Word PvrMem PvrRegs RegTypes Tile Lists PassFacts TagFacts.

Section Walker.
Context {B : Backend}.
Variable emu_regs : RegFile.

Lemma RenderObjectList_self_link fuel mode base rect c :
  obj_type (vri (vram c) base) = 7 ->
  end_of_list (vri (vram c) base) = 0 ->
  next_block_ptr_in_words (vri (vram c) base) * 4 = base ->
  RenderObjectList emu_regs fuel mode base rect c = OutOfFuel c.
Proof.
  intros Ht He Hn. induction fuel as [| fuel IH]; [reflexivity |].
  cbn [RenderObjectList]. cbv zeta.
  rewrite (link_is_not_strip _ Ht), Ht, He, Hn. cbn. exact IH.
Qed.

(** The list walked from [base] in the memory [v] has, somewhere, a link
    entry with [end_of_list] set. *)
Lemma RenderObjectList_returns fuel : forall mode base rect c,
  match RenderObjectList emu_regs fuel mode base rect c with
  | Done c' =>
      vram c' = vram c /\
      exists a, obj_type (vri (vram c) a) = 7 /\
                end_of_list (vri (vram c) a) <> 0
  | AssertFailed _ => False
  | OutOfFuel _ => True
  end.
Proof.
  induction fuel as [| fuel IH]; intros mode base rect c;
    cbn [RenderObjectList]; [exact I |].
  cbv zeta.
  assert (Hstep : forall c1 base1, vram c1 = vram c ->
            match RenderObjectList emu_regs fuel mode base1 rect c1 with
            | Done c' =>
                vram c' = vram c /\
                exists a, obj_type (vri (vram c) a) = 7 /\
                          end_of_list (vri (vram c) a) <> 0
            | AssertFailed _ => False
            | OutOfFuel _ => True
            end).
  { intros c1 base1 Hv. specialize (IH mode base1 rect c1).
    destruct (RenderObjectList emu_regs fuel mode base1 rect c1); auto.
    rewrite Hv in IH. exact IH. }
  destruct (is_not_triangle_strip _ =? 0).
  { apply Hstep. apply shaded_RenderTriangleStrip. }
  destruct (Z.eqb_spec (obj_type (vri (vram c) base)) 7) as [Ht | Ht].
  { destruct (Z.eqb_spec (end_of_list (vri (vram c) base)) 0) as [He | He];
      cbn [negb].
    - now apply Hstep.
    - split; [reflexivity |]. now exists base. }
  destruct (obj_type _ =? 4).
  { apply Hstep. unfold RenderTriangleArray. apply shaded_triangle_array_loop. }
  destruct (obj_type _ =? 5).
  { apply Hstep. unfold RenderQuadArray. apply shaded_quad_array_loop. }
  now apply Hstep.
Qed.

(** Events of the triangles *)
Definition presort_events (mode : RenderMode) (rect : taRECT) (n : nat)
  : list Event :=
  if RenderMode_eqb mode RM_TRANSLUCENT_PRESORT
  then repeat (EvParamTags RM_TRANSLUCENT_PRESORT (left rect) (top rect)) n
  else [].

Lemma trace_RenderTriangle mode params tag v1 v2 v3 v4 rect c :
  trace (RenderTriangle emu_regs mode params tag v1 v2 v3 v4 rect c) =
  trace c ++ presort_events mode rect 1.
Proof.
  unfold RenderTriangle, presort_events. cbv zeta.
  destruct mode; cbn [RenderMode_eqb];
    repeat match goal with
           | |- context [if ?b then _ else _] => destruct b
           end; cbn; now rewrite ?app_nil_r.
Qed.

Lemma presort_events_add mode rect n m :
  presort_events mode rect n ++ presort_events mode rect m =
  presort_events mode rect (n + m).
Proof.
  unfold presort_events. destruct (RenderMode_eqb _ _); [| reflexivity].
  symmetry. apply repeat_app.
Qed.

Lemma trace_RenderTriangleStrip mode obj rect c :
  trace (RenderTriangleStrip emu_regs mode obj rect c) =
  trace c ++ presort_events mode rect (length (strip_triangles obj)).
Proof.
  unfold RenderTriangleStrip. cbv zeta.
  destruct (decode_pvr_vertices _ _ _ _ _ _ _) as [[params vtx] p].
  generalize (strip_triangles obj). intros l. revert c.
  induction l as [| [i [[a b] d]] l IH]; intros c; cbn [fold_left length].
  - unfold presort_events. destruct (RenderMode_eqb _ _); cbn; now rewrite app_nil_r.
  - rewrite IH, trace_RenderTriangle, <- app_assoc, presort_events_add.
    reflexivity.
Qed.

Lemma trace_triangle_array_loop n mode obj rect pb : forall pp c,
  trace (triangle_array_loop emu_regs n mode obj rect pb pp c) =
  trace c ++ presort_events mode rect n.
Proof.
  induction n as [| n IH]; intros pp c; cbn [triangle_array_loop].
  - unfold presort_events. destruct (RenderMode_eqb _ _); cbn; now rewrite app_nil_r.
  - cbv zeta.
    destruct (decode_pvr_vertices _ _ _ _ _ _ _) as [[params vtx] p].
    rewrite IH, trace_RenderTriangle, <- app_assoc, presort_events_add.
    reflexivity.
Qed.

Lemma trace_quad_array_loop n mode obj rect pb : forall pp c,
  trace (quad_array_loop emu_regs n mode obj rect pb pp c) =
  trace c ++ presort_events mode rect n.
Proof.
  induction n as [| n IH]; intros pp c; cbn [quad_array_loop].
  - unfold presort_events. destruct (RenderMode_eqb _ _); cbn; now rewrite app_nil_r.
  - cbv zeta.
    destruct (decode_pvr_vertices _ _ _ _ _ _ _) as [[params vtx] p].
    rewrite IH, trace_RenderTriangle, <- app_assoc, presort_events_add.
    reflexivity.
Qed.

End Walker.

Lemma length_strip_triangles obj :
  length (strip_triangles obj) =
  length (filter (Z.testbit (mask obj)) [0; 1; 2; 3; 4; 5]).
Proof.
  unfold strip_triangles. cbn [seq flat_map].
  rewrite !length_app.
  rewrite !StripFacts.strip_triangle_cases by lia.
  change (5 - Z.of_nat 0) with 5. change (5 - Z.of_nat 1) with 4.
  change (5 - Z.of_nat 2) with 3. change (5 - Z.of_nat 3) with 2.
  change (5 - Z.of_nat 4) with 1. change (5 - Z.of_nat 5) with 0.
  cbn [filter].
  destruct (Z.testbit (mask obj) 5), (Z.testbit (mask obj) 4),
    (Z.testbit (mask obj) 3), (Z.testbit (mask obj) 2),
    (Z.testbit (mask obj) 1), (Z.testbit (mask obj) 0); reflexivity.
Qed.

End ObjectListFacts.


(** ** The write-out, pixel by pixel *)

Module WriteOutFacts.
Import Word PvrMem PvrRegs RegTypes Tile Lists TileFacts MemFacts.

Lemma u32_add_l a b : u32 (u32 a + b) = u32 (a + b).
Proof. unfold u32. apply Zplus_mod_idemp_l. Qed.

(** The numbers [0 .. n - 1]. *)
Definition upto (n : nat) : list Z := map Z.of_nat (seq 0 n).

Lemma fold_left_ext {A C : Type} (f g : A -> C -> A) (l : list C) :
  (forall a x, f a x = g a x) -> forall a, fold_left f l a = fold_left g l a.
Proof.
  intros H. induction l as [| x l IH]; intros a; cbn [fold_left];
    [reflexivity |]. now rewrite H, IH.
Qed.

Lemma fold_left_flat_map {A C D : Type} (f : A -> D -> A) (g : C -> list D)
    (l : list C) : forall a,
  fold_left f (flat_map g l) a =
  fold_left (fun a x => fold_left f (g x) a) l a.
Proof.
  induction l as [| x l IH]; intros a; cbn [flat_map fold_left];
    [reflexivity |]. now rewrite fold_left_app, IH.
Qed.

Lemma fold_left_map' {A C D : Type} (f : A -> D -> A) (g : C -> D)
    (l : list C) : forall a,
  fold_left f (map g l) a = fold_left (fun a x => f a (g x)) l a.
Proof.
  induction l as [| x l IH]; intros a; cbn [map fold_left];
    [reflexivity |]. now rewrite IH.
Qed.

Section Walker.
Context {B : Backend}.
Variable emu_regs : RegFile.

Lemma write_line_fold n pm bpp y : forall x src d c,
  write_line n pm bpp x y src (u32 d) c =
  (fold_left (fun c k => write_pixel pm (x + k) y (src + 4 * k)
                           (u32 (d + k * bpp)) c)
             (upto n) c,
   src + 4 * Z.of_nat n).
Proof.
  unfold upto.
  induction n as [| n IH]; intros x src d c.
  - cbn [write_line seq map fold_left]. f_equal. lia.
  - cbn [write_line]. cbv zeta. rewrite u32_add_l, IH.
    cbn [seq map fold_left]. rewrite <- seq_shift, !map_map.
    f_equal; [| lia].
    rewrite !fold_left_map'.
    change (Z.of_nat 0) with 0.
    rewrite Z.mul_0_r, Z.mul_0_l, !Z.add_0_r.
    apply fold_left_ext. intros a k.
    f_equal; [lia | lia | f_equal; lia].
Qed.

(** The pixels [(x, y)] of the lines [y0 .. y0 + n - 1] of a tile, line by
    line. *)
Definition tile_pixels (y0 n : nat) : list (Z * Z) :=
  flat_map (fun y => map (fun x => (x, Z.of_nat y)) (upto 32)) (seq y0 n).

Lemma tile_pixels_eq y0 n :
  tile_pixels y0 n =
  flat_map (fun y => map (fun x => (Z.of_nat x, Z.of_nat y)) (seq 0 32))
           (seq y0 n).
Proof.
  unfold tile_pixels, upto. apply flat_map_ext. intros y. now rewrite map_map.
Qed.

Lemma write_lines_fold n pm bpp base offs : forall y c,
  write_lines emu_regs n pm bpp base offs (Z.of_nat y)
    (4 * (32 * Z.of_nat y)) c =
  fold_left (fun c '(x, y) =>
               write_pixel pm x y (4 * (32 * y + x))
                 (u32 (base + offs + y * stride emu_regs * 8 + x * bpp)) c)
            (tile_pixels y n) c.
Proof.
  unfold tile_pixels.
  induction n as [| n IH]; intros y c.
  - reflexivity.
  - cbn [write_lines]. cbv zeta.
    rewrite (write_line_fold 32 pm bpp (Z.of_nat y) 0 (4 * (32 * Z.of_nat y))
               (base + offs + Z.of_nat y * stride emu_regs * 8) c).
    replace (Z.of_nat y + 1) with (Z.of_nat (S y)) by lia.
    replace (4 * (32 * Z.of_nat y) + 4 * Z.of_nat 32)
      with (4 * (32 * Z.of_nat (S y))) by lia.
    rewrite IH. cbn [seq flat_map]. rewrite fold_left_app.
    match goal with
    | |- fold_left _ _ ?a = fold_left _ _ ?b => assert (Hab : a = b)
    end; [| now rewrite Hab].
    rewrite fold_left_map'. apply fold_left_ext. intros a x.
    replace (Z.of_nat y + 0) with (Z.of_nat y) by lia.
    replace (4 * (32 * Z.of_nat y) + 4 * x) with (4 * (32 * Z.of_nat y + x)) by lia.
    reflexivity.
Qed.

End Walker.

(** A state over the back end with a white color buffer, the video memory
    being zero. *)
Definition white_core : Core (B := Fixtures.solid 255) :=
  mkCore (B := Fixtures.solid 255) (fun _ => 0) tt [].

End WriteOutFacts.


(** ** More on the RGB565 quantization *)

Module DitherMore.
Import Word Lists TexUtils Exhaust DitherFacts.

Lemma clamp0_mono hi a b : 0 <= hi -> a <= b -> clamp0 hi a <= clamp0 hi b.
Proof.
  intros Hh Hab. unfold clamp0.
  destruct (Z.ltb_spec a 0), (Z.ltb_spec b 0), (Z.gtb_spec a hi),
    (Z.gtb_spec b hi); lia.
Qed.

Lemma quantize_mono k T a b :
  0 <= k -> a <= b -> Z.quot (a * k + T) 255 <= Z.quot (b * k + T) 255.
Proof. intros Hk Hab. apply Z.quot_le_mono; nia. Qed.

Lemma dither565_mono x y r g b r' g' b' :
  r <= r' -> g <= g' -> b <= b' ->
  let '(r5, g6, b5) := dither565 x y r g b in
  let '(r5', g6', b5') := dither565 x y r' g' b' in
  r5 <= r5' /\ g6 <= g6' /\ b5 <= b5'.
Proof.
  intros Hr Hg Hb. unfold dither565. cbv zeta.
  repeat split; apply clamp0_mono; try lia; apply quantize_mono; lia.
Qed.

Lemma bayer_period x y i j : bayer (y + 4 * j) (x + 4 * i) = bayer y x.
Proof.
  rewrite !bayer_mod.
  replace ((x + 4 * i) mod 4) with (x mod 4)
    by (Z.to_euclidean_division_equations; lia).
  replace ((y + 4 * j) mod 4) with (y mod 4)
    by (Z.to_euclidean_division_equations; lia).
  reflexivity.
Qed.

Lemma dither565_period x y i j r g b :
  dither565 (x + 4 * i) (y + 4 * j) r g b = dither565 x y r g b.
Proof. unfold dither565. cbv zeta. now rewrite bayer_period. Qed.

(** The sum of [f] over the sixteen pixels of a 4 by 4 block. *)
Definition block_sum (f : Z -> Z -> Z) : Z :=
  fold_right Z.add 0
    (flat_map (fun y => map (fun x => f x y) [0; 1; 2; 3]) [0; 1; 2; 3]).

Definition red_of (c : Z * Z * Z) : Z := fst (fst c).
Definition green_of (c : Z * Z * Z) : Z := snd (fst c).
Definition blue_of (c : Z * Z * Z) : Z := snd c.

Definition block_ok (v : Z) : bool :=
  (block_sum (fun x y => red_of (dither565 x y v v v)) =? (v * 496 + 143) / 255) &&
  (block_sum (fun x y => green_of (dither565 x y v v v)) =? (v * 1008 + 143) / 255) &&
  (block_sum (fun x y => blue_of (dither565 x y v v v)) =? (v * 496 + 143) / 255).

Lemma block_checked : forall_below 256 block_ok = true.
Proof. vm_compute. reflexivity. Qed.

End DitherMore.


(** ** The range of the bump-map tables *)

Module BumpRange.
Import BumpTables BumpFacts.
Local Open Scope R_scope.

Lemma float_to_int_bounded r (n : Z) :
  (0 <= n)%Z -> - IZR n - 1 < r < IZR n + 1 ->
  (- n <= float_to_int r <= n)%Z.
Proof.
  intros Hn Hr. unfold float_to_int.
  destruct (Rle_dec 0 r) as [Hp | Hp].
  - pose proof (Int_part_nonneg r Hp). destruct (base_Int_part r) as [Hle _].
    assert (H1 : IZR (Int_part r) < IZR (n + 1)) by (rewrite plus_IZR; lra).
    apply lt_IZR in H1. lia.
  - assert (Hq : 0 <= - r) by lra.
    pose proof (Int_part_nonneg (- r) Hq). destruct (base_Int_part (- r)) as [Hle _].
    assert (H1 : IZR (Int_part (- r)) < IZR (n + 1)) by (rewrite plus_IZR; lra).
    apply lt_IZR in H1. lia.
Qed.

Lemma float_to_int_nonneg r : - 1 < r -> (0 <= float_to_int r)%Z.
Proof.
  intros Hr. unfold float_to_int.
  destruct (Rle_dec 0 r) as [Hp | Hp]; [now apply Int_part_nonneg |].
  assert (H0 : Int_part (- r) = 0%Z) by (symmetry; apply Int_part_spec; simpl; lra).
  rewrite H0. lia.
Qed.

Lemma accurate_near product exact i :
  accurate product exact -> (0 <= i < 256)%Z ->
  exact i - / 1000 <= product i <= exact i + / 1000.
Proof.
  intros Hacc Hi. specialize (Hacc i Hi).
  pose proof (Rle_abs (product i - exact i)) as Hup.
  pose proof (Rle_abs (- (product i - exact i))) as Hlo.
  rewrite Rabs_Ropp in Hlo. lra.
Qed.

Lemma angle90_range i : (0 <= i < 256)%Z -> 0 <= angle90 i <= PI / 2.
Proof.
  intros [Hlo Hhi]. unfold angle90. apply IZR_le in Hlo. apply IZR_lt in Hhi.
  pose proof PI_bounds as Hpi.
  split.
  - apply Rmult_le_pos; lra.
  - assert (H : IZR i / 256 <= 1) by lra. nra.
Qed.

Lemma exact_sin90_range i : (0 <= i < 256)%Z -> 0 <= exact_sin90 i <= 127.
Proof.
  intros Hi. pose proof (angle90_range i Hi) as Ha. pose proof PI_bounds.
  unfold exact_sin90.
  pose proof (sin_ge_0 (angle90 i) ltac:(lra) ltac:(lra)).
  pose proof (SIN_bound (angle90 i)). lra.
Qed.

Lemma exact_cos90_range i : (0 <= i < 256)%Z -> 0 <= exact_cos90 i <= 127.
Proof.
  intros Hi. pose proof (angle90_range i Hi) as Ha. pose proof PI_bounds.
  unfold exact_cos90.
  pose proof (cos_ge_0 (angle90 i) ltac:(lra) ltac:(lra)).
  pose proof (COS_bound (angle90 i)). lra.
Qed.

Lemma exact_cos360_range i : - 127 <= exact_cos360 i <= 127.
Proof.
  unfold exact_cos360. pose proof (COS_bound (angle360 i)). lra.
Qed.

Lemma bump_range ps pc pc' i :
  accurate ps exact_sin90 -> accurate pc exact_cos90 ->
  accurate pc' exact_cos360 -> (0 <= i < 256)%Z ->
  (0 <= BM_SIN90 ps i <= 127)%Z /\ (0 <= BM_COS90 pc i <= 127)%Z /\
  (-127 <= BM_COS360 pc' i <= 127)%Z.
Proof.
  intros Hs Hc Hc' Hi.
  pose proof (accurate_near _ _ i Hs Hi). pose proof (exact_sin90_range i Hi).
  pose proof (accurate_near _ _ i Hc Hi). pose proof (exact_cos90_range i Hi).
  pose proof (accurate_near _ _ i Hc' Hi). pose proof (exact_cos360_range i).
  unfold BM_SIN90, BM_COS90, BM_COS360.
  split; [| split].
  - split; [apply float_to_int_nonneg; lra |].
    apply (float_to_int_bounded _ 127); [lia | lra].
  - split; [apply float_to_int_nonneg; lra |].
    apply (float_to_int_bounded _ 127); [lia | lra].
  - apply (float_to_int_bounded _ 127); [lia | lra].
Qed.

End BumpRange.


(** ** Which events a tile can have *)

Module EventFacts.
Import Word PvrMem PvrRegs RegTypes Tile Lists ObjectListFacts TileFacts.

Section Walker.
Context {B : Backend}.
Variable emu_regs : RegFile.

(** From [c] to [c'] events were added, all of them in [P]. *)
Definition emits (P : Event -> Prop) (c c' : Core) : Prop :=
  exists l, trace c' = trace c ++ l /\ Forall P l.

Lemma emits_refl P c : emits P c c.
Proof. exists []. split; [now rewrite app_nil_r | constructor]. Qed.

Lemma emits_trans P c1 c2 c3 : emits P c1 c2 -> emits P c2 c3 -> emits P c1 c3.
Proof.
  intros (l1 & Ht1 & Hl1) (l2 & Ht2 & Hl2).
  exists (l1 ++ l2). split; [now rewrite Ht2, Ht1, app_assoc |].
  apply Forall_app. now split.
Qed.

Lemma emits_on_tile P f c : emits P c (on_tile f c).
Proof.
  exists []. split; [cbn [on_tile trace]; now rewrite app_nil_r | constructor].
Qed.

Lemma emits_RenderParamTags (P : Event -> Prop) mode l t c :
  P (EvParamTags mode l t) -> emits P c (RenderParamTags emu_regs mode l t c).
Proof.
  intros HP. exists [EvParamTags mode l t]. split; [reflexivity |].
  constructor; [exact HP | constructor].
Qed.

(** The tag resolutions of the triangles of a list are in [P]: there are
    none unless the mode is the pre-sorted one. *)
Definition presort_ok (P : Event -> Prop) (mode : RenderMode) (rect : taRECT)
  : Prop :=
  RenderMode_eqb mode RM_TRANSLUCENT_PRESORT = true ->
  P (EvParamTags RM_TRANSLUCENT_PRESORT (left rect) (top rect)).

Lemma emits_presort_events P mode rect n c c' :
  presort_ok P mode rect ->
  trace c' = trace c ++ presort_events mode rect n -> emits P c c'.
Proof.
  intros HP Ht. exists (presort_events mode rect n). split; [exact Ht |].
  unfold presort_events. unfold presort_ok in HP.
  destruct (RenderMode_eqb mode RM_TRANSLUCENT_PRESORT); [| constructor].
  apply Forall_forall. intros e He. apply repeat_spec in He. subst e. now apply HP.
Qed.

Lemma emits_bind_at P c c0 (o : Outcome Core) k :
  emits P c0 (state_of o) -> emits P c c0 ->
  (forall c1, emits P c1 (state_of (k c1))) ->
  emits P c (state_of (bind o k)).
Proof.
  intros Ho Hc Hk. eapply emits_trans; [exact Hc |].
  destruct o as [c1 | c1 | c1]; cbn [bind state_of] in *; try exact Ho.
  eapply emits_trans; [exact Ho | apply Hk].
Qed.

Lemma emits_at P c c0 (o : Outcome Core) :
  emits P c0 (state_of o) -> emits P c c0 -> emits P c (state_of o).
Proof. intros Ho Hc. eapply emits_trans; eassumption. Qed.

Lemma emits_RenderObjectList P fuel : forall mode base rect c,
  presort_ok P mode rect ->
  emits P c (state_of (RenderObjectList emu_regs fuel mode base rect c)).
Proof.
  induction fuel as [| fuel IH]; intros mode base rect c HP;
    cbn [RenderObjectList]; [apply emits_refl |].
  cbv zeta.
  destruct (is_not_triangle_strip _ =? 0).
  { eapply emits_at; [apply IH; exact HP |].
    eapply emits_presort_events; [exact HP |].
    apply trace_RenderTriangleStrip. }
  destruct (obj_type _ =? 7).
  { destruct (negb _); [apply emits_refl | apply IH; exact HP]. }
  destruct (obj_type _ =? 4).
  { eapply emits_at; [apply IH; exact HP |].
    eapply emits_presort_events; [exact HP |].
    unfold RenderTriangleArray. cbv zeta. apply trace_triangle_array_loop. }
  destruct (obj_type _ =? 5).
  { eapply emits_at; [apply IH; exact HP |].
    eapply emits_presort_events; [exact HP |].
    unfold RenderQuadArray. cbv zeta. apply trace_quad_array_loop. }
  apply IH. exact HP.
Qed.

Lemma presort_ok_other P mode rect :
  RenderMode_eqb mode RM_TRANSLUCENT_PRESORT = false -> presort_ok P mode rect.
Proof. intros H H'. congruence. Qed.

(** A list walked in a mode that is not the pre-sorted one. *)
Lemma emits_other_list P fuel mode base rect c :
  RenderMode_eqb mode RM_TRANSLUCENT_PRESORT = false ->
  emits P c (state_of (RenderObjectList emu_regs fuel mode base rect c)).
Proof. intros H. apply emits_RenderObjectList. now apply presort_ok_other. Qed.

(** The events of a state reached through calls of the back end and tag
    resolutions in [P]. *)
Ltac emit_steps :=
  repeat first
    [ apply emits_refl
    | eapply emits_trans; [| apply emits_on_tile]
    | eapply emits_trans; [| apply emits_RenderParamTags; assumption] ].

Lemma emits_punchthrough_loop P fuel entry rect : forall c,
  P (EvParamTags RM_PUNCHTHROUGH_PASS0 (left rect) (top rect)) ->
  emits P c (state_of (punchthrough_loop emu_regs fuel entry rect c)).
Proof.
  induction fuel as [| fuel IH]; intros c HP; cbn [punchthrough_loop];
    [apply emits_refl |].
  cbv zeta.
  destruct (GetMoreToDraw (tile c)); [| apply emits_refl].
  eapply emits_bind_at;
    [apply emits_other_list; reflexivity | emit_steps | intros c1].
  destruct (negb _); [apply emits_refl |].
  eapply emits_at; [apply IH; exact HP | emit_steps].
Qed.

Lemma emits_punchthrough_pass P fuel entry rect c :
  P (EvParamTags RM_PUNCHTHROUGH_PASS0 (left rect) (top rect)) ->
  (empty (opaque_mod entry) = 0 ->
   P (EvParamTags RM_PUNCHTHROUGH_MV (left rect) (top rect))) ->
  emits P c (state_of (punchthrough_pass emu_regs fuel entry rect c)).
Proof.
  intros HP0 HPmv. unfold punchthrough_pass. cbv zeta.
  eapply emits_bind_at;
    [apply emits_other_list; reflexivity | emit_steps | intros c1].
  eapply emits_bind_at;
    [apply emits_punchthrough_loop; exact HP0 | emit_steps | intros c2].
  destruct (Z.eqb_spec (empty (opaque_mod entry)) 0) as [He | He];
    [| apply emits_refl].
  eapply emits_bind_at;
    [apply emits_other_list; reflexivity | apply emits_refl | intros c3].
  cbn [state_of]. apply emits_RenderParamTags. now apply HPmv.
Qed.

Lemma emits_autosort_loop P fuel entry rect : forall c,
  P (EvParamTags RM_TRANSLUCENT_AUTOSORT (left rect) (top rect)) ->
  emits P c (state_of (autosort_loop emu_regs fuel entry rect c)).
Proof.
  induction fuel as [| fuel IH]; intros c HP; cbn [autosort_loop];
    [apply emits_refl |].
  cbv zeta.
  eapply emits_bind_at;
    [apply emits_other_list; reflexivity | emit_steps | intros c1].
  eapply emits_bind_at; [| apply emits_refl | intros c2].
  { destruct (empty (trans_mod entry) =? 0); [| apply emits_refl].
    apply emits_other_list. reflexivity. }
  destruct (GetMoreToDraw _).
  - eapply emits_at; [apply IH; exact HP | emit_steps].
  - cbn [state_of]. emit_steps.
Qed.

Lemma emits_translucent_pass P fuel entry rect c :
  (pre_sort (control entry) <> 0 ->
   P (EvParamTags RM_TRANSLUCENT_PRESORT (left rect) (top rect))) ->
  (pre_sort (control entry) = 0 ->
   P (EvParamTags RM_TRANSLUCENT_AUTOSORT (left rect) (top rect))) ->
  emits P c (state_of (translucent_pass emu_regs fuel entry rect c)).
Proof.
  intros Hps Has. unfold translucent_pass.
  destruct (Z.eqb_spec (pre_sort (control entry)) 0) as [Hz | Hnz];
    cbn [negb].
  - eapply emits_at; [apply emits_autosort_loop; now apply Has |].
    apply emits_on_tile.
  - eapply emits_at; [| apply emits_on_tile].
    apply emits_RenderObjectList. intros _. now apply Hps.
Qed.

Lemma emits_opaque_lists P fuel entry rect c :
  emits P c (state_of (opaque_lists emu_regs fuel entry rect c)).
Proof.
  unfold opaque_lists.
  destruct (empty (opaque entry) =? 0); [| apply emits_refl].
  eapply emits_bind_at;
    [apply emits_other_list; reflexivity | apply emits_refl | intros c1].
  destruct (empty (opaque_mod entry) =? 0); [| apply emits_refl].
  apply emits_other_list. reflexivity.
Qed.

Lemma emits_write_line (P : Event -> Prop) n pm bpp y : forall x src dst c,
  (forall a d, P (EvWrite16 a d)) -> (forall a d, P (EvWrite32 a d)) ->
  emits P c (fst (write_line n pm bpp x y src dst c)).
Proof.
  induction n as [| n IH]; intros x src dst c H16 H32; cbn [write_line fst].
  - apply emits_refl.
  - cbv zeta. eapply emits_trans; [| now apply IH].
    unfold write_pixel. cbv zeta.
    destruct (pm =? 1); eexists; (split; [reflexivity |]);
      (constructor; [| constructor]); [apply H16 | apply H32].
Qed.

Lemma emits_write_lines (P : Event -> Prop) n pm bpp base offs : forall y src c,
  (forall a d, P (EvWrite16 a d)) -> (forall a d, P (EvWrite32 a d)) ->
  emits P c (write_lines emu_regs n pm bpp base offs y src c).
Proof.
  induction n as [| n IH]; intros y src c H16 H32; cbn [write_lines].
  - apply emits_refl.
  - cbv zeta.
    pose proof (emits_write_line P 32 pm bpp y 0 src
                  (u32 (base + offs + y * stride emu_regs * 8)) c H16 H32)
      as Hline.
    destruct (write_line 32 pm bpp 0 y src _ c) as [c1 src1].
    cbn [fst] in Hline. eapply emits_trans; [exact Hline | now apply IH].
Qed.

Lemma emits_write_out (P : Event -> Prop) entry c :
  (forall a d, P (EvWrite16 a d)) -> (forall a d, P (EvWrite32 a d)) ->
  emits P c (state_of (write_out emu_regs entry c)).
Proof.
  intros H16 H32. rewrite write_out_cases.
  destruct (config_supported emu_regs); cbn [state_of];
    [now apply emits_write_lines | apply emits_refl].
Qed.

(** What an event of the tile of [entry] can be: a tag resolution at the
    origin of the tile, in a mode a pass of the entry resolves in, or a
    store of the write-out. *)
Definition tile_event (entry : RegionArrayEntry) (e : Event) : Prop :=
  match e with
  | EvParamTags mode l t =>
      l = tilex (control entry) * 32 /\ t = tiley (control entry) * 32 /\
      match mode with
      | RM_OPAQUE => True
      | RM_PUNCHTHROUGH_PASS0 => empty (puncht entry) = 0
      | RM_PUNCHTHROUGH_MV =>
          empty (puncht entry) = 0 /\ empty (opaque_mod entry) = 0
      | RM_TRANSLUCENT_AUTOSORT =>
          empty (trans entry) = 0 /\ pre_sort (control entry) = 0
      | RM_TRANSLUCENT_PRESORT =>
          empty (trans entry) = 0 /\ pre_sort (control entry) <> 0
      | RM_PUNCHTHROUGH_PASSN | RM_MODIFIER => False
      end
  | EvWrite16 _ _ | EvWrite32 _ _ => no_writeout (control entry) = 0
  end.

Lemma emits_RenderTile fuel entry c :
  emits (tile_event entry) c (state_of (RenderTile emu_regs fuel entry c)).
Proof.
  unfold RenderTile. cbv zeta.
  assert (Hop : tile_event entry
            (EvParamTags RM_OPAQUE (left (tile_rect entry)) (top (tile_rect entry))))
    by (cbn; auto).
  eapply emits_bind_at; [apply emits_opaque_lists | | intros c1].
  { unfold tile_clear. cbv zeta.
    destruct (z_keep (control entry) =? 0); emit_steps. }
  eapply emits_bind_at; [| apply emits_RenderParamTags; exact Hop | intros c2].
  { destruct (Z.eqb_spec (empty (puncht entry)) 0) as [He | He];
      [| apply emits_refl].
    apply emits_punchthrough_pass; cbn; auto. }
  eapply emits_bind_at; [| apply emits_refl | intros c3].
  { destruct (Z.eqb_spec (empty (trans entry)) 0) as [He | He];
      [| apply emits_refl].
    apply emits_translucent_pass; cbn; auto. }
  destruct (Z.eqb_spec (no_writeout (control entry)) 0) as [Hw | Hw];
    [| apply emits_refl].
  apply emits_write_out; intros a d; exact Hw.
Qed.

End Walker.

(** Not a tag resolution of a punch-through pass. *)
Definition no_punchthrough (e : Event) : Prop :=
  match e with
  | EvParamTags RM_PUNCHTHROUGH_PASS0 _ _
  | EvParamTags RM_PUNCHTHROUGH_PASSN _ _
  | EvParamTags RM_PUNCHTHROUGH_MV _ _ => False
  | _ => True
  end.

Section Frame.
Context {B : Backend}.
Variable emu_regs : RegFile.

Lemma emits_weaken (P Q : Event -> Prop) (c c' : Core) :
  (forall e, P e -> Q e) -> emits P c c' -> emits Q c c'.
Proof.
  intros H (l & Ht & Hl). exists l. split; [exact Ht |].
  revert Hl. now apply Forall_impl.
Qed.

Lemma tile_event_no_punchthrough entry e :
  empty (puncht entry) <> 0 -> tile_event entry e -> no_punchthrough e.
Proof.
  intros He. destruct e as [[] l t | a d | a d]; cbn; tauto.
Qed.

Lemma emits_RenderCORE_loop fuel : forall base c,
  region_header_type emu_regs = 0 ->
  emits no_punchthrough c (state_of (RenderCORE_loop emu_regs fuel base c)).
Proof.
  induction fuel as [| fuel IH]; intros base c Hfmt;
    cbn [RenderCORE_loop]; [apply emits_refl |].
  pose proof (emits_RenderTile emu_regs fuel
                (fst (ReadRegionArrayEntry emu_regs (vram c) base)) c) as Ht.
  assert (Hp : empty (puncht (fst (ReadRegionArrayEntry emu_regs (vram c) base)))
               <> 0).
  { unfold ReadRegionArrayEntry. cbv zeta. rewrite Hfmt. cbn. discriminate. }
  destruct (ReadRegionArrayEntry emu_regs (vram c) base) as [entry step].
  cbn [fst] in Ht, Hp.
  eapply emits_bind_at; [| apply emits_refl | intros c1].
  - revert Ht. apply emits_weaken. intros e. now apply tile_event_no_punchthrough.
  - destruct (last_region (control entry) =? 0);
      [now apply IH | apply emits_refl].
Qed.

End Frame.

End EventFacts.

(** ** The instruction words and the packed samples of the DSP *)

Module DspFacts.
Import Word AicaDsp Exhaust.

(** The fields of an instruction are within their widths. *)
Definition INST_valid (i : INST) : Prop :=
  (0 <= TRA i < 2 ^ 7 /\ 0 <= TWT i < 2 ^ 1 /\ 0 <= TWA i < 2 ^ 7) /\
  (0 <= XSEL i < 2 ^ 1 /\ 0 <= YSEL i < 2 ^ 2 /\ 0 <= IRA i < 2 ^ 6 /\
   0 <= IWT i < 2 ^ 1 /\ 0 <= IWA i < 2 ^ 5) /\
  (0 <= TABLE i < 2 ^ 1 /\ 0 <= MWT i < 2 ^ 1 /\ 0 <= MRD i < 2 ^ 1 /\
   0 <= EWT i < 2 ^ 1 /\ 0 <= EWA i < 2 ^ 4 /\ 0 <= ADRL i < 2 ^ 1 /\
   0 <= FRCL i < 2 ^ 1 /\ 0 <= SHIFT i < 2 ^ 2 /\ 0 <= YRL i < 2 ^ 1 /\
   0 <= NEGB i < 2 ^ 1 /\ 0 <= ZERO i < 2 ^ 1 /\ 0 <= BSEL i < 2 ^ 1) /\
  (0 <= NOFL i < 2 ^ 1 /\ 0 <= MASA i < 2 ^ 6 /\ 0 <= ADREB i < 2 ^ 1 /\
   0 <= NXADR i < 2 ^ 1).

Lemma field_arith w lsb k :
  0 <= lsb -> 0 <= k -> field w lsb (Z.ones k) = (w / 2 ^ lsb) mod 2 ^ k.
Proof. intros Hl Hk. unfold field. now rewrite Z.land_ones, Z.shiftr_div_pow2. Qed.

Lemma put_arith w v k lsb :
  0 <= lsb -> 0 <= k -> lsb + k <= 32 -> 0 <= v < 2 ^ k ->
  w mod 2 ^ (lsb + k) = 0 ->
  put w v (Z.ones k) lsb = w + v * 2 ^ lsb.
Proof.
  intros Hl Hk Hlk Hv Hmod. unfold put.
  rewrite Z.land_ones, Z.mod_small, Z.shiftl_mul_pow2 by lia.
  assert (Hb : 0 <= v * 2 ^ lsb < 2 ^ (lsb + k)).
  { rewrite Z.pow_add_r by lia. pose proof (Z.pow_pos_nonneg 2 lsb ltac:(lia) Hl).
    nia. }
  rewrite u32_small.
  2:{ split; [lia |]. eapply Z.lt_le_trans; [apply Hb |].
      apply Z.pow_le_mono_r; lia. }
  rewrite Z.lor_comm.
  assert (Hw : w = w / 2 ^ (lsb + k) * 2 ^ (lsb + k)).
  { pose proof (Z.pow_pos_nonneg 2 (lsb + k) ltac:(lia) ltac:(lia)).
    pose proof (Z.div_mod w (2 ^ (lsb + k)) ltac:(lia)). lia. }
  set (q := w / 2 ^ (lsb + k)) in Hw. clearbody q. subst w.
  rewrite lor_disjoint_low by lia. lia.
Qed.

Ltac put_step :=
  match goal with
  | |- context [put ?w ?v ?m ?l] =>
      lazymatch w with
      | context [put _ _ _ _] => fail
      | _ =>
        let k := eval cbv in (Z.log2 (m + 1)) in
        change (put w v m l) with (put w v (Z.ones k) l);
        rewrite (put_arith w v k l);
        [ | lia | lia | lia | lia
          | let n := eval cbv in (2 ^ (l + k)) in
            change (2 ^ (l + k)) with n;
            Z.to_euclidean_division_equations; lia ]
      end
  end.

Ltac field_step :=
  match goal with
  | |- field ?w ?l ?m = _ =>
      let k := eval cbv in (Z.log2 (m + 1)) in
      change (field w l m) with (field w l (Z.ones k));
      rewrite (field_arith w l k) by lia;
      Z.to_euclidean_division_equations; lia
  end.

Lemma word0_arith a b c :
  0 <= a < 2 ^ 7 -> 0 <= b < 2 ^ 1 -> 0 <= c < 2 ^ 7 ->
  put (put (put 0 a 0x7F 9) b 0x01 8) c 0x7F 1 = a * 2 ^ 9 + b * 2 ^ 8 + c * 2.
Proof. intros. repeat put_step. lia. Qed.

Lemma word1_arith a b c d e :
  0 <= a < 2 ^ 1 -> 0 <= b < 2 ^ 2 -> 0 <= c < 2 ^ 6 -> 0 <= d < 2 ^ 1 ->
  0 <= e < 2 ^ 5 ->
  put (put (put (put (put 0 a 0x01 15) b 0x03 13) c 0x3F 7) d 0x01 6)
      e 0x1F 1 =
  a * 2 ^ 15 + b * 2 ^ 13 + c * 2 ^ 7 + d * 2 ^ 6 + e * 2.
Proof. intros. repeat put_step. lia. Qed.

Lemma word2_arith a b c d e f g h i j k l :
  0 <= a < 2 ^ 1 -> 0 <= b < 2 ^ 1 -> 0 <= c < 2 ^ 1 -> 0 <= d < 2 ^ 1 ->
  0 <= e < 2 ^ 4 -> 0 <= f < 2 ^ 1 -> 0 <= g < 2 ^ 1 -> 0 <= h < 2 ^ 2 ->
  0 <= i < 2 ^ 1 -> 0 <= j < 2 ^ 1 -> 0 <= k < 2 ^ 1 -> 0 <= l < 2 ^ 1 ->
  put (put (put (put (put (put (put (put (put (put (put (put 0
      a 0x01 15) b 0x01 14) c 0x01 13) d 0x01 12) e 0x0F 8) f 0x01 7)
      g 0x01 6) h 0x03 4) i 0x01 3) j 0x01 2) k 0x01 1) l 0x01 0 =
  a * 2 ^ 15 + b * 2 ^ 14 + c * 2 ^ 13 + d * 2 ^ 12 + e * 2 ^ 8 +
  f * 2 ^ 7 + g * 2 ^ 6 + h * 2 ^ 4 + i * 2 ^ 3 + j * 2 ^ 2 + k * 2 + l.
Proof. intros. repeat put_step. lia. Qed.

Lemma word3_arith a b c d :
  0 <= a < 2 ^ 1 -> 0 <= b < 2 ^ 6 -> 0 <= c < 2 ^ 1 -> 0 <= d < 2 ^ 1 ->
  put (put (put (put 0 a 0x01 15) b 0x3f 9) c 0x01 8) d 0x01 7 =
  a * 2 ^ 15 + b * 2 ^ 9 + c * 2 ^ 8 + d * 2 ^ 7.
Proof. intros. repeat put_step. lia. Qed.

(** Decoding the words of an encoded instruction gives it back. *)
Lemma decode_encode i :
  INST_valid i ->
  let '(w0, w1, w2, w3) := EncodeInst i in DecodeInst w0 w1 w2 w3 = i.
Proof.
  destruct i. unfold INST_valid.
  cbn [TRA TWT TWA XSEL YSEL IRA IWT IWA EWT EWA ADRL FRCL SHIFT YRL NEGB
       ZERO BSEL NOFL TABLE MWT MRD MASA ADREB NXADR].
  intros (H0 & H1 & H2 & H3).
  unfold EncodeInst.
  cbn [TRA TWT TWA XSEL YSEL IRA IWT IWA EWT EWA ADRL FRCL SHIFT YRL NEGB
       ZERO BSEL NOFL TABLE MWT MRD MASA ADREB NXADR].
  cbv zeta.
  rewrite word0_arith, word1_arith, word2_arith, word3_arith by tauto.
  unfold DecodeInst.
  assert (E : forall a a' b b' c c' d d' e e' f f' g g' h h' i i' j j' k k' l l'
                m m' n n' o o' p p' q q' r r' s s' t t' u u' v v' w w' x x',
    a = a' -> b = b' -> c = c' -> d = d' -> e = e' -> f = f' -> g = g' ->
    h = h' -> i = i' -> j = j' -> k = k' -> l = l' -> m = m' -> n = n' ->
    o = o' -> p = p' -> q = q' -> r = r' -> s = s' -> t = t' -> u = u' ->
    v = v' -> w = w' -> x = x' ->
    mkINST a b c d e f g h i j k l m n o p q r s t u v w x =
    mkINST a' b' c' d' e' f' g' h' i' j' k' l' m' n' o' p' q' r' s' t' u' v' w' x').
  { intros. now subst. }
  apply E.
  all: field_step.
Qed.

(** [w & (ones << l)] *)
Lemma land_shifted_ones w k l :
  0 <= k -> 0 <= l ->
  Z.land w (Z.shiftl (Z.ones k) l) = (w / 2 ^ l) mod 2 ^ k * 2 ^ l.
Proof.
  intros Hk Hl. apply Z.bits_inj'. intros n Hn.
  rewrite Z.land_spec, Z.shiftl_spec by assumption.
  destruct (Z_lt_ge_dec n l) as [Hlt | Hge].
  - rewrite Z.mul_pow2_bits_low by lia.
    rewrite (Z.testbit_neg_r _ (n - l)) by lia. apply andb_false_r.
  - rewrite Z.mul_pow2_bits by lia.
    destruct (Z_lt_ge_dec (n - l) k) as [Hlt' | Hge'].
    + rewrite Z.ones_spec_low, Z.mod_pow2_bits_low by lia.
      rewrite Z.div_pow2_bits by lia.
      rewrite andb_true_r. f_equal. lia.
    + rewrite Z.ones_spec_high, Z.mod_pow2_bits_high by lia.
      apply andb_false_r.
Qed.

(** Encoding the instruction decoded from four words keeps the bits of the
    words that belong to a field. *)
Lemma encode_decode w0 w1 w2 w3 :
  EncodeInst (DecodeInst w0 w1 w2 w3) =
  (Z.land w0 0xFFFE, Z.land w1 0xFFFE, Z.land w2 0xFFFF, Z.land w3 0xFF80).
Proof.
  unfold EncodeInst, DecodeInst.
  cbn [TRA TWT TWA XSEL YSEL IRA IWT IWA EWT EWA ADRL FRCL SHIFT YRL NEGB
       ZERO BSEL NOFL TABLE MWT MRD MASA ADREB NXADR].
  cbv zeta.
  repeat match goal with
  | |- context [field ?w ?l ?m] =>
      let k := eval cbv in (Z.log2 (m + 1)) in
      change (field w l m) with (field w l (Z.ones k));
      rewrite (field_arith w l k) by lia
  end.
  rewrite word0_arith, word1_arith, word2_arith, word3_arith
    by (apply Z.mod_pos_bound; lia).
  change 0xFFFE with (Z.shiftl (Z.ones 15) 1).
  change 0xFFFF with (Z.shiftl (Z.ones 16) 0).
  change 0xFF80 with (Z.shiftl (Z.ones 9) 7).
  rewrite !land_shifted_ones by lia.
  assert (E : forall a a' b b' c c' d d' : Z,
    a = a' -> b = b' -> c = c' -> d = d' -> (a, b, c, d) = (a', b', c', d')).
  { intros. now subst. }
  apply E; Z.to_euclidean_division_equations; lia.
Qed.

End DspFacts.

(** ** The packed samples of the DSP *)

Module PackFacts.
Import Word AicaDsp Exhaust.

(** The loop of [PACK] read on the bits of a word: it looks at bit [pos],
    then at the bits below it. *)
Fixpoint count (n : nat) (bit : Z -> bool) (pos e : Z) : Z :=
  match n with
  | O => e
  | S n' => if bit pos then e else count n' bit (pos - 1) (e + 1)
  end.

Lemma test_bit23 t : negb (Z.land t 0x800000 =? 0) = Z.testbit t 23.
Proof.
  assert (H : Z.land t 0x800000 = if Z.testbit t 23 then 2 ^ 23 else 0).
  { apply Z.bits_inj'. intros n Hn. rewrite Z.land_spec.
    change 0x800000 with (2 ^ 23). rewrite Z.pow2_bits_eqb by lia.
    destruct (Z.eqb_spec 23 n) as [<- | Hne].
    - rewrite andb_true_r. destruct (Z.testbit t 23).
      + now rewrite Z.pow2_bits_true.
      + now rewrite Z.bits_0.
    - rewrite andb_false_r. destruct (Z.testbit t 23).
      + now rewrite Z.pow2_bits_false.
      + now rewrite Z.bits_0. }
  rewrite H. now destruct (Z.testbit t 23).
Qed.

Lemma PACK_loop_count n : forall t k e,
  0 <= k -> Z.of_nat n + k <= 24 ->
  PACK_loop n (u32 (t * 2 ^ k)) e = count n (Z.testbit t) (23 - k) e.
Proof.
  induction n as [| n IH]; intros t k e Hk Hn; [reflexivity |].
  cbn [PACK_loop count]. rewrite test_bit23.
  unfold u32 at 1. rewrite Z.mod_pow2_bits_low, Z.mul_pow2_bits by lia.
  destruct (Z.testbit t (23 - k)); [reflexivity |].
  replace (u32 (Z.shiftl (u32 (t * 2 ^ k)) 1)) with (u32 (t * 2 ^ (k + 1))).
  - rewrite IH by lia. f_equal. lia.
  - unfold u32. rewrite Z.shiftl_mul_pow2 by lia.
    rewrite Z.mul_mod_idemp_l by lia.
    rewrite Z.pow_add_r by lia. f_equal. lia.
Qed.

Lemma count_ext n : forall b b' pos e,
  (forall i, pos - Z.of_nat n < i <= pos -> b i = b' i) ->
  count n b pos e = count n b' pos e.
Proof.
  induction n as [| n IH]; intros b b' pos e H; [reflexivity |].
  cbn [count]. rewrite (H pos) by lia.
  destruct (b' pos); [reflexivity |]. apply IH. intros i Hi. apply H. lia.
Qed.

Lemma s32_testbit x i : 0 <= i < 32 -> Z.testbit (s32 x) i = Z.testbit x i.
Proof.
  intros Hi.
  rewrite <- (Z.mod_pow2_bits_low (s32 x) 32 i), <- (Z.mod_pow2_bits_low x 32 i)
    by lia.
  f_equal. unfold s32. Z.to_euclidean_division_equations. lia.
Qed.

(** The exponent found by [PACK], from the bits 11 and above of the value. *)
Definition exponent_of (hi : Z) : Z :=
  count 12 (fun i => xorb (Z.testbit hi (i - 11)) (Z.testbit hi (i - 12))) 23 0.

Lemma PACK_exponent v :
  PACK_loop 12 (u32 (Z.land (Z.lxor v (shl32 v 1)) 0xFFFFFF)) 0 =
  exponent_of (v / 2 ^ 11).
Proof.
  rewrite <- (Z.mul_1_r (Z.land _ 0xFFFFFF)). change 1 with (2 ^ 0) at 2.
  rewrite PACK_loop_count by lia. unfold exponent_of.
  apply count_ext. intros i Hi.
  change 0xFFFFFF with (Z.ones 24).
  rewrite Z.land_spec, Z.ones_spec_low, andb_true_r by lia.
  rewrite Z.lxor_spec. unfold shl32.
  rewrite s32_testbit, Z.shiftl_spec by lia.
  rewrite !Z.div_pow2_bits by lia.
  f_equal; f_equal; lia.
Qed.

(** The values that have a given exponent. *)
Definition class_ok (hi : Z) : bool :=
  let e := exponent_of hi in
  let lo := hi * 2048 in
  let up := hi * 2048 + 2047 in
  (0 <=? e) && (e <=? 12) &&
  (if e <? 12 then
     if hi <? 0 then (- 2 ^ (23 - e) <=? lo) && (up <? - 2 ^ (22 - e))
     else (2 ^ (22 - e) <=? lo) && (up <? 2 ^ (23 - e))
   else (-1 <=? hi) && (hi <=? 0)).

Lemma class_checked : forall_below 8192 (fun k => class_ok (k - 4096)) = true.
Proof. vm_cast_no_check (@eq_refl bool true). Qed.

Lemma class_facts v :
  - 2 ^ 23 <= v < 2 ^ 23 ->
  let e := exponent_of (v / 2 ^ 11) in
  0 <= e <= 12 /\
  (e < 12 ->
     (v < 0 -> - 2 ^ (23 - e) <= v < - 2 ^ (22 - e)) /\
     (0 <= v -> 2 ^ (22 - e) <= v < 2 ^ (23 - e))) /\
  (e = 12 -> - 2048 <= v < 2048).
Proof.
  intros Hv e.
  assert (Hhi : 0 <= v / 2 ^ 11 + 4096 < 8192)
    by (Z.to_euclidean_division_equations; lia).
  pose proof (forall_below_spec _ _ class_checked _ Hhi) as H.
  cbv beta in H. replace (v / 2 ^ 11 + 4096 - 4096) with (v / 2 ^ 11) in H by lia.
  unfold class_ok in H. cbv zeta in H. fold e in H.
  assert (Hlo : v / 2 ^ 11 * 2048 <= v <= v / 2 ^ 11 * 2048 + 2047)
    by (Z.to_euclidean_division_equations; lia).
  assert (Hs : v < 0 <-> v / 2 ^ 11 < 0)
    by (Z.to_euclidean_division_equations; lia).
  apply andb_true_iff in H. destruct H as [H0 H].
  apply andb_true_iff in H0. destruct H0 as [H0 H1].
  apply Z.leb_le in H0, H1.
  split; [lia |].
  destruct (Z.ltb_spec e 12) as [He | He].
  - split; [| lia]. intros _.
    destruct (Z.ltb_spec (v / 2 ^ 11) 0) as [Hneg | Hpos];
      apply andb_true_iff in H; destruct H as [Ha Hb];
      apply Z.leb_le in Ha; apply Z.ltb_lt in Hb; split; lia.
  - split; [lia |]. intros _.
    apply andb_true_iff in H. destruct H as [Ha Hb].
    apply Z.leb_le in Ha, Hb. lia.
Qed.


Lemma sign_bit v :
  - 2 ^ 23 <= v < 2 ^ 23 ->
  Z.land (Z.shiftr v 23) 0x1 = if v <? 0 then 1 else 0.
Proof.
  intros Hv.
  change (Z.land (Z.shiftr v 23) 0x1) with (Z.land (Z.shiftr v 23) (Z.ones 1)).
  rewrite Z.land_ones, Z.shiftr_div_pow2 by lia.
  destruct (Z.ltb_spec v 0); cbv iota; Z.to_euclidean_division_equations; lia.
Qed.

(** The last three lines of [PACK] on a mantissa. *)
Lemma pack_tail m s e :
  0 <= m < 2 ^ 11 -> 0 <= s <= 1 -> 0 <= e <= 15 ->
  Z.lor (Z.lor m (Z.shiftl s 15)) (Z.shiftl e 11) mod 2 ^ 16 =
  m + (16 * s + e) * 2 ^ 11.
Proof.
  intros Hm Hs He.
  rewrite <- Z.lor_assoc.
  replace (Z.shiftl s 15) with (Z.shiftl (Z.shiftl s 4) 11)
    by (rewrite Z.shiftl_shiftl by lia; reflexivity).
  rewrite <- Z.shiftl_lor, (Z.lor_comm _ e), !Z.shiftl_mul_pow2 by lia.
  rewrite (lor_disjoint_low e s 4) by lia.
  rewrite (lor_disjoint_low m _ 11) by lia.
  rewrite Z.mod_small by lia. lia.
Qed.

Ltac pow_consts :=
  repeat match goal with
  | H : context [2 ^ (?a - ?b)] |- _ =>
      let n := eval cbv in (2 ^ (a - b)) in change (2 ^ (a - b)) with n in H
  end.

Ltac exponent_cases e He :=
  assert (He : e = 0 \/ e = 1 \/ e = 2 \/ e = 3 \/ e = 4 \/ e = 5 \/ e = 6 \/
               e = 7 \/ e = 8 \/ e = 9 \/ e = 10 \/ e = 11) by lia;
  destruct He as [He | [He | [He | [He | [He | [He | [He | [He | [He | [He |
                    [He | He]]]]]]]]]]]; subst e.

(** [PACK] of a value whose exponent is below 12. *)
Lemma PACK_normal v :
  - 2 ^ 23 <= v < 2 ^ 23 ->
  let e := exponent_of (v / 2 ^ 11) in
  e < 12 ->
  PACK v =
  (v * 2 ^ e) mod 2 ^ 22 / 2 ^ 11 + (16 * (if v <? 0 then 1 else 0) + e) * 2 ^ 11.
Proof.
  intros Hv e He.
  destruct (class_facts v Hv) as (Hr & Hc & _). fold e in Hr, Hc.
  specialize (Hc He).
  unfold PACK. cbv zeta. rewrite PACK_exponent. fold e.
  destruct (Z.ltb_spec e 12) as [_ | ?]; [| lia].
  rewrite sign_bit by assumption.
  assert (Hsh : shl32 v e = v * 2 ^ e).
  { unfold shl32, s32. rewrite Z.shiftl_mul_pow2 by lia.
    clearbody e. exponent_cases e He'; pow_consts;
      destruct (Z.ltb_spec v 0);
      Z.to_euclidean_division_equations; lia. }
  rewrite Hsh. change 0x3FFFFF with (Z.ones 22).
  rewrite Z.land_ones, Z.shiftr_div_pow2 by lia.
  apply pack_tail.
  - Z.to_euclidean_division_equations; lia.
  - destruct (v <? 0); lia.
  - lia.
Qed.

(** [UNPACK] of a word whose exponent field is at most 11. *)
Lemma UNPACK_normal m s e :
  0 <= m < 2 ^ 11 -> 0 <= s <= 1 -> 0 <= e <= 11 ->
  UNPACK (m + (16 * s + e) * 2 ^ 11) =
  (if s =? 0 then m + 2048 else m - 4096) * 2048 / 2 ^ e.
Proof.
  intros Hm Hs He. unfold UNPACK.
  set (w := m + (16 * s + e) * 2 ^ 11).
  change (Z.land (Z.shiftr w 15) 0x1) with (Z.land (Z.shiftr w 15) (Z.ones 1)).
  change (Z.land (Z.shiftr w 11) 0xF) with (Z.land (Z.shiftr w 11) (Z.ones 4)).
  change (Z.land w 0x7FF) with (Z.land w (Z.ones 11)).
  rewrite !Z.land_ones, !Z.shiftr_div_pow2 by lia.
  subst w.
  replace ((m + (16 * s + e) * 2 ^ 11) / 2 ^ 15 mod 2 ^ 1) with s
    by (Z.to_euclidean_division_equations; lia).
  replace ((m + (16 * s + e) * 2 ^ 11) / 2 ^ 11 mod 2 ^ 4) with e
    by (Z.to_euclidean_division_equations; lia).
  replace ((m + (16 * s + e) * 2 ^ 11) mod 2 ^ 11) with m
    by (Z.to_euclidean_division_equations; lia).
  destruct (Z.gtb_spec e 11) as [? | _]; [lia |].
  unfold shl32, s32. rewrite !Z.shiftl_mul_pow2 by lia.
  assert (Hs' : s = 0 \/ s = 1) by lia.
  destruct Hs' as [-> | ->].
  - change (Z.lxor 0 1 * 2 ^ 22) with (1 * 2 ^ 22). change (0 * 2 ^ 23) with 0.
    rewrite Z.lor_0_r.
    rewrite (lor_disjoint_low (m * 2 ^ 11) 1 22) by lia.
    rewrite !Z.shiftr_div_pow2 by lia.
    change (0 =? 0) with true. cbv iota.
    f_equal. Z.to_euclidean_division_equations; lia.
  - change (Z.lxor 1 1 * 2 ^ 22) with 0.
    rewrite Z.lor_0_r.
    rewrite (lor_disjoint_low (m * 2 ^ 11) 1 23) by lia.
    rewrite !Z.shiftr_div_pow2 by lia.
    change (1 =? 0) with false. cbv iota.
    f_equal. Z.to_euclidean_division_equations; lia.
Qed.


Ltac pow_goal :=
  repeat match goal with
  | |- context [2 ^ (?a - ?b)] =>
      let n := eval cbv in (2 ^ (a - b)) in change (2 ^ (a - b)) with n
  end.

(** A value whose exponent is below 12 comes back from [PACK] and [UNPACK]
    with its low [11 - exponent] bits cleared. *)
Lemma UNPACK_PACK_normal v :
  - 2 ^ 23 <= v < 2 ^ 23 ->
  let e := exponent_of (v / 2 ^ 11) in
  e < 12 ->
  UNPACK (PACK v) = v / 2 ^ (11 - e) * 2 ^ (11 - e).
Proof.
  intros Hv e He.
  destruct (class_facts v Hv) as (Hr & Hc & _). fold e in Hr, Hc.
  specialize (Hc He).
  rewrite (PACK_normal v Hv He). fold e.
  rewrite UNPACK_normal.
  2:{ Z.to_euclidean_division_equations; lia. }
  2:{ destruct (v <? 0); lia. }
  2:{ lia. }
  clearbody e. exponent_cases e He'; pow_consts; pow_goal;
    (destruct (Z.ltb_spec v 0);
     [ change (1 =? 0) with false | change (0 =? 0) with true ];
     cbv iota; Z.to_euclidean_division_equations; lia).
Qed.

(** The values of exponent 12, one by one. *)
Definition small_ok (v : Z) : bool :=
  (exponent_of (v / 2 ^ 11) =? 12) &&
  (PACK v =? if v <? 0 then v + 0x10000 else v + 0x6000) &&
  (UNPACK (PACK v) =? if v <? 0 then v - 2048 else v).

Lemma small_checked : forall_below 4096 (fun k => small_ok (k - 2048)) = true.
Proof. vm_cast_no_check (@eq_refl bool true). Qed.

Lemma small_facts v :
  - 2048 <= v < 2048 ->
  exponent_of (v / 2 ^ 11) = 12 /\
  PACK v = (if v <? 0 then v + 0x10000 else v + 0x6000) /\
  UNPACK (PACK v) = (if v <? 0 then v - 2048 else v).
Proof.
  intros Hv.
  pose proof (forall_below_spec _ _ small_checked (v + 2048) ltac:(lia)) as H.
  cbv beta in H. replace (v + 2048 - 2048) with v in H by lia.
  unfold small_ok in H.
  apply andb_true_iff in H. destruct H as [H H2].
  apply andb_true_iff in H. destruct H as [H0 H1].
  apply Z.eqb_eq in H0, H1, H2. split; [exact H0 |]. split; assumption.
Qed.


(** The exponent of a value, from the powers of two around it. *)
Lemma exponent_unique v e :
  0 <= e <= 11 ->
  2 ^ (22 - e) <= v < 2 ^ (23 - e) \/ - 2 ^ (23 - e) <= v < - 2 ^ (22 - e) ->
  - 2 ^ 23 <= v < 2 ^ 23 /\ exponent_of (v / 2 ^ 11) = e.
Proof.
  intros He Hb.
  assert (Hlow : 2 ^ 11 <= 2 ^ (22 - e)) by (apply Z.pow_le_mono_r; lia).
  assert (Hup : 2 ^ (23 - e) <= 2 ^ 23) by (apply Z.pow_le_mono_r; lia).
  assert (Hv : - 2 ^ 23 <= v < 2 ^ 23) by lia.
  split; [exact Hv |].
  destruct (class_facts v Hv) as (Hr & Hc & H12).
  set (e' := exponent_of (v / 2 ^ 11)) in *.
  destruct (Z.eq_dec e' 12) as [E | E]; [specialize (H12 E); lia |].
  destruct (Hc ltac:(lia)) as [Hneg Hpos].
  assert (L : forall x a b, 0 <= a -> 0 <= b ->
            2 ^ a <= x < 2 ^ (a + 1) -> 2 ^ b <= x < 2 ^ (b + 1) -> a = b).
  { intros x a b Ha Hb' Hxa Hxb.
    rewrite <- (Z.log2_unique x a Ha Hxa). now apply Z.log2_unique. }
  replace (23 - e) with (22 - e + 1) in * by lia.
  replace (23 - e') with (22 - e' + 1) in * by lia.
  destruct Hb as [Hb | Hb].
  - specialize (Hpos ltac:(lia)).
    pose proof (L v (22 - e') (22 - e) ltac:(lia) ltac:(lia) Hpos Hb). lia.
  - specialize (Hneg ltac:(lia)).
    pose proof (L (- v - 1) (22 - e') (22 - e) ltac:(lia) ltac:(lia)
                  ltac:(lia) ltac:(lia)). lia.
Qed.

Lemma UNPACK_exact m s e :
  0 <= m < 2 ^ 11 -> 0 <= s <= 1 -> 0 <= e <= 11 ->
  UNPACK (m + (16 * s + e) * 2 ^ 11) =
  (if s =? 0 then m + 2048 else m - 4096) * 2 ^ (11 - e).
Proof.
  intros Hm Hs He. rewrite UNPACK_normal by assumption.
  replace 2048 with (2 ^ (11 - e) * 2 ^ e) at 2.
  - rewrite Z.mul_assoc, Z.div_mul; [reflexivity |].
    apply Z.pow_nonzero; lia.
  - rewrite <- Z.pow_add_r by lia. now replace (11 - e + e) with 11 by lia.
Qed.

(** [UNPACK] of a word whose exponent field is above 11. *)
Lemma UNPACK_denormal m s e :
  0 <= m < 2 ^ 11 -> 0 <= s <= 1 -> 12 <= e <= 15 ->
  UNPACK (m + (16 * s + e) * 2 ^ 11) = m - 4096 * s.
Proof.
  intros Hm Hs He. unfold UNPACK.
  set (w := m + (16 * s + e) * 2 ^ 11).
  change (Z.land (Z.shiftr w 15) 0x1) with (Z.land (Z.shiftr w 15) (Z.ones 1)).
  change (Z.land (Z.shiftr w 11) 0xF) with (Z.land (Z.shiftr w 11) (Z.ones 4)).
  change (Z.land w 0x7FF) with (Z.land w (Z.ones 11)).
  rewrite !Z.land_ones, !Z.shiftr_div_pow2 by lia.
  subst w.
  replace ((m + (16 * s + e) * 2 ^ 11) / 2 ^ 15 mod 2 ^ 1) with s
    by (Z.to_euclidean_division_equations; lia).
  replace ((m + (16 * s + e) * 2 ^ 11) / 2 ^ 11 mod 2 ^ 4) with e
    by (Z.to_euclidean_division_equations; lia).
  replace ((m + (16 * s + e) * 2 ^ 11) mod 2 ^ 11) with m
    by (Z.to_euclidean_division_equations; lia).
  destruct (Z.gtb_spec e 11) as [_ | ?]; [| lia].
  unfold shl32, s32. rewrite !Z.shiftl_mul_pow2 by lia.
  rewrite (lor_disjoint_low (m * 2 ^ 11) s 23) by lia.
  rewrite !Z.shiftr_div_pow2 by lia.
  assert (Hs' : s = 0 \/ s = 1) by lia.
  destruct Hs' as [-> | ->]; Z.to_euclidean_division_equations; lia.
Qed.

(** [PACK] gives back a word whose exponent field is at most 11. *)
Lemma PACK_UNPACK_normal m s e :
  0 <= m < 2 ^ 11 -> 0 <= s <= 1 -> 0 <= e <= 11 ->
  let w := m + (16 * s + e) * 2 ^ 11 in
  - 2 ^ 23 <= UNPACK w < 2 ^ 23 /\ PACK (UNPACK w) = w.
Proof.
  intros Hm Hs He w. subst w. rewrite UNPACK_exact by assumption.
  set (K := 2 ^ (11 - e)).
  assert (HK : 0 < K) by (apply Z.pow_pos_nonneg; lia).
  assert (E22 : 2 ^ (22 - e) = 2 ^ 11 * K).
  { unfold K. rewrite <- Z.pow_add_r by lia. f_equal. lia. }
  assert (E23 : 2 ^ (23 - e) = 2 ^ 12 * K).
  { unfold K. rewrite <- Z.pow_add_r by lia. f_equal. lia. }
  assert (EK : K * 2 ^ e = 2 ^ 11).
  { unfold K. rewrite <- Z.pow_add_r by lia. f_equal. lia. }
  set (X := if s =? 0 then m + 2048 else m - 4096).
  assert (HX : s = 0 /\ X = m + 2048 \/ s = 1 /\ X = m - 4096).
  { unfold X. destruct (Z.eqb_spec s 0); [left | right]; lia. }
  clearbody X.
  destruct (exponent_unique (X * K) e He) as [Hv Hexp].
  { rewrite E22, E23. destruct HX as [[_ ->] | [_ ->]]; [left | right]; nia. }
  split; [exact Hv |].
  pose proof (PACK_normal (X * K) Hv) as HP. cbv zeta in HP.
  rewrite Hexp in HP. rewrite (HP ltac:(lia)).
  replace (X * K * 2 ^ e) with (X * 2 ^ 11) by (rewrite <- EK; ring).
  destruct HX as [[-> ->] | [-> ->]].
  - destruct (Z.ltb_spec ((m + 2048) * K) 0) as [? | _]; [nia |].
    Z.to_euclidean_division_equations; lia.
  - destruct (Z.ltb_spec ((m - 4096) * K) 0) as [_ | ?]; [| nia].
    Z.to_euclidean_division_equations; lia.
Qed.

End PackFacts.

(** ** The interpreter of the DSP *)

Module InterpFacts.
Import Word AicaDsp.

(** Left and right shifts by a constant, as arithmetic. *)
Ltac shift_arith :=
  unfold shl32, s32, u32;
  rewrite ?Z.shiftl_mul_pow2, ?Z.shiftr_div_pow2 by lia.

(** [x <<= 8; x >>= 8] and the like: sign extension. *)
Lemma sext24_range x : - 2 ^ 23 <= Z.shiftr (shl32 x 8) 8 < 2 ^ 23.
Proof. shift_arith. Z.to_euclidean_division_equations. lia. Qed.

Lemma sext26_range x : - 2 ^ 25 <= Z.shiftr (shl32 x 6) 6 < 2 ^ 25.
Proof. shift_arith. Z.to_euclidean_division_equations. lia. Qed.

Lemma sext13_range x : - 2 ^ 12 <= Z.shiftr (shl32 x 19) 19 < 2 ^ 12.
Proof. shift_arith. Z.to_euclidean_division_equations. lia. Qed.

Lemma sext24_mod x :
  Z.shiftr (shl32 x 8) 8 = (x + 2 ^ 23) mod 2 ^ 24 - 2 ^ 23.
Proof. shift_arith. Z.to_euclidean_division_equations. lia. Qed.

Lemma sext26_mod x :
  Z.shiftr (shl32 x 6) 6 = (x + 2 ^ 25) mod 2 ^ 26 - 2 ^ 25.
Proof. shift_arith. Z.to_euclidean_division_equations. lia. Qed.

(** The two words of a [TEMP] or [MEMS] entry. *)
Lemma low_high_words v :
  0 <= Z.land v 0xFF < 2 ^ 8 /\ 0 <= Z.land (Z.shiftr v 8) 0xFFFF < 2 ^ 16 /\
  Z.lor (Z.land v 0xFF) (u32 (Z.shiftl (Z.land (Z.shiftr v 8) 0xFFFF) 8)) =
  v mod 2 ^ 24.
Proof.
  change 0xFF with (Z.ones 8). change 0xFFFF with (Z.ones 16).
  rewrite !Z.land_ones, Z.shiftr_div_pow2, Z.shiftl_mul_pow2 by lia.
  assert (H8 : 0 <= v mod 2 ^ 8 < 2 ^ 8) by (apply Z.mod_pos_bound; lia).
  assert (H16 : 0 <= (v / 2 ^ 8) mod 2 ^ 16 < 2 ^ 16)
    by (apply Z.mod_pos_bound; lia).
  split; [exact H8 |]. split; [exact H16 |].
  rewrite u32_small by lia.
  rewrite lor_disjoint_low by lia.
  Z.to_euclidean_division_equations. lia.
Qed.

Lemma s32_small x : - 2 ^ 31 <= x < 2 ^ 31 -> s32 x = x.
Proof. intros H. unfold s32. Z.to_euclidean_division_equations. lia. Qed.

Lemma store_pair_read reg a v :
  let reg' := PvrMem.store32 (PvrMem.store32 reg a (Z.land v 0xFF)) (a + 4)
                (Z.land (Z.shiftr v 8) 0xFFFF) in
  s32 (Z.lor (PvrMem.load32 reg' a) (u32 (Z.shiftl (PvrMem.load32 reg' (a + 4)) 8))) =
  v mod 2 ^ 24.
Proof.
  intros reg'. subst reg'.
  destruct (low_high_words v) as (Hl & Hh & E).
  rewrite MemFacts.load32_store32_other by lia.
  rewrite !MemFacts.load32_store32 by lia.
  rewrite E. apply s32_small.
  pose proof (Z.mod_pos_bound v (2 ^ 24) ltac:(lia)). lia.
Qed.

Lemma store_pair_other reg a v b :
  b + 4 <= a \/ a + 8 <= b ->
  PvrMem.load32 (PvrMem.store32 (PvrMem.store32 reg a (Z.land v 0xFF)) (a + 4)
                   (Z.land (Z.shiftr v 8) 0xFFFF)) b = PvrMem.load32 reg b.
Proof.
  intros H. rewrite !MemFacts.load32_store32_other by lia. reflexivity.
Qed.

Lemma GetTEMP_SetTEMP reg idx v :
  GetTEMP (SetTEMP reg idx v) idx = v mod 2 ^ 24.
Proof.
  unfold GetTEMP, SetTEMP, TEMP_h_at. cbv zeta. apply store_pair_read.
Qed.

Lemma GetMEMS_SetMEMS reg idx v :
  GetMEMS (SetMEMS reg idx v) idx = v mod 2 ^ 24.
Proof.
  unfold GetMEMS, SetMEMS, MEMS_h_at. cbv zeta. apply store_pair_read.
Qed.

Lemma GetTEMP_SetTEMP_other reg idx v j :
  j <> idx -> GetTEMP (SetTEMP reg idx v) j = GetTEMP reg j.
Proof.
  intros H. unfold GetTEMP, SetTEMP, TEMP_h_at, TEMP_l_at. cbv zeta.
  rewrite !store_pair_other by lia. reflexivity.
Qed.

Lemma GetMEMS_SetMEMS_other reg idx v j :
  j <> idx -> GetMEMS (SetMEMS reg idx v) j = GetMEMS reg j.
Proof.
  intros H. unfold GetMEMS, SetMEMS, MEMS_h_at, MEMS_l_at. cbv zeta.
  rewrite !store_pair_other by lia. reflexivity.
Qed.


(** *** One step *)

(** Names the bound value of the outermost [let] of the goal. *)
Ltac pull_let :=
  match goal with
  | |- context C [let x := ?e in @?b x] =>
      let y := fresh x in
      pose (y := e);
      let b' := eval cbv beta in (b y) in
      let g := context C [b'] in
      change g
  end.

Lemma store32_out v a d i :
  i < a \/ a + 4 <= i -> PvrMem.store32 v a d i = v i.
Proof.
  intros H. unfold PvrMem.store32, PvrMem.poke.
  repeat match goal with
  | |- context [?x =? ?y] => destruct (Z.eqb_spec x y); [lia |]
  end.
  reflexivity.
Qed.

Lemma store16_out v a d i :
  i <> a -> i <> a + 1 -> PvrMem.store16 v a d i = v i.
Proof.
  intros H H'. unfold PvrMem.store16, PvrMem.poke.
  repeat match goal with
  | |- context [?x =? ?y] => destruct (Z.eqb_spec x y); [lia |]
  end.
  reflexivity.
Qed.

Lemma field_range w lsb mask k :
  mask = Z.ones k -> 0 <= lsb -> 0 <= k -> 0 <= field w lsb mask < 2 ^ k.
Proof.
  intros -> Hl Hk. rewrite DspFacts.field_arith by assumption.
  apply Z.mod_pos_bound. apply Z.pow_pos_nonneg; lia.
Qed.

Lemma land127 x : 0 <= Z.land x 0x7F < 128.
Proof.
  change 0x7F with (Z.ones 7). rewrite Z.land_ones by lia.
  apply Z.mod_pos_bound. lia.
Qed.

Lemma SetMEMS_out reg idx v i :
  0 <= idx < 32 -> i < 0x4400 \/ 0x4500 <= i -> SetMEMS reg idx v i = reg i.
Proof.
  intros Hidx Hi. unfold SetMEMS, MEMS_h_at, MEMS_l_at. cbv zeta.
  rewrite !store32_out by lia. reflexivity.
Qed.

Lemma SetTEMP_out reg idx v i :
  0 <= idx < 128 -> i < 0x4000 \/ 0x4400 <= i -> SetTEMP reg idx v i = reg i.
Proof.
  intros Hidx Hi. unfold SetTEMP, TEMP_h_at, TEMP_l_at. cbv zeta.
  rewrite !store32_out by lia. reflexivity.
Qed.

(** The bytes of [aica_reg] a step can write: [TEMP], [MEMS], [EFREG]. *)
Definition writable (i : Z) : Prop :=
  0x4000 <= i < 0x4500 \/ 0x4580 <= i < 0x45C0.

(** The shape of a step: what it leaves alone. *)
Lemma Step_frame step d d' :
  Step step d = Some d' ->
  aram_mask d' = aram_mask d /\ MDEC_CT d' = MDEC_CT d /\
  (forall i, ~ writable i -> aica_reg d' i = aica_reg d i).
Proof.
  cbv delta [Step]. cbv beta. repeat pull_let.
  destruct (negb (IRA0 <? 56)); [discriminate |].
  match goal with
  | |- context [let '(a, b) := ?p in _] => destruct p as [ram1 MEMVAL1]
  end.
  repeat pull_let.
  intros H. apply (f_equal (fun o => match o with Some x => x | None => d end)) in H.
  subst d'. cbn [aram_mask MDEC_CT aica_reg].
  split; [reflexivity |]. split; [reflexivity |].
  intros i Hi. unfold writable in Hi.
  assert (H0 : reg0 i = reg i).
  { subst reg0. destruct (negb (IWT0 =? 0)); [| reflexivity]. cbv zeta.
    apply SetMEMS_out; [| lia].
    apply (field_range _ 1 0x1F 5); [reflexivity | lia | lia]. }
  assert (H1 : reg1 i = reg0 i).
  { subst reg1. destruct (negb (TWT0 =? 0)); [| reflexivity]. cbv zeta.
    apply SetTEMP_out; [apply land127 | lia]. }
  assert (H2 : reg2 i = reg1 i).
  { subst reg2. destruct (negb (EWT0 =? 0)); [| reflexivity].
    apply store32_out.
    pose proof (field_range (IPtr reg1 2) 8 0x0F 4 eq_refl ltac:(lia) ltac:(lia)) as HE.
    fold EWA0 in HE. unfold EFREG_at. lia. }
  rewrite H2, H1, H0. reflexivity.
Qed.


(** The [IRA] field of the instruction of a step. *)
Definition IRA_at (reg : Mem) (step : Z) : Z :=
  field (PvrMem.load32 reg (MPRO_at (step * 4 + 1))) 7 0x3F.

(** A step fails on its assertion only. *)
Lemma Step_None step d :
  Step step d = None <-> 0x38 <= IRA_at (aica_reg d) step.
Proof.
  unfold IRA_at.
  set (ira := field (PvrMem.load32 (aica_reg d) (MPRO_at (step * 4 + 1))) 7 0x3F).
  cbv delta [Step]. cbv beta. repeat pull_let.
  assert (HI : IRA0 = ira) by reflexivity.
  destruct (Z.ltb_spec IRA0 56) as [Hlt | Hge]; cbn [negb].
  - split; [| lia].
    match goal with
    | |- context [let '(a, b) := ?p in _] => destruct p as [ram1 MEMVAL1]
    end.
    discriminate.
  - split; [intros _; lia | reflexivity].
Qed.

(** A 32-bit word outside the bytes a step can write. *)
Lemma load32_frame (reg reg' : Mem) a :
  (forall i, ~ writable i -> reg' i = reg i) ->
  a + 4 <= 0x4000 \/ 0x4500 <= a /\ a + 4 <= 0x4580 \/ 0x45C0 <= a ->
  PvrMem.load32 reg' a = PvrMem.load32 reg a.
Proof.
  intros H Ha. unfold PvrMem.load32.
  rewrite !H by (unfold writable; lia). reflexivity.
Qed.

Lemma IRA_at_frame (reg reg' : Mem) step :
  (forall i, ~ writable i -> reg' i = reg i) ->
  0 <= step < 128 -> IRA_at reg' step = IRA_at reg step.
Proof.
  intros H Hs. unfold IRA_at.
  rewrite (load32_frame reg reg') by (assumption || (unfold MPRO_at; lia)).
  reflexivity.
Qed.

Lemma GetRBL_frame (reg reg' : Mem) :
  (forall i, ~ writable i -> reg' i = reg i) -> GetRBL reg' = GetRBL reg.
Proof.
  intros H. unfold GetRBL, RBL.
  rewrite (load32_frame reg reg') by (assumption || (unfold CommonData_4; lia)).
  reflexivity.
Qed.

Lemma GetRBL_cases reg :
  GetRBL reg = 8192 \/ GetRBL reg = 16384 \/ GetRBL reg = 32768 \/
  GetRBL reg = 65536.
Proof.
  unfold GetRBL.
  pose proof (bits_range 13 2 (PvrMem.load32 reg CommonData_4)
                ltac:(lia) ltac:(lia)) as H.
  fold (RBL reg) in H. change (2 ^ 2) with 4 in H.
  assert (Hc : RBL reg = 0 \/ RBL reg = 1 \/ RBL reg = 2 \/ RBL reg = 3) by lia.
  destruct Hc as [-> | [-> | [-> | ->]]]; cbn; tauto.
Qed.

(** *** The 128 steps *)

Lemma Step128_loop_frame n : forall step d d',
  Step128_loop n step d = Some d' ->
  aram_mask d' = aram_mask d /\ MDEC_CT d' = MDEC_CT d /\
  (forall i, ~ writable i -> aica_reg d' i = aica_reg d i).
Proof.
  induction n as [| n IH]; intros step d d' H; cbn [Step128_loop] in H.
  - apply (f_equal (fun o => match o with Some x => x | None => d end)) in H.
    subst d'. split; [reflexivity |]. split; reflexivity.
  - destruct (Step step d) as [d1 |] eqn:E; [| discriminate].
    destruct (Step_frame _ _ _ E) as (Ha & Hb & Hc).
    destruct (IH _ _ _ H) as (Ha' & Hb' & Hc').
    split; [congruence |]. split; [congruence |].
    intros i Hi. rewrite Hc', Hc by assumption. reflexivity.
Qed.

Lemma Step128_loop_None n : forall step d,
  0 <= step -> step + Z.of_nat n <= 128 ->
  (Step128_loop n step d = None <->
   exists k, step <= k < step + Z.of_nat n /\ 0x38 <= IRA_at (aica_reg d) k).
Proof.
  induction n as [| n IH]; intros step d Hs Hn; cbn [Step128_loop].
  - split; [discriminate |]. intros (k & Hk & _). lia.
  - destruct (Step step d) as [d1 |] eqn:E.
    + destruct (Step_frame _ _ _ E) as (_ & _ & Hc).
      rewrite IH by lia. split.
      * intros (k & Hk & HI). exists k. split; [lia |].
        rewrite <- (IRA_at_frame (aica_reg d) (aica_reg d1) k Hc) by lia.
        exact HI.
      * intros (k & Hk & HI).
        destruct (Z.eq_dec k step) as [-> | Hne].
        -- apply Step_None in HI. congruence.
        -- exists k. split; [lia |].
           rewrite (IRA_at_frame (aica_reg d) (aica_reg d1) k Hc) by lia.
           exact HI.
    + split; [| reflexivity]. intros _. exists step. split; [lia |].
      now apply Step_None.
Qed.

Lemma Step128Start_frame d :
  aram_mask (Step128Start d) = aram_mask d /\
  MDEC_CT (Step128Start d) = MDEC_CT d /\
  (forall i, ~ writable i -> aica_reg (Step128Start d) i = aica_reg d i).
Proof.
  unfold Step128Start. cbn [aram_mask MDEC_CT aica_reg].
  split; [reflexivity |]. split; [reflexivity |].
  intros i Hi.
  assert (G : forall l (reg : Mem),
            Forall (fun k => (k < 64)%nat) l ->
            fold_left (fun reg k => PvrMem.poke reg (EFREG_at 0 + Z.of_nat k) 0)
                      l reg i = reg i).
  { induction l as [| k l IHl]; intros reg Hl; [reflexivity |].
    cbn [fold_left]. apply Forall_cons_iff in Hl. destruct Hl as [Hk Hl].
    rewrite IHl by assumption. unfold PvrMem.poke.
    destruct (Z.eqb_spec i (EFREG_at 0 + Z.of_nat k)) as [-> | _];
      [| reflexivity].
    exfalso. apply Hi. unfold writable, EFREG_at. lia. }
  apply G. apply Forall_forall. intros k Hk. apply in_seq in Hk. lia.
Qed.


(** *** The widths of the registers *)

Lemma UNPACK_range w : - 2 ^ 23 <= UNPACK w < 2 ^ 23.
Proof.
  assert (E : UNPACK w = UNPACK (w mod 2 ^ 16)).
  { unfold UNPACK.
    change (Z.land (Z.shiftr w 15) 0x1) with (Z.land (Z.shiftr w 15) (Z.ones 1)).
    change (Z.land (Z.shiftr w 11) 0xF) with (Z.land (Z.shiftr w 11) (Z.ones 4)).
    change (Z.land w 0x7FF) with (Z.land w (Z.ones 11)).
    change (Z.land (Z.shiftr (w mod 2 ^ 16) 15) 0x1)
      with (Z.land (Z.shiftr (w mod 2 ^ 16) 15) (Z.ones 1)).
    change (Z.land (Z.shiftr (w mod 2 ^ 16) 11) 0xF)
      with (Z.land (Z.shiftr (w mod 2 ^ 16) 11) (Z.ones 4)).
    change (Z.land (w mod 2 ^ 16) 0x7FF) with (Z.land (w mod 2 ^ 16) (Z.ones 11)).
    rewrite !Z.land_ones, !Z.shiftr_div_pow2 by lia.
    replace ((w mod 2 ^ 16) / 2 ^ 15 mod 2 ^ 1) with (w / 2 ^ 15 mod 2 ^ 1)
      by (Z.to_euclidean_division_equations; lia).
    replace ((w mod 2 ^ 16) / 2 ^ 11 mod 2 ^ 4) with (w / 2 ^ 11 mod 2 ^ 4)
      by (Z.to_euclidean_division_equations; lia).
    replace ((w mod 2 ^ 16) mod 2 ^ 11) with (w mod 2 ^ 11)
      by (Z.to_euclidean_division_equations; lia).
    reflexivity. }
  rewrite E.
  pose proof (Z.mod_pos_bound w (2 ^ 16) ltac:(lia)) as Hw.
  set (u := w mod 2 ^ 16) in *. clearbody u.
  set (m := u mod 2 ^ 11). set (e := (u / 2 ^ 11) mod 2 ^ 4).
  set (s := u / 2 ^ 15).
  assert (Hm : 0 <= m < 2 ^ 11) by (apply Z.mod_pos_bound; lia).
  assert (He : 0 <= e < 2 ^ 4) by (apply Z.mod_pos_bound; lia).
  assert (Hs : 0 <= s <= 1)
    by (unfold s; Z.to_euclidean_division_equations; lia).
  assert (Eu : u = m + (16 * s + e) * 2 ^ 11)
    by (unfold s, e, m; Z.to_euclidean_division_equations; lia).
  rewrite Eu.
  destruct (Z.leb_spec e 11) as [Hle | Hgt].
  - exact (proj1 (PackFacts.PACK_UNPACK_normal m s e Hm Hs ltac:(lia))).
  - rewrite PackFacts.UNPACK_denormal by lia. lia.
Qed.

(** The registers are within their widths; [B] may reach [2^25]. *)
Definition regs_ok (d : Dsp) : Prop :=
  - 2 ^ 25 <= ACC d < 2 ^ 25 /\
  - 2 ^ 23 <= SHIFTED d < 2 ^ 23 /\
  - 2 ^ 23 <= X d < 2 ^ 23 /\
  - 2 ^ 12 <= Y d < 2 ^ 12 /\
  - 2 ^ 25 <= B d <= 2 ^ 25 /\
  - 2 ^ 23 <= INPUTS d < 2 ^ 23 /\
  (forall k, - 2 ^ 23 <= MEMVAL d k < 2 ^ 23) /\
  0 <= FRC_REG d < 2 ^ 13 /\
  - 2 ^ 23 <= Y_REG d < 2 ^ 23 /\
  0 <= ADRS_REG d < 2 ^ 32.

Lemma clamp20 x :
  let y := if x >? 0x0007FFFF then 0x0007FFFF else x in
  - 2 ^ 19 <= (if y <? - 0x00080000 then - 0x00080000 else y) < 2 ^ 19.
Proof.
  cbv zeta. destruct (Z.gtb_spec x 0x0007FFFF);
    match goal with |- context [?a <? ?b] => destruct (Z.ltb_spec a b) end; lia.
Qed.

Lemma set_MEMVAL_range m i v :
  (forall k, - 2 ^ 23 <= m k < 2 ^ 23) -> - 2 ^ 23 <= v < 2 ^ 23 ->
  forall k, - 2 ^ 23 <= set_MEMVAL m i v k < 2 ^ 23.
Proof.
  intros Hm Hv k. unfold set_MEMVAL. destruct (k =? i); [exact Hv | apply Hm].
Qed.

Lemma s16_shl8 x : - 2 ^ 23 <= shl32 (s16 x) 8 < 2 ^ 23.
Proof. unfold s16. shift_arith. Z.to_euclidean_division_equations. lia. Qed.

Lemma Step_regs_ok step d d' :
  regs_ok d -> Step step d = Some d' -> regs_ok d'.
Proof.
  intros (HA & HS & HX & HY & HB & HI & HM & HF & HYR & HAR).
  cbv delta [Step]. cbv beta. repeat pull_let.
  destruct (negb (IRA0 <? 56)); [discriminate |].
  match goal with
  | |- context [let '(a, b) := ?p in _] =>
      assert (HM1 : forall k, - 2 ^ 23 <= snd p k < 2 ^ 23);
      [| destruct p as [ram1 MEMVAL1]; cbn [snd] in HM1]
  end.
  { assert (HM0 : forall k, - 2 ^ 23 <= MEMVAL0 k < 2 ^ 23).
    { subst MEMVAL0. destruct (negb (MRD0 =? 0)); [| exact HM].
      destruct (negb (NOFL0 =? 0)); apply set_MEMVAL_range;
        solve [exact HM | apply s16_shl8 | apply UNPACK_range]. }
    destruct (negb (Z.land step 1 =? 0)); [| exact HM].
    destruct (negb (MRD0 =? 0) || negb (MWT0 =? 0)); [exact HM0 | exact HM]. }
  repeat pull_let.
  intros H. apply (f_equal (fun o => match o with Some x => x | None => d end)) in H.
  subst d'. unfold regs_ok.
  cbn [ACC SHIFTED X Y B INPUTS MEMVAL FRC_REG Y_REG ADRS_REG].
  assert (HI2 : - 2 ^ 23 <= INPUTS2 < 2 ^ 23)
    by (subst INPUTS2 INPUTS1; apply sext24_range).
  assert (HS0 : - 2 ^ 23 <= SHIFTED0 < 2 ^ 23).
  { subst SHIFTED0.
    destruct (SHIFT0 =? 0); [pose proof (clamp20 (Z.shiftr (ACC d) 2)); cbv zeta in *; lia |].
    destruct (SHIFT0 =? 1); [pose proof (clamp20 (Z.shiftr (ACC d) 1)); cbv zeta in *; lia |].
    destruct (SHIFT0 =? 2); [apply sext24_range |].
    destruct (SHIFT0 =? 3); [apply sext24_range | exact HS]. }
  split; [subst ACC2 ACC1; apply sext26_range |].
  split; [exact HS0 |].
  split.
  { subst X0. destruct (negb (XSEL0 =? 0)); [exact HI2 | apply sext24_range]. }
  split; [subst Y2 Y1; apply sext13_range |].
  split.
  { subst B0. destruct (ZERO0 =? 0); [| lia]. cbv zeta.
    match goal with
    | |- context [if negb (BSEL0 =? 0) then ?a else ?b] =>
        assert (Hb : - 2 ^ 25 <= (if negb (BSEL0 =? 0) then a else b) < 2 ^ 25)
          by (destruct (negb (BSEL0 =? 0)); [exact HA | apply sext26_range]);
        generalize dependent (if negb (BSEL0 =? 0) then a else b)
    end.
    intros b Hb. destruct (negb (NEGB0 =? 0)); [| lia].
    rewrite s32_small by lia. lia. }
  split; [exact HI2 |].
  split; [exact HM1 |].
  split.
  { subst FRC_REG0. destruct (negb (FRCL0 =? 0)); [| exact HF].
    destruct (SHIFT0 =? 3).
    - change 4095 with (Z.ones 12). rewrite Z.land_ones by lia.
      pose proof (Z.mod_pos_bound SHIFTED0 (2 ^ 12) ltac:(lia)). lia.
    - change 8191 with (Z.ones 13). rewrite Z.land_ones by lia.
      apply Z.mod_pos_bound. lia. }
  split.
  { subst Y_REG0. destruct (negb (YRL0 =? 0)); [exact HI2 | exact HYR]. }
  subst ADRS_REG0. destruct (negb (ADRL0 =? 0)); [| exact HAR].
  destruct (SHIFT0 =? 3); apply u32_range.
Qed.


(** *** The store to [aica_ram] *)

(** The fields [MWT], [TABLE] and [SHIFT] of the instruction of a step. *)
Definition MWT_at (reg : Mem) (step : Z) : Z :=
  field (PvrMem.load32 reg (MPRO_at (step * 4 + 2))) 14 0x01.
Definition TABLE_at (reg : Mem) (step : Z) : Z :=
  field (PvrMem.load32 reg (MPRO_at (step * 4 + 2))) 15 0x01.
Definition SHIFT_at (reg : Mem) (step : Z) : Z :=
  field (PvrMem.load32 reg (MPRO_at (step * 4 + 2))) 4 0x03.

Lemma land_pow2_pred x L :
  L = 8192 \/ L = 16384 \/ L = 32768 \/ L = 65536 ->
  0 <= Z.land x (u32 (L - 1)) < L.
Proof.
  intros [-> | [-> | [-> | ->]]].
  - change (u32 (8192 - 1)) with (Z.ones 13). rewrite Z.land_ones by lia.
    apply Z.mod_pos_bound. lia.
  - change (u32 (16384 - 1)) with (Z.ones 14). rewrite Z.land_ones by lia.
    apply Z.mod_pos_bound. lia.
  - change (u32 (32768 - 1)) with (Z.ones 15). rewrite Z.land_ones by lia.
    apply Z.mod_pos_bound. lia.
  - change (u32 (65536 - 1)) with (Z.ones 16). rewrite Z.land_ones by lia.
    apply Z.mod_pos_bound. lia.
Qed.

Lemma Step_ram step d d' :
  0 <= step < 128 ->
  Step step d = Some d' ->
  forall i, aica_ram d' i <> aica_ram d i ->
  Z.land step 1 <> 0 /\ MWT_at (aica_reg d) step <> 0 /\
  exists a,
    a mod 2 = 0 /\
    RBP (aica_reg d) * 2048 <= a <
      RBP (aica_reg d) * 2048 +
      2 * (if TABLE_at (aica_reg d) step =? 0 then GetRBL (aica_reg d)
           else 65536) /\
    (i = Z.land a (aram_mask d) \/ i = Z.land a (aram_mask d) + 1).
Proof.
  intros Hstep. unfold MWT_at, TABLE_at.
  cbv delta [Step]. cbv beta. repeat pull_let.
  destruct (negb (IRA0 <? 56)); [discriminate |].
  assert (Hreg1 : forall i, ~ writable i -> reg1 i = reg i).
  { intros i Hi. unfold writable in Hi.
    assert (H0 : reg0 i = reg i).
    { subst reg0. destruct (negb (IWT0 =? 0)); [| reflexivity]. cbv zeta.
      apply SetMEMS_out; [| lia].
      apply (field_range _ 1 0x1F 5); [reflexivity | lia | lia]. }
    assert (H1 : reg1 i = reg0 i).
    { subst reg1. destruct (negb (TWT0 =? 0)); [| reflexivity]. cbv zeta.
      apply SetTEMP_out; [apply land127 | lia]. }
    congruence. }
  assert (HI2 : IPtr reg1 2 = PvrMem.load32 (aica_reg d) (MPRO_at (step * 4 + 2))).
  { unfold IPtr. apply load32_frame; [exact Hreg1 | unfold MPRO_at; lia]. }
  assert (HL : GetRBL reg1 = GetRBL (aica_reg d))
    by (apply GetRBL_frame; exact Hreg1).
  assert (HP : GetRBP reg1 = RBP (aica_reg d) * 2048).
  { unfold GetRBP, RBP.
    rewrite (load32_frame reg reg1) by (assumption || (unfold CommonData_4; lia)).
    pose proof (bits_range 0 12 (PvrMem.load32 (aica_reg d) CommonData_4)
                  ltac:(lia) ltac:(lia)).
    apply u32_small. lia. }
  assert (HA2 : 0 <= ADDR2 <
                (if TABLE0 =? 0 then GetRBL (aica_reg d) else 65536)).
  { subst ADDR2. destruct (TABLE0 =? 0).
    - cbv zeta. rewrite HL. apply land_pow2_pred. apply GetRBL_cases.
    - change 65535 with (Z.ones 16). rewrite Z.land_ones by lia.
      apply Z.mod_pos_bound. lia. }
  assert (HLen : (if TABLE0 =? 0 then GetRBL (aica_reg d) else 65536) <= 65536).
  { destruct (TABLE0 =? 0); [| lia].
    destruct (GetRBL_cases (aica_reg d)) as [-> | [-> | [-> | ->]]]; lia. }
  assert (HA4 : ADDR4 = 2 * ADDR2 + RBP (aica_reg d) * 2048).
  { subst ADDR4 ADDR3. rewrite HP.
    pose proof (bits_range 0 12 (PvrMem.load32 (aica_reg d) CommonData_4)
                  ltac:(lia) ltac:(lia)) as HR.
    fold (RBP (aica_reg d)) in HR.
    rewrite Z.shiftl_mul_pow2 by lia.
    rewrite (u32_small (ADDR2 * 2 ^ 1)) by lia.
    rewrite u32_small by lia. lia. }
  unfold TABLE0 in HA2, HLen. rewrite HI2 in HA2, HLen.
  match goal with
  | |- context [let '(a, b) := ?p in _] =>
      assert (HR1 : fst p = ram0 /\ Z.land step 1 <> 0 \/ fst p = ram);
      [| destruct p as [ram1 MEMVAL1]; cbn [fst] in HR1]
  end.
  { destruct (Z.eqb_spec (Z.land step 1) 0) as [E | E]; cbn [negb];
      [right; reflexivity |].
    destruct (negb (MRD0 =? 0) || negb (MWT0 =? 0));
      [left; split; [reflexivity | exact E] | right; reflexivity]. }
  repeat pull_let.
  intros H. apply (f_equal (fun o => match o with Some x => x | None => d end)) in H.
  subst d'. cbn [aica_ram]. intros i Hi.
  destruct HR1 as [[-> Hodd] | ->]; [| now elim Hi].
  split; [exact Hodd |].
  unfold ram0 in Hi. unfold MWT0 in Hi. rewrite HI2 in Hi.
  destruct (Z.eqb_spec
              (field (PvrMem.load32 (aica_reg d) (MPRO_at (step * 4 + 2))) 14 1) 0)
    as [E | E]; cbn [negb] in Hi; [now elim Hi |].
  split; [exact E |].
  exists ADDR4. split; [rewrite HA4; Z.to_euclidean_division_equations; lia |].
  split; [lia |].
  destruct (Z.eq_dec i (Z.land ADDR4 (aram_mask d))) as [-> | Hne];
    [left; reflexivity |].
  destruct (Z.eq_dec i (Z.land ADDR4 (aram_mask d) + 1)) as [-> | Hne'];
    [right; reflexivity |].
  exfalso. apply Hi.
  destruct (negb (NOFL0 =? 0)); apply store16_out; assumption.
Qed.

(** With [SHIFT] 0 or 1 the shifter saturates to 20 signed bits. *)
Lemma Step_saturates step d d' :
  Step step d = Some d' ->
  SHIFT_at (aica_reg d) step <= 1 ->
  - 2 ^ 19 <= SHIFTED d' < 2 ^ 19.
Proof.
  unfold SHIFT_at.
  cbv delta [Step]. cbv beta. repeat pull_let.
  destruct (negb (IRA0 <? 56)); [discriminate |].
  match goal with
  | |- context [let '(a, b) := ?p in _] => destruct p as [ram1 MEMVAL1]
  end.
  repeat pull_let.
  intros H. apply (f_equal (fun o => match o with Some x => x | None => d end)) in H.
  subst d'. cbn [SHIFTED]. intros Hs. change (SHIFT0 <= 1) in Hs.
  pose proof (field_range (IPtr reg 2) 4 0x03 2 eq_refl ltac:(lia) ltac:(lia))
    as HR. fold SHIFT0 in HR.
  unfold SHIFTED0.
  destruct (Z.eqb_spec SHIFT0 0);
    [pose proof (clamp20 (Z.shiftr (ACC d) 2)) as Hc; cbv zeta in Hc; exact Hc |].
  destruct (Z.eqb_spec SHIFT0 1);
    [pose proof (clamp20 (Z.shiftr (ACC d) 1)) as Hc; cbv zeta in Hc; exact Hc |].
  lia.
Qed.

Lemma Step128_loop_regs_ok n : forall step d d',
  regs_ok d -> Step128_loop n step d = Some d' -> regs_ok d'.
Proof.
  induction n as [| n IH]; intros step d d' Hd H; cbn [Step128_loop] in H.
  - apply (f_equal (fun o => match o with Some x => x | None => d end)) in H.
    now subst d'.
  - destruct (Step step d) as [d1 |] eqn:E; [| discriminate].
    apply (IH _ _ _ (Step_regs_ok _ _ _ Hd E) H).
Qed.

End InterpFacts.

(** ** The opaque resolution of a tile *)

Module OpaqueFacts.
Import Word PvrMem PvrRegs RegTypes Tile Lists.

Section Walker.
Context {B : Backend}.
Variable emu_regs : RegFile.

(** The state at the start of the lists of a tile. *)
Lemma tile_clear_state entry c :
  tile_clear emu_regs entry c =
  mkCore (vram c)
    (if z_keep (control entry) =? 0
     then ClearBuffers (ISP_BACKGND_T emu_regs) (ISP_BACKGND_D emu_regs) 0
            (ClearFpuCache (tile c))
     else ClearParamStatusBuffer (ClearFpuCache (tile c)))
    (trace c).
Proof.
  unfold tile_clear, on_tile. cbv zeta. cbn [vram tile trace].
  destruct (z_keep (control entry) =? 0); reflexivity.
Qed.

(** A tile is its lists, the opaque resolution and the passes after it. *)
Lemma RenderTile_after_opaque fuel entry c :
  RenderTile emu_regs fuel entry c =
  (c1 <- opaque_lists emu_regs fuel entry (tile_rect entry)
           (tile_clear emu_regs entry c) ;;
   after_opaque emu_regs fuel entry
     (Lists.RenderParamTags emu_regs RM_OPAQUE
        (tilex (control entry) * 32) (tiley (control entry) * 32) c1)).
Proof. reflexivity. Qed.

Lemma opaque_lists_empty fuel entry rect c :
  empty (opaque entry) <> 0 ->
  opaque_lists emu_regs fuel entry rect c = Done c.
Proof.
  intros H. unfold opaque_lists.
  destruct (Z.eqb_spec (empty (opaque entry)) 0); [contradiction | reflexivity].
Qed.

Lemma after_opaque_empty fuel entry c :
  empty (puncht entry) <> 0 -> empty (trans entry) <> 0 ->
  after_opaque emu_regs fuel entry c =
  if no_writeout (control entry) =? 0 then write_out emu_regs entry c else Done c.
Proof.
  intros Hp Ht. unfold after_opaque. cbv zeta.
  destruct (Z.eqb_spec (empty (puncht entry)) 0); [contradiction |].
  destruct (Z.eqb_spec (empty (trans entry)) 0); [contradiction |].
  reflexivity.
Qed.

Lemma opaque_lists_ok fuel entry rect c :
  PassFacts.pass_ok c (opaque_lists emu_regs fuel entry rect c).
Proof.
  unfold opaque_lists. destruct (empty (opaque entry) =? 0).
  - eapply PassFacts.pass_ok_bind_at;
      [apply PassFacts.pass_ok_RenderObjectList | apply PassFacts.shaded_refl
      | intros c1].
    destruct (empty (opaque_mod entry) =? 0);
      [apply PassFacts.pass_ok_RenderObjectList | apply PassFacts.shaded_refl].
  - apply PassFacts.shaded_refl.
Qed.

(** A tile that has come to its end has had its lists walked. *)
Lemma ended_lists_done fuel entry c :
  ended (RenderTile emu_regs fuel entry c) = true ->
  exists c1,
    opaque_lists emu_regs fuel entry (tile_rect entry)
      (tile_clear emu_regs entry c) = Done c1.
Proof.
  rewrite RenderTile_after_opaque.
  pose proof (opaque_lists_ok fuel entry (tile_rect entry)
                (tile_clear emu_regs entry c)) as H.
  destruct (opaque_lists emu_regs fuel entry (tile_rect entry)
              (tile_clear emu_regs entry c)) as [c1 | c1 | c1];
    cbn [bind ended PassFacts.pass_ok] in *.
  - intros _. now exists c1.
  - contradiction.
  - discriminate.
Qed.

End Walker.
End OpaqueFacts.


(** * The properties of the specification *)

(** C1, counterexample. A region array whose first 1024 entries have
    [last_region] clear and whose entry 1024 has it set: the frame is
    rendered to its end, 1025 tiles having been resolved. *)
Lemma region_loop_no_entry_limit :
  (forall k, 0 <= k < 1024 ->
     RegTypes.last_region (RegTypes.control (fst
       (Lists.ReadRegionArrayEntry (Fixtures.regs_of [])
          Fixtures.long_region_array (20 * k)))) = 0) /\
  exists c',
    Lists.ffi_refsw2_render (B := Fixtures.idle) 1025
      Fixtures.long_region_array (Fixtures.regs_of []) tt = Lists.Done c' /\
    length (Lists.trace c') = 1025%nat.
Proof.
  split.
  - intros k Hk.
    apply Z.eqb_eq.
    apply (Exhaust.forall_below_spec 1024
             (fun k => RegTypes.last_region (RegTypes.control (fst
                (Lists.ReadRegionArrayEntry (Fixtures.regs_of [])
                   Fixtures.long_region_array (20 * k)))) =? 0));
      [vm_compute; reflexivity | exact Hk].
  - assert (H : match Lists.ffi_refsw2_render (B := Fixtures.idle) 1025
                        Fixtures.long_region_array (Fixtures.regs_of []) tt with
                | Lists.Done c' => Nat.eqb (length (Lists.trace c')) 1025
                | _ => false
                end = true) by (vm_compute; reflexivity).
    destruct (Lists.ffi_refsw2_render (B := Fixtures.idle) 1025
                Fixtures.long_region_array (Fixtures.regs_of []) tt)
      as [c' | |]; try discriminate.
    exists c'. split; [reflexivity | now apply Nat.eqb_eq].
Qed.

(** C1, as the code has it. [RenderCORE] returns exactly when the region
    loop, every tile on the way running to its end, comes to an entry with
    [last_region] set; it returns right after the tile of that entry, the
    first of its kind, and the entries read before it may be any number:
    there is no bound of 1024 entries and no [MalformedList] outcome. When
    no such entry is reached [RenderCORE] does not return. *)
Theorem region_loop_halts_iff {B : Tile.Backend} (emu_regs : PvrRegs.RegFile)
    (c c' : Lists.Core) :
  (exists fuel, Lists.RenderCORE emu_regs fuel c = Lists.Done c') <->
  (exists es e,
      RegionWalk.entries_read emu_regs (PvrRegs.REGION_BASE emu_regs) c
        (es ++ [e]) c' /\
      Forall (fun x => RegTypes.last_region (RegTypes.control x) = 0) es /\
      RegTypes.last_region (RegTypes.control e) <> 0).
Proof.
  unfold Lists.RenderCORE. split.
  - intros [fuel Hrun]. now apply (RegionWalk.region_loop_reads emu_regs fuel).
  - intros (es & e & Hes & Hall & He).
    now apply (RegionWalk.reads_region_loop emu_regs es _ c e c').
Qed.

(** C2, counterexample. The offset 4 is aligned and in bank 0; mapping it
    twice gives 16. *)
Lemma pvr_map32_not_involution :
  (0 <= 4 < PvrMem.VRAM_BANK_BIT /\ 4 mod 4 = 0) /\
  PvrMem.pvr_map32 (PvrMem.pvr_map32 4) = 16 /\
  PvrMem.pvr_map32 (PvrMem.pvr_map32 4) <> 4.
Proof. vm_compute. repeat split; congruence. Qed.

(** C2, as the code has it. On the 4-byte-aligned offsets [pvr_map32] is
    one-to-one and not an involution: word [k] of bank [bank] is mapped to
    the byte offset [8 * k + 4 * bank], so the words of the two banks
    alternate every 32 bits. *)
Theorem pvr_map32_interleave (bank k bank' k' : Z) :
  0 <= bank <= 1 -> 0 <= k < 2 ^ 20 ->
  0 <= bank' <= 1 -> 0 <= k' < 2 ^ 20 ->
  PvrMem.pvr_map32 (bank * PvrMem.VRAM_BANK_BIT + 4 * k) = 8 * k + 4 * bank /\
  (PvrMem.pvr_map32 (bank * PvrMem.VRAM_BANK_BIT + 4 * k) =
   PvrMem.pvr_map32 (bank' * PvrMem.VRAM_BANK_BIT + 4 * k') ->
   bank = bank' /\ k = k').
Proof.
  intros Hb Hk Hb' Hk'.
  assert (Hmap : forall b j, 0 <= b <= 1 -> 0 <= j < 2 ^ 20 ->
            PvrMem.pvr_map32 (b * PvrMem.VRAM_BANK_BIT + 4 * j) = 8 * j + 4 * b).
  { intros b j Hb0 Hj. rewrite PvrMem.pvr_map32_arith.
    change PvrMem.VRAM_BANK_BIT with 4194304.
    change (2 ^ 22) with 4194304. change (2 ^ 20) with 1048576 in *.
    Z.to_euclidean_division_equations. lia. }
  split; [now apply Hmap |].
  rewrite !Hmap by assumption. lia.
Qed.

(** Word 3 of bank 1 is at byte offset 28. *)
Lemma pvr_map32_interleave_witness :
  (0 <= 1 <= 1 /\ 0 <= 3 < 2 ^ 20 /\ 0 <= 0 <= 1 /\ 0 <= 3 < 2 ^ 20) /\
  PvrMem.pvr_map32 (1 * PvrMem.VRAM_BANK_BIT + 4 * 3) = 8 * 3 + 4 * 1.
Proof.
  split; [lia |].
  apply (pvr_map32_interleave 1 3 0 3); lia.
Defined.

(** C3, counterexample. A strip whose mask has bit 0 set and no other bit:
    triangle 0 is not emitted; the one triangle emitted is triangle 5. *)
Lemma strip_mask_bit0_is_triangle5 :
  Z.testbit (RegTypes.mask 0x02000000) 0 = true /\
  ~ In 0%nat (map fst (Lists.strip_triangles 0x02000000)) /\
  Lists.strip_triangles 0x02000000 = [(5, (6, 5, 7))%nat].
Proof.
  vm_compute. repeat split; try reflexivity.
  intros [H | []]. discriminate.
Qed.

(** C3, as the code has it. In [RenderTriangleStrip], for every strip entry
    and every candidate [i] of 0..5, triangle [i] is emitted exactly when
    bit [5 - i] of the mask is set (the most significant of the six bits
    stands for triangle 0); its vertices are taken at the positions
    [(i + parity, i + 1 - parity, i + 2)] with [parity = i & 1], and the
    tag formed for it carries [tag_offset = i]. *)
Theorem strip_triangle_emitted (obj cache_bypass : Z) (i : nat) :
  (i < 6)%nat ->
  let parity := Nat.land i 1 in
  (In i (map fst (Lists.strip_triangles obj)) <->
   Z.testbit (RegTypes.mask obj) (5 - Z.of_nat i) = true) /\
  (forall t, In (i, t) (Lists.strip_triangles obj) ->
             t = (i + parity, i + 1 - parity, i + 2)%nat) /\
  PvrRegs.tag_offset (Lists.strip_tag cache_bypass obj i) = Z.of_nat i.
Proof.
  intros Hi parity. split; [split |]; [| | split].
  - intros Hin. apply in_map_iff in Hin. destruct Hin as ([j t] & Hj & Hin).
    cbn [fst] in Hj. subst j.
    apply (proj1 (StripFacts.In_strip_triangles obj i t)) in Hin.
    destruct Hin as (_ & Hbit & _). exact Hbit.
  - intros Hbit. apply in_map_iff.
    exists (i, StripFacts.strip_positions i). split; [reflexivity |].
    apply (proj2 (StripFacts.In_strip_triangles obj i _)).
    split; [exact Hi |]. split; [exact Hbit | reflexivity].
  - intros t Hin.
    apply (proj1 (StripFacts.In_strip_triangles obj i t)) in Hin.
    destruct Hin as (_ & _ & Ht). exact Ht.
  - unfold Lists.strip_tag.
    apply StripFacts.tag_offset_CoreTagFromDesc. lia.
Qed.

(** A strip with mask bit 2 set has triangle 3. *)
Lemma strip_triangle_emitted_witness :
  (3 < 6)%nat /\
  (In 3%nat (map fst (Lists.strip_triangles 0x08000000)) <->
   Z.testbit (RegTypes.mask 0x08000000) (5 - Z.of_nat 3) = true) /\
  PvrRegs.tag_offset (Lists.strip_tag 0 0x08000000 3) = 3.
Proof.
  split; [lia |].
  pose proof (strip_triangle_emitted 0x08000000 0 3 ltac:(lia)) as H.
  cbv zeta in H. destruct H as (H1 & _ & H3).
  split; [exact H1 | exact H3].
Defined.

(** C4, counterexample. The texel [0xFFFF] has the nibble [0xF] everywhere;
    the unpacked channel is [0xF0], not the duplicated [0xFF]. *)
Lemma ARGB4444_32_not_duplicated :
  TexUtils.nibble 0 0xFFFF = 0xF /\
  TexUtils.dup_nibble 0xF = 0xFF /\
  TexUtils.channel 0 (TexUtils.ARGB4444_32 0xFFFF) = 0xF0 /\
  TexUtils.channel 0 (TexUtils.ARGB4444_32 0xFFFF) <>
    TexUtils.dup_nibble (TexUtils.nibble 0 0xFFFF).
Proof. vm_compute. repeat split; congruence. Qed.

(** C4, as the code has it. For every 16-bit texel, channel [k] of
    [ARGB4444_32] is nibble [k] shifted into the high four bits, the low
    four bits being zero: the nibble [0xF] gives [0xF0]. *)
Theorem ARGB4444_32_channels (word k : Z) :
  0 <= word < 2 ^ 16 -> 0 <= k < 4 ->
  TexUtils.channel k (TexUtils.ARGB4444_32 word) =
    16 * TexUtils.nibble k word.
Proof.
  intros Hw Hk.
  assert (Hall : Exhaust.forall_below 65536 (fun w =>
            Exhaust.forall_below 4 (fun j =>
              TexUtils.channel j (TexUtils.ARGB4444_32 w) =?
              16 * TexUtils.nibble j w)) = true)
    by (vm_compute; reflexivity).
  pose proof (Exhaust.forall_below_spec _ _ Hall word Hw) as Hrow.
  cbv beta in Hrow.
  pose proof (Exhaust.forall_below_spec _ _ Hrow k Hk) as Hcell.
  now apply Z.eqb_eq.
Qed.

(** The alpha channel of the texel [0xFFFF]. *)
Lemma ARGB4444_32_channels_witness :
  (0 <= 0xFFFF < 2 ^ 16 /\ 0 <= 3 < 4) /\
  TexUtils.channel 3 (TexUtils.ARGB4444_32 0xFFFF) =
    16 * TexUtils.nibble 3 0xFFFF.
Proof.
  split; [lia |].
  apply (ARGB4444_32_channels 0xFFFF 3); lia.
Defined.

(** C5. For every pixel position [(x, y)] and every 8-bit accumulator
    color, the RGB565 write-out computes [r5 = (r8 * 31 + T) / 255],
    [g6 = (g8 * 63 + T) / 255] and [b5 = (b8 * 31 + T) / 255], where [T] is
    the entry [(y & 3, x & 3)] of the fixed Bayer matrix; the components
    lie in [0, 31], [0, 63] and [0, 31], and they are the three fields of
    the packed pixel. *)
Theorem dither565_bounds (x y r8 g8 b8 : Z) :
  0 <= r8 <= 255 -> 0 <= g8 <= 255 -> 0 <= b8 <= 255 ->
  let T := nth (Z.to_nat (x mod 4))
               (nth (Z.to_nat (y mod 4))
                    [ [   8; 136;  40; 168 ];
                      [ 200;  72; 232; 104 ];
                      [  56; 184;  24; 152 ];
                      [ 248; 120; 216;  88 ] ] []) 0 in
  let r5 := (r8 * 31 + T) / 255 in
  let g6 := (g8 * 63 + T) / 255 in
  let b5 := (b8 * 31 + T) / 255 in
  Lists.dither565 x y r8 g8 b8 = (r5, g6, b5) /\
  (0 <= r5 <= 31 /\ 0 <= g6 <= 63 /\ 0 <= b5 <= 31) /\
  Lists.red565 (Lists.pack565 (Lists.dither565 x y r8 g8 b8)) = r5 /\
  Lists.green565 (Lists.pack565 (Lists.dither565 x y r8 g8 b8)) = g6 /\
  Lists.blue565 (Lists.pack565 (Lists.dither565 x y r8 g8 b8)) = b5.
Proof.
  intros Hr Hg Hb T r5 g6 b5.
  assert (HT : T = Lists.bayer y x) by (symmetry; apply DitherFacts.bayer_mod).
  pose proof (DitherFacts.bayer_range y x) as HTr. rewrite <- HT in HTr.
  destruct (DitherFacts.quantize_in_range r8 31 T 31 Hr HTr ltac:(lia) eq_refl)
    as [Hcr Hrr].
  destruct (DitherFacts.quantize_in_range g8 63 T 63 Hg HTr ltac:(lia) eq_refl)
    as [Hcg Hgr].
  destruct (DitherFacts.quantize_in_range b8 31 T 31 Hb HTr ltac:(lia) eq_refl)
    as [Hcb Hbr].
  assert (Hd : Lists.dither565 x y r8 g8 b8 = (r5, g6, b5)).
  { unfold Lists.dither565. cbv zeta. rewrite <- HT, Hcr, Hcg, Hcb. reflexivity. }
  split; [exact Hd |].
  split; [split; [exact Hrr | split; [exact Hgr | exact Hbr]] |].
  rewrite Hd. now apply DitherFacts.pack565_fields.
Qed.

(** White at the pixel (3, 0) is packed as (31, 63, 31). *)
Lemma dither565_bounds_witness :
  (0 <= 255 <= 255 /\ 0 <= 255 <= 255 /\ 0 <= 255 <= 255) /\
  Lists.dither565 3 0 255 255 255 = (31, 63, 31).
Proof.
  split; [lia |].
  pose proof (dither565_bounds 3 0 255 255 255 ltac:(lia) ltac:(lia) ltac:(lia)) as H.
  cbv zeta in H. destruct H as [H _]. exact H.
Defined.

(** C6. After [InitTexUtils], for every square log-size [s] in 0..10 and all
    coordinates [i], [j] below [2^s], the sum of the row entry
    [detwiddle[0][s][i]] and the column entry [detwiddle[1][s][j]] is
    [twiddle_slow(i, j, 1<<s, 1<<s)]; the macro [twop2], which adds them in
    32 bits, gives the same value. *)
Theorem detwiddle_square (s i j : N) :
  (s <= 10)%N -> (i < 2 ^ s)%N -> (j < 2 ^ s)%N ->
  (TexUtils.detwiddle 0 s i + TexUtils.detwiddle 1 s j)%N =
    TexUtils.twiddle_slow i j (N.shiftl 1 s) (N.shiftl 1 s) /\
  TexUtils.twop2 i j s s =
    TexUtils.twiddle_slow i j (N.shiftl 1 s) (N.shiftl 1 s).
Proof.
  intros Hs Hi Hj.
  pose proof (TwiddleFacts.pow2_le_1024 s Hs) as Hp.
  destruct (TwiddleFacts.square_row s i Hs Hi) as (Hx & _ & Hxm & _ & Hxb).
  destruct (TwiddleFacts.square_row s j Hs Hj) as (_ & Hy & _ & Hym & Hyb).
  assert (Hsum : (TexUtils.detwiddle 0 s i + TexUtils.detwiddle 1 s j)%N =
                 TexUtils.twiddle_slow i j (N.shiftl 1 s) (N.shiftl 1 s)).
  { rewrite TwiddleFacts.detwiddle_0, TwiddleFacts.detwiddle_1 by lia.
    rewrite (TwiddleFacts.twiddle_slow_split i j), Hx, Hy.
    set (a := TexUtils.twiddle_slow i 0 1024 (N.shiftl 1 s)) in *.
    set (b := TexUtils.twiddle_slow 0 j (N.shiftl 1 s) 1024) in *.
    assert (Hd : N.land a b = 0%N).
    { rewrite <- Hym, N.land_assoc, (N.land_comm a b), <- N.land_assoc, Hxm.
      apply N.land_0_r. }
    rewrite N.add_nocarry_lxor by assumption.
    now apply N.lxor_lor. }
  split; [exact Hsum |].
  unfold TexUtils.twop2. rewrite Hsum.
  unfold TexUtils.wrap32. apply N.mod_small.
  rewrite <- Hsum, TwiddleFacts.detwiddle_0, TwiddleFacts.detwiddle_1 by lia.
  change (2 ^ 32)%N with (2 ^ 31 + 2 ^ 31)%N. lia.
Qed.

(** The 8 by 8 case at (5, 3). *)
Lemma detwiddle_square_witness :
  ((3 <= 10)%N /\ (5 < 2 ^ 3)%N /\ (3 < 2 ^ 3)%N) /\
  (TexUtils.detwiddle 0 3 5 + TexUtils.detwiddle 1 3 3)%N =
    TexUtils.twiddle_slow 5 3 (N.shiftl 1 3) (N.shiftl 1 3).
Proof.
  split; [repeat split; vm_compute; congruence |].
  apply (detwiddle_square 3 5 3); vm_compute; congruence.
Defined.

(** C7, counterexample. Without any rounding error in the products, entry
    255 of [BM_SIN90] is 126, and the product rounded to the nearest
    integer is 127. *)
Lemma BM_SIN90_255_is_truncated :
  BumpTables.BM_SIN90 BumpTables.exact_sin90 255 = 126 /\
  BumpTables.round (127 * sin (IZR 255 / 256 * (PI / 2))) = 127 /\
  BumpTables.BM_SIN90 BumpTables.exact_sin90 255 <>
    BumpTables.round (127 * sin (IZR 255 / 256 * (PI / 2))).
Proof.
  destruct (BumpFacts.accurate_126 BumpTables.exact_sin90 BumpTables.exact_sin90
              255 (BumpFacts.accurate_exact _) ltac:(lia)
              BumpFacts.exact_sin90_255) as [Ht Hr].
  unfold BumpTables.BM_SIN90.
  change (127 * sin (IZR 255 / 256 * (PI / 2)))%R with (BumpTables.exact_sin90 255).
  rewrite Ht, Hr. repeat split; lia.
Qed.

(** C7, as the code has it. After [InitTexUtils], for every index [i] in
    [0, 256) the entries [BM_SIN90[i]], [BM_COS90[i]] and [BM_COS360[i]]
    are the single-precision products [127 * sinf(i/256 * pi/2)],
    [127 * cosf(i/256 * pi/2)] and [127 * cosf(i/256 * 2 pi)] with the
    fractional part discarded: truncated toward zero, not rounded. With
    products accurate to a thousandth, [BM_SIN90[255]], [BM_COS90[1]] and
    [BM_COS360[1]] are 126, where rounding would give 127. *)
Theorem bump_tables_truncated
    (product_sin90 product_cos90 product_cos360 : Z -> R) :
  BumpTables.accurate product_sin90 BumpTables.exact_sin90 ->
  BumpTables.accurate product_cos90 BumpTables.exact_cos90 ->
  BumpTables.accurate product_cos360 BumpTables.exact_cos360 ->
  (forall i, 0 <= i < 256 ->
     BumpTables.truncated (product_sin90 i)
       (BumpTables.BM_SIN90 product_sin90 i) /\
     BumpTables.truncated (product_cos90 i)
       (BumpTables.BM_COS90 product_cos90 i) /\
     BumpTables.truncated (product_cos360 i)
       (BumpTables.BM_COS360 product_cos360 i)) /\
  (BumpTables.BM_SIN90 product_sin90 255 = 126 /\
   BumpTables.round (BumpTables.exact_sin90 255) = 127) /\
  (BumpTables.BM_COS90 product_cos90 1 = 126 /\
   BumpTables.round (BumpTables.exact_cos90 1) = 127) /\
  (BumpTables.BM_COS360 product_cos360 1 = 126 /\
   BumpTables.round (BumpTables.exact_cos360 1) = 127).
Proof.
  intros Hs Hc Hc'. split; [| split; [| split]].
  - intros i _. split; [| split]; apply BumpFacts.float_to_int_truncated.
  - apply (BumpFacts.accurate_126 _ _ 255 Hs); [lia |].
    apply BumpFacts.exact_sin90_255.
  - apply (BumpFacts.accurate_126 _ _ 1 Hc); [lia |].
    apply BumpFacts.exact_cos90_1.
  - apply (BumpFacts.accurate_126 _ _ 1 Hc'); [lia |].
    apply BumpFacts.exact_cos360_1.
Qed.

(** The tables of products without rounding error. *)
Lemma bump_tables_truncated_witness :
  (BumpTables.accurate BumpTables.exact_sin90 BumpTables.exact_sin90 /\
   BumpTables.accurate BumpTables.exact_cos90 BumpTables.exact_cos90 /\
   BumpTables.accurate BumpTables.exact_cos360 BumpTables.exact_cos360) /\
  BumpTables.BM_COS360 BumpTables.exact_cos360 1 = 126.
Proof.
  split; [repeat split; apply BumpFacts.accurate_exact |].
  apply (bump_tables_truncated BumpTables.exact_sin90 BumpTables.exact_cos90
           BumpTables.exact_cos360);
    apply BumpFacts.accurate_exact.
Defined.




(** C9, counterexample. With the frame buffer at the odd address [0x7FFFFF]
    and a white tile, the first pixel is stored at index [0x7FFFFF]: the
    second byte of the 16-bit store goes to index 8 MiB, past the end of
    the array, and is found there after the frame. *)
Lemma unaligned_store_leaves_vram :
  (exists c',
     Lists.ffi_refsw2_render (B := Fixtures.solid 255) 1
       (Fixtures.single_tile_array 0x80000000) Fixtures.regs_unaligned tt =
     Lists.Done c' /\
     nth_error (Lists.trace c') 1 = Some (Lists.EvWrite16 0x7FFFFF 0xFFFF) /\
     Lists.vram c' PvrMem.VRAM_SIZE = 0xFF) /\
  Fixtures.single_tile_array 0x80000000 PvrMem.VRAM_SIZE = 0 /\
  In PvrMem.VRAM_SIZE (PvrMem.write16_footprint 0x7FFFFF) /\
  ~ PvrMem.in_vram PvrMem.VRAM_SIZE.
Proof.
  split; [| split; [| split]].
  - assert (H : match Lists.ffi_refsw2_render (B := Fixtures.solid 255) 1
                        (Fixtures.single_tile_array 0x80000000)
                        Fixtures.regs_unaligned tt with
                | Lists.Done c' =>
                    match nth_error (Lists.trace c') 1 with
                    | Some (Lists.EvWrite16 a d) =>
                        (a =? 0x7FFFFF) && (d =? 0xFFFF) &&
                        (Lists.vram c' PvrMem.VRAM_SIZE =? 0xFF)
                    | _ => false
                    end
                | _ => false
                end = true) by (vm_compute; reflexivity).
    destruct (Lists.ffi_refsw2_render (B := Fixtures.solid 255) 1
                (Fixtures.single_tile_array 0x80000000)
                Fixtures.regs_unaligned tt) as [c' | c' | c']; try discriminate.
    exists c'. split; [reflexivity |].
    destruct (nth_error (Lists.trace c') 1) as [[m x y | a d | a d] |];
      try discriminate.
    apply andb_true_iff in H. destruct H as [H Hv].
    apply andb_true_iff in H. destruct H as [Ha Hd].
    apply Z.eqb_eq in Ha. apply Z.eqb_eq in Hd. apply Z.eqb_eq in Hv.
    split; [now subst | exact Hv].
  - reflexivity.
  - vm_compute. right. now left.
  - unfold PvrMem.in_vram. lia.
Qed.

(** C9, as the code has it. The index a store starts at is always inside
    the 8 MiB array: [pvr_map32] keeps the address bits 0 to 22, as a mask
    with [VRAM_MASK] would (the masked [vaddr] itself is not used). When
    the frame buffer address [FB_W_SOF1] is aligned to the size of a pixel,
    every byte of every store of a frame lies inside the array, however
    far the frame comes; and a store changes no byte but those. *)
Theorem vram_stores_in_range {B : Tile.Backend} (regs : PvrRegs.RegFile)
    (fuel : nat) (vram : PvrMem.Vram) (buffers : Tile.TileBuffers) :
  PvrRegs.FB_W_SOF1 regs mod TileFacts.pixel_bytes regs = 0 ->
  Forall TileFacts.store_inside
    (Lists.trace (Lists.state_of
       (Lists.ffi_refsw2_render fuel vram regs buffers))) /\
  (forall addr,
     PvrMem.pvr_map32 (Z.land addr PvrMem.VRAM_MASK) = PvrMem.pvr_map32 addr /\
     PvrMem.in_vram (PvrMem.pvr_map32 addr)) /\
  (forall v addr data j,
     (~ In j (PvrMem.write16_footprint addr) ->
      PvrMem.pvr_write_area1_16 v addr data j = v j) /\
     (~ In j (PvrMem.write32_footprint addr) ->
      PvrMem.pvr_write_area1_32 v addr data j = v j)).
Proof.
  intros Hsof. split; [| split].
  3:{ intros v addr data j. split; intros Hj;
        [now apply PvrMem.store16_frame | now apply PvrMem.store32_frame]. }
  - unfold Lists.ffi_refsw2_render, Lists.RenderCORE. cbv zeta.
    destruct (TileFacts.RenderCORE_loop_stored regs fuel
                (PvrRegs.REGION_BASE regs) (Lists.mkCore vram buffers []) Hsof)
      as (l & Ht & Hl).
    cbn [Lists.trace app] in Ht. rewrite Ht.
    revert Hl. apply Forall_impl. apply TileFacts.aligned_store_inside.
  - intros addr. split;
      [apply TileFacts.pvr_map32_masked | apply PvrMem.pvr_map32_range].
Qed.

(** A frame of one tile written out in ARGB8888 at [0x200000]. *)
Lemma vram_stores_in_range_witness :
  PvrRegs.FB_W_SOF1 Fixtures.regs_aligned
    mod TileFacts.pixel_bytes Fixtures.regs_aligned = 0 /\
  Forall TileFacts.store_inside
    (Lists.trace (Lists.state_of
       (Lists.ffi_refsw2_render (B := Fixtures.idle) 1
          (Fixtures.single_tile_array 0x80000000) Fixtures.regs_aligned tt))).
Proof.
  split; [reflexivity |].
  apply (vram_stores_in_range (B := Fixtures.idle) Fixtures.regs_aligned 1
           (Fixtures.single_tile_array 0x80000000) tt).
  reflexivity.
Defined.

(** C10. For every region array entry, [RenderParamTags<RM_OPAQUE>] at the
    origin of the tile is applied to the tile buffers, whether there is an
    opaque list or not: a tile whose lists have been walked goes on, with
    the passes after the opaque one, from the buffers that call returns,
    and every tile that comes to its end has had its lists walked. With
    the opaque list pointer empty the call is made on the buffers as the
    start of the tile leaves them: cleared with the background tag
    [ISP_BACKGND_T] and the background depth when [z_keep] is clear, with
    their parameter status alone cleared when it is set; with no list at
    all the tile is the write-out of the buffers the call returns, or ends
    with them when [no_writeout] is set. What the call does to a pixel is
    the tile back end's. The call is the first event of a tile without an
    opaque list and an event of every tile that comes to its end. *)
Theorem opaque_resolution_always_runs {B : Tile.Backend}
    (emu_regs : PvrRegs.RegFile) (fuel : nat)
    (entry : RegTypes.RegionArrayEntry) (c : Lists.Core) :
  let left := RegTypes.tilex (RegTypes.control entry) * 32 in
  let top := RegTypes.tiley (RegTypes.control entry) * 32 in
  let resolution := Lists.EvParamTags Tile.RM_OPAQUE left top in
  let resolved (c1 : Lists.Core) : Lists.Core :=
    Lists.mkCore (Lists.vram c1)
      (Tile.RenderParamTags Tile.RM_OPAQUE left top (Lists.vram c1) emu_regs
         (Lists.tile c1))
      (Lists.trace c1 ++ [resolution]) in
  let cleared : Lists.Core :=
    Lists.mkCore (Lists.vram c)
      (if RegTypes.z_keep (RegTypes.control entry) =? 0
       then Tile.ClearBuffers (PvrRegs.ISP_BACKGND_T emu_regs)
              (PvrRegs.ISP_BACKGND_D emu_regs) 0
              (Tile.ClearFpuCache (Lists.tile c))
       else Tile.ClearParamStatusBuffer (Tile.ClearFpuCache (Lists.tile c)))
      (Lists.trace c) in
  let lists :=
    Lists.opaque_lists emu_regs fuel entry (Lists.tile_rect entry) cleared in
  let tile := Lists.RenderTile emu_regs fuel entry c in
  (forall c1, lists = Lists.Done c1 ->
     tile = Lists.after_opaque emu_regs fuel entry (resolved c1)) /\
  (Lists.ended tile = true -> exists c1, lists = Lists.Done c1) /\
  (RegTypes.empty (RegTypes.opaque entry) <> 0 ->
   tile = Lists.after_opaque emu_regs fuel entry (resolved cleared) /\
   (RegTypes.empty (RegTypes.puncht entry) <> 0 ->
    RegTypes.empty (RegTypes.trans entry) <> 0 ->
    tile = if RegTypes.no_writeout (RegTypes.control entry) =? 0
           then Lists.write_out emu_regs entry (resolved cleared)
           else Lists.Done (resolved cleared)) /\
   exists post,
     Lists.trace (Lists.state_of tile) = Lists.trace c ++ resolution :: post) /\
  (Lists.ended tile = true ->
   exists pre post,
     Lists.trace (Lists.state_of tile) =
       Lists.trace c ++ pre ++ resolution :: post).
Proof.
  intros left top resolution resolved cleared lists tile.
  assert (Hclear : Lists.tile_clear emu_regs entry c = cleared)
    by apply OpaqueFacts.tile_clear_state.
  assert (Htile : forall c1, lists = Lists.Done c1 ->
            tile = Lists.after_opaque emu_regs fuel entry (resolved c1)).
  { intros c1 H1. subst tile lists.
    rewrite OpaqueFacts.RenderTile_after_opaque, Hclear, H1.
    reflexivity. }
  assert (Hempty : RegTypes.empty (RegTypes.opaque entry) <> 0 ->
            lists = Lists.Done cleared).
  { intros Hne. now apply OpaqueFacts.opaque_lists_empty. }
  assert (Hdone : forall c1, TileFacts.passes_done entry c c1 ->
            forall c', TileFacts.grows c1 c' ->
            exists pre post,
              Lists.trace c' = Lists.trace c ++ pre ++ resolution :: post /\
              (RegTypes.empty (RegTypes.opaque entry) <> 0 -> pre = [])).
  { intros c1 [_ (pre & post & Ht & _ & _ & Hpre)] c' [l Hl].
    exists pre, (post ++ l). split; [| exact Hpre].
    rewrite Hl, Ht. unfold TileFacts.opaque_resolution. subst resolution.
    rewrite <- !app_assoc. reflexivity. }
  assert (Hall : (RegTypes.empty (RegTypes.opaque entry) <> 0 \/
                  Lists.ended tile = true) ->
            exists pre post,
              Lists.trace (Lists.state_of tile) =
                Lists.trace c ++ pre ++ resolution :: post /\
              (RegTypes.empty (RegTypes.opaque entry) <> 0 -> pre = [])).
  { intros Hor. subst tile.
    pose proof (TileFacts.RenderTile_cases emu_regs fuel entry c) as Hc.
    destruct (Lists.RenderTile emu_regs fuel entry c) as [c' | c' | c'];
      cbn [Lists.state_of Lists.ended] in *.
    - destruct Hc as (c1 & Hp & Hout). apply (Hdone c1 Hp).
      destruct (RegTypes.no_writeout (RegTypes.control entry) =? 0).
      + now apply (TileFacts.grows_write_out emu_regs entry).
      + subst c'. exists []. now rewrite app_nil_r.
    - destruct Hc as (Hp & _). apply (Hdone c' Hp).
      exists []. now rewrite app_nil_r.
    - destruct Hc as [[He _] | Hp].
      + destruct Hor as [Hne | Hend]; [contradiction | discriminate].
      + apply (Hdone c' Hp). exists []. now rewrite app_nil_r. }
  split; [exact Htile |].
  split.
  { intros Hend. subst lists. rewrite <- Hclear.
    now apply OpaqueFacts.ended_lists_done. }
  split.
  - intros Hne. specialize (Htile cleared (Hempty Hne)).
    split; [exact Htile |]. split.
    + intros Hp Ht. rewrite Htile.
      now apply OpaqueFacts.after_opaque_empty.
    + destruct (Hall (or_introl Hne)) as (pre & post & Ht & Hpre).
      exists post. rewrite Ht, (Hpre Hne). reflexivity.
  - intros Hend. destruct (Hall (or_intror Hend)) as (pre & post & Ht & _).
    now exists pre, post.
Qed.

(** A tile with no list at all and [no_writeout] set, on the back end that
    records its calls: the buffers are cleared with the background tag and
    the opaque resolution is the last call made on them. *)
Lemma opaque_resolution_always_runs_witness :
  let entry := RegTypes.mkEntry 0x10000000 0x80000000 0x80000000 0x80000000
                 0x80000000 0x80000000 in
  let regs := Fixtures.regs_of [(PvrRegs.ISP_BACKGND_T_addr, 0x01000008)] in
  RegTypes.empty (RegTypes.opaque entry) <> 0 /\
  Lists.RenderTile (B := Recording.recording) regs 0 entry
    (Lists.mkCore (B := Recording.recording) (fun _ => 0) [] []) =
  Lists.Done
    (Lists.mkCore (B := Recording.recording) (fun _ => 0)
       [Recording.CallClearFpuCache;
        Recording.CallClearBuffers 0x01000008 0 0;
        Recording.CallRenderParamTags Tile.RM_OPAQUE 0 0]
       [Lists.EvParamTags Tile.RM_OPAQUE 0 0]).
Proof.
  intros entry regs.
  assert (Ho : RegTypes.empty (RegTypes.opaque entry) <> 0)
    by (vm_compute; discriminate).
  assert (Hp : RegTypes.empty (RegTypes.puncht entry) <> 0)
    by (vm_compute; discriminate).
  assert (Ht : RegTypes.empty (RegTypes.trans entry) <> 0)
    by (vm_compute; discriminate).
  split; [exact Ho |].
  destruct (opaque_resolution_always_runs (B := Recording.recording) regs 0
              entry (Lists.mkCore (B := Recording.recording) (fun _ => 0) [] []))
    as (_ & _ & H & _).
  destruct (H Ho) as (_ & H' & _).
  rewrite (H' Hp Ht). reflexivity.
Defined.

(** * Further properties of the code *)

(** X1. [pvr_map32] permutes the 8 MiB of the video memory: two offsets
    below 8 MiB are never mapped to the same byte, whether aligned or not,
    every byte of the array is the image of an offset below 8 MiB, and
    offsets 8 MiB apart are mapped alike. *)
Theorem pvr_map32_permutes_vram :
  (forall o o', 0 <= o < PvrMem.VRAM_SIZE -> 0 <= o' < PvrMem.VRAM_SIZE ->
     PvrMem.pvr_map32 o = PvrMem.pvr_map32 o' -> o = o') /\
  (forall i, PvrMem.in_vram i ->
     exists o, 0 <= o < PvrMem.VRAM_SIZE /\ PvrMem.pvr_map32 o = i) /\
  (forall o, PvrMem.pvr_map32 (o + PvrMem.VRAM_SIZE) = PvrMem.pvr_map32 o).
Proof.
  split; [| split].
  - intros o o'. apply MemFacts.pvr_map32_inj.
  - intros i Hi. exists (Fixtures.pvr_unmap32 i).
    now apply MemFacts.pvr_map32_unmap.
  - intros o. apply MemFacts.pvr_map32_congr.
    unfold PvrMem.VRAM_SIZE. Z.to_euclidean_division_equations. lia.
Qed.

(** The byte 5 of the array is the image of an offset. *)
Lemma pvr_map32_permutes_vram_witness :
  PvrMem.in_vram 5 /\
  exists o, 0 <= o < PvrMem.VRAM_SIZE /\ PvrMem.pvr_map32 o = 5.
Proof.
  assert (H : PvrMem.in_vram 5) by (unfold PvrMem.in_vram, PvrMem.VRAM_SIZE; lia).
  split; [exact H |].
  exact (proj1 (proj2 pvr_map32_permutes_vram) 5 H).
Defined.

(** X2. A 32-bit word written with [pvr_write_area1_32] at a 4-byte-aligned
    address is stored in four bytes inside the array, no other byte
    changing; [vri] reads it back at that address and at every address
    8 MiB away from it, and at any other 4-byte-aligned address [vri]
    reads what it read before the write. *)
Theorem write32_read_back (v : PvrMem.Vram) (addr data addr' : Z) :
  0 <= data < 2 ^ 32 ->
  addr mod 4 = 0 ->
  let v' := PvrMem.pvr_write_area1_32 v addr data in
  (0 <= PvrMem.pvr_map32 addr /\
   PvrMem.pvr_map32 addr + 3 < PvrMem.VRAM_SIZE) /\
  (forall j, j < PvrMem.pvr_map32 addr \/ PvrMem.pvr_map32 addr + 3 < j ->
     v' j = v j) /\
  (addr' mod PvrMem.VRAM_SIZE = addr mod PvrMem.VRAM_SIZE ->
   PvrMem.vri v' addr' = data) /\
  (addr' mod 4 = 0 ->
   addr' mod PvrMem.VRAM_SIZE <> addr mod PvrMem.VRAM_SIZE ->
   PvrMem.vri v' addr' = PvrMem.vri v addr').
Proof.
  intros Hd Ha v'. subst v'.
  unfold PvrMem.vri, PvrMem.pvr_write_area1_32. cbv zeta.
  split; [| split; [| split]].
  - rewrite PvrMem.pvr_map32_arith. unfold PvrMem.VRAM_SIZE.
    change (2 ^ 22) with 4194304. change (2 ^ 20) with 1048576.
    Z.to_euclidean_division_equations. lia.
  - intros j Hj. apply PvrMem.store32_frame.
    unfold PvrMem.store_footprint.
    cbn [seq map In Z.of_nat Pos.of_succ_nat Pos.succ]. lia.
  - intros Heq. rewrite (MemFacts.pvr_map32_congr addr' addr Heq).
    now apply MemFacts.load32_store32.
  - intros Ha' Hne. apply MemFacts.load32_store32_other.
    destruct (MemFacts.pvr_map32_aligned_apart addr' addr Ha' Ha Hne); lia.
Qed.

(** A word written at [0x1000] and read at [0x801000]. *)
Lemma write32_read_back_witness :
  0 <= 0xCAFEF00D < 2 ^ 32 /\ 0x1000 mod 4 = 0 /\
  0x801000 mod PvrMem.VRAM_SIZE = 0x1000 mod PvrMem.VRAM_SIZE /\
  PvrMem.vri (PvrMem.pvr_write_area1_32 (fun _ => 0) 0x1000 0xCAFEF00D)
    0x801000 = 0xCAFEF00D.
Proof.
  assert (Hd : 0 <= 0xCAFEF00D < 2 ^ 32) by lia.
  assert (Hal : 0x1000 mod 4 = 0) by reflexivity.
  assert (Ha : 0x801000 mod PvrMem.VRAM_SIZE = 0x1000 mod PvrMem.VRAM_SIZE)
    by reflexivity.
  split; [exact Hd |]. split; [exact Hal |]. split; [exact Ha |].
  exact (proj1 (proj2 (proj2
           (write32_read_back (fun _ => 0) 0x1000 0xCAFEF00D 0x801000 Hd Hal)))
           Ha).
Defined.

(** X3. Two 16-bit writes with [pvr_write_area1_16], at a 4-byte-aligned
    address and 2 bytes after it, leave the video memory as one 32-bit
    write of the two halves does, the first half in the low 16 bits: [vri]
    reads [lo + hi * 2^16] there. *)
Theorem write16_halves_compose (v : PvrMem.Vram) (addr lo hi : Z) :
  addr mod 4 = 0 -> 0 <= lo < 2 ^ 16 -> 0 <= hi < 2 ^ 16 ->
  (forall j,
     PvrMem.pvr_write_area1_16 (PvrMem.pvr_write_area1_16 v addr lo)
       (addr + 2) hi j =
     PvrMem.pvr_write_area1_32 v addr (lo + hi * 2 ^ 16) j) /\
  PvrMem.vri (PvrMem.pvr_write_area1_16 (PvrMem.pvr_write_area1_16 v addr lo)
                (addr + 2) hi) addr = lo + hi * 2 ^ 16.
Proof.
  intros Ha Hl Hh.
  assert (Hj : forall j,
     PvrMem.pvr_write_area1_16 (PvrMem.pvr_write_area1_16 v addr lo)
       (addr + 2) hi j =
     PvrMem.pvr_write_area1_32 v addr (lo + hi * 2 ^ 16) j).
  { intros j. unfold PvrMem.pvr_write_area1_16, PvrMem.pvr_write_area1_32.
    cbv zeta. rewrite MemFacts.pvr_map32_plus2 by assumption.
    now apply MemFacts.store16_pair. }
  split; [exact Hj |].
  unfold PvrMem.vri, PvrMem.load32. rewrite !Hj.
  change (PvrMem.load32 (PvrMem.pvr_write_area1_32 v addr (lo + hi * 2 ^ 16))
            (PvrMem.pvr_map32 addr) = lo + hi * 2 ^ 16).
  unfold PvrMem.pvr_write_area1_32. cbv zeta.
  apply MemFacts.load32_store32.
  change (2 ^ 16) with 65536 in *. change (2 ^ 32) with 4294967296. lia.
Qed.

(** The halves [0xF00D] and [0xCAFE] written at [0x2000] and [0x2002]. *)
Lemma write16_halves_compose_witness :
  (0x2000 mod 4 = 0 /\ 0 <= 0xF00D < 2 ^ 16 /\ 0 <= 0xCAFE < 2 ^ 16) /\
  PvrMem.vri (PvrMem.pvr_write_area1_16
                (PvrMem.pvr_write_area1_16 (fun _ => 0) 0x2000 0xF00D)
                (0x2000 + 2) 0xCAFE) 0x2000 = 0xF00D + 0xCAFE * 2 ^ 16.
Proof.
  split; [repeat split; (reflexivity || lia) |].
  apply (write16_halves_compose (fun _ => 0) 0x2000 0xF00D 0xCAFE);
    (reflexivity || lia).
Defined.

(** X4. The tag [CoreTagFromDesc] builds is read back field by field with
    the layout of [ISP_BACKGND_T]: each field holds the low bits of its
    argument that fit it (3 bits of the tag offset, 21 of the parameter
    offset, 3 of the skip, 1 of the shadow and 1 of the cache bypass), no
    field disturbs another, and the tag has no bit above bit 28. *)
Theorem CoreTagFromDesc_round_trip
    (cache_bypass shadow skip param_offs_in_words tag_offset : Z) :
  let tag := Lists.CoreTagFromDesc cache_bypass shadow skip
               param_offs_in_words tag_offset in
  PvrRegs.tag_offset tag = tag_offset mod 2 ^ 3 /\
  PvrRegs.tag_param_offs_in_words tag = param_offs_in_words mod 2 ^ 21 /\
  PvrRegs.tag_skip tag = skip mod 2 ^ 3 /\
  PvrRegs.tag_shadow tag = shadow mod 2 /\
  PvrRegs.tag_cache_bypass tag = cache_bypass mod 2 /\
  0 <= tag < 2 ^ 29.
Proof. apply TagFacts.CoreTagFromDesc_fields. Qed.

(** X5. [ReadRegionArrayEntry] in its two formats. With
    [FPU_PARAM_CFG.region_header_type] clear the entry has five words: the
    next entry is 20 bytes further, the punch-through pointer is the empty
    pointer [0x80000000] whatever the memory holds, and [pre_sort] is the
    one of [ISP_FEED_CFG], the other fields of the control word being those
    of the word read. With it set the entry has six words: the next entry
    is 24 bytes further, the control word is the word read, and the
    punch-through pointer is the sixth word. The four other pointers are
    the words 1 to 4 in both formats. *)
Theorem region_entry_formats (emu_regs : PvrRegs.RegFile)
    (emu_vram : PvrMem.Vram) (base : Z) :
  let entry := fst (Lists.ReadRegionArrayEntry emu_regs emu_vram base) in
  let step := snd (Lists.ReadRegionArrayEntry emu_regs emu_vram base) in
  let word k := PvrMem.vri emu_vram (Word.u32 (base + 4 * k)) in
  (PvrRegs.region_header_type emu_regs = 0 ->
   step = 20 /\
   RegTypes.puncht entry = 0x80000000 /\
   RegTypes.empty (RegTypes.puncht entry) = 1 /\
   RegTypes.pre_sort (RegTypes.control entry) = PvrRegs.feed_pre_sort emu_regs /\
   RegTypes.tilex (RegTypes.control entry) = RegTypes.tilex (PvrMem.vri emu_vram base) /\
   RegTypes.tiley (RegTypes.control entry) = RegTypes.tiley (PvrMem.vri emu_vram base) /\
   RegTypes.no_writeout (RegTypes.control entry) =
     RegTypes.no_writeout (PvrMem.vri emu_vram base) /\
   RegTypes.z_keep (RegTypes.control entry) =
     RegTypes.z_keep (PvrMem.vri emu_vram base) /\
   RegTypes.last_region (RegTypes.control entry) =
     RegTypes.last_region (PvrMem.vri emu_vram base)) /\
  (PvrRegs.region_header_type emu_regs <> 0 ->
   step = 24 /\
   RegTypes.control entry = PvrMem.vri emu_vram base /\
   RegTypes.puncht entry = word 5) /\
  (RegTypes.opaque entry = word 1 /\ RegTypes.opaque_mod entry = word 2 /\
   RegTypes.trans entry = word 3 /\ RegTypes.trans_mod entry = word 4).
Proof.
  intros entry step word. subst entry step word.
  unfold Lists.ReadRegionArrayEntry. cbv zeta.
  destruct (Z.eqb_spec (PvrRegs.region_header_type emu_regs) 0) as [Hz | Hnz];
    cbn [fst snd RegTypes.control RegTypes.puncht RegTypes.opaque
         RegTypes.opaque_mod RegTypes.trans RegTypes.trans_mod].
  - split; [| split].
    + intros _.
      destruct (TagFacts.set_pre_sort_fields (PvrMem.vri emu_vram base)
                  (PvrRegs.feed_pre_sort emu_regs))
        as (Hx & Hy & Hw & Hk & Hl & Hp).
      split; [reflexivity |]. split; [reflexivity |]. split; [reflexivity |].
      split.
      { rewrite Hp. unfold PvrRegs.feed_pre_sort.
        pose proof (Word.bits_range 0 1 (PvrRegs.ISP_FEED_CFG emu_regs)
                      ltac:(lia) ltac:(lia)) as Hr.
        change (2 ^ 1) with 2 in Hr. apply Z.mod_small. exact Hr. }
      auto.
    + intros Hnz. contradiction.
    + auto.
  - split; [| split].
    + intros Hz. contradiction.
    + intros _. auto.
    + auto.
Qed.

(** The five-word format, with [pre_sort] set in [ISP_FEED_CFG]. *)
Lemma region_entry_formats_witness :
  PvrRegs.region_header_type
    (Fixtures.regs_of [(PvrRegs.ISP_FEED_CFG_addr, 1)]) = 0 /\
  snd (Lists.ReadRegionArrayEntry
         (Fixtures.regs_of [(PvrRegs.ISP_FEED_CFG_addr, 1)])
         (Fixtures.single_tile_array 0x80000000) 0) = 20 /\
  RegTypes.pre_sort (RegTypes.control (fst (Lists.ReadRegionArrayEntry
         (Fixtures.regs_of [(PvrRegs.ISP_FEED_CFG_addr, 1)])
         (Fixtures.single_tile_array 0x80000000) 0))) = 1.
Proof.
  assert (H : PvrRegs.region_header_type
                (Fixtures.regs_of [(PvrRegs.ISP_FEED_CFG_addr, 1)]) = 0)
    by reflexivity.
  split; [exact H |].
  pose proof (proj1 (region_entry_formats
                       (Fixtures.regs_of [(PvrRegs.ISP_FEED_CFG_addr, 1)])
                       (Fixtures.single_tile_array 0x80000000) 0) H) as Hf.
  cbv zeta in Hf. destruct Hf as (Hs & _ & _ & Hp & _).
  split; [exact Hs | exact Hp].
Defined.

(** X6. [RenderObjectList] returns at a link entry with [end_of_list] set
    and nowhere else: when it returns, the video memory, which it has not
    changed, holds such an entry; it fails no assertion; and on a link
    entry without [end_of_list] that points to itself it never returns,
    whatever the number of turns of its loop. *)
Theorem object_list_returns_at_end_of_list {B : Tile.Backend}
    (emu_regs : PvrRegs.RegFile) (fuel : nat) (mode : Tile.RenderMode)
    (base : Z) (rect : Tile.taRECT) (c : Lists.Core) :
  (forall c',
     Lists.RenderObjectList emu_regs fuel mode base rect c = Lists.Done c' ->
     Lists.vram c' = Lists.vram c /\
     exists a, RegTypes.obj_type (PvrMem.vri (Lists.vram c) a) = 7 /\
               RegTypes.end_of_list (PvrMem.vri (Lists.vram c) a) <> 0) /\
  (forall c',
     Lists.RenderObjectList emu_regs fuel mode base rect c <>
       Lists.AssertFailed c') /\
  (RegTypes.obj_type (PvrMem.vri (Lists.vram c) base) = 7 ->
   RegTypes.end_of_list (PvrMem.vri (Lists.vram c) base) = 0 ->
   RegTypes.next_block_ptr_in_words (PvrMem.vri (Lists.vram c) base) * 4 = base ->
   Lists.RenderObjectList emu_regs fuel mode base rect c = Lists.OutOfFuel c).
Proof.
  pose proof (ObjectListFacts.RenderObjectList_returns emu_regs fuel mode base
                rect c) as H.
  split; [| split].
  - intros c' Hrun. rewrite Hrun in H. exact H.
  - intros c' Hrun. rewrite Hrun in H. exact H.
  - apply ObjectListFacts.RenderObjectList_self_link.
Qed.

(** A link entry at address [0x40] that points to [0x40]. *)
Lemma object_list_returns_at_end_of_list_witness :
  let v := Fixtures.vram_of_words (fun _ => 0xE0000040) in
  (RegTypes.obj_type (PvrMem.vri v 0x40) = 7 /\
   RegTypes.end_of_list (PvrMem.vri v 0x40) = 0 /\
   RegTypes.next_block_ptr_in_words (PvrMem.vri v 0x40) * 4 = 0x40) /\
  Lists.RenderObjectList (B := Fixtures.idle) (Fixtures.regs_of []) 1000
    Tile.RM_OPAQUE 0x40 (Tile.mkRect 0 0 32 32) (Fixtures.idle_core v []) =
  Lists.OutOfFuel (Fixtures.idle_core v []).
Proof.
  intros v.
  assert (H1 : RegTypes.obj_type (PvrMem.vri v 0x40) = 7) by reflexivity.
  assert (H2 : RegTypes.end_of_list (PvrMem.vri v 0x40) = 0) by reflexivity.
  assert (H3 : RegTypes.next_block_ptr_in_words (PvrMem.vri v 0x40) * 4 = 0x40)
    by reflexivity.
  split; [auto |].
  exact (proj2 (proj2 (object_list_returns_at_end_of_list (B := Fixtures.idle)
                         (Fixtures.regs_of []) 1000 Tile.RM_OPAQUE 0x40
                         (Tile.mkRect 0 0 32 32) (Fixtures.idle_core v [])))
           H1 H2 H3).
Defined.

(** X7. In the pre-sorted translucent mode [RenderTriangle] asks for a tag
    resolution at the origin of the tile after every triangle: a strip is
    followed by as many resolutions as its mask has bits set among the six,
    a triangle array and a quad array by [prims + 1] of them. In every
    other mode the three add no tag resolution. *)
Theorem presort_resolves_after_each_triangle {B : Tile.Backend}
    (emu_regs : PvrRegs.RegFile) (mode : Tile.RenderMode) (obj : Z)
    (rect : Tile.taRECT) (c : Lists.Core) :
  let resolutions n :=
    if Tile.RenderMode_eqb mode Tile.RM_TRANSLUCENT_PRESORT
    then repeat (Lists.EvParamTags Tile.RM_TRANSLUCENT_PRESORT
                   (Tile.left rect) (Tile.top rect)) n
    else [] in
  Lists.trace (Lists.RenderTriangleStrip emu_regs mode obj rect c) =
    Lists.trace c ++
    resolutions (length (filter (Z.testbit (RegTypes.mask obj))
                                [0; 1; 2; 3; 4; 5])) /\
  Lists.trace (Lists.RenderTriangleArray emu_regs mode obj rect c) =
    Lists.trace c ++ resolutions (Z.to_nat (RegTypes.prims obj + 1)) /\
  Lists.trace (Lists.RenderQuadArray emu_regs mode obj rect c) =
    Lists.trace c ++ resolutions (Z.to_nat (RegTypes.prims obj + 1)).
Proof.
  intros resolutions. split; [| split].
  - rewrite ObjectListFacts.trace_RenderTriangleStrip.
    now rewrite ObjectListFacts.length_strip_triangles.
  - unfold Lists.RenderTriangleArray. cbv zeta.
    apply ObjectListFacts.trace_triangle_array_loop.
  - unfold Lists.RenderQuadArray. cbv zeta.
    apply ObjectListFacts.trace_quad_array_loop.
Qed.

(** X8. On a supported configuration the write-out of a tile is
    [write_pixel] at its 1024 pixels, line by line and from left to right:
    the pixel [(x, y)] is read at byte [4 * (32 * y + x)] of the color
    buffer and goes to the address [FB_W_SOF1 + tilex * 32 * bpp +
    tiley * 32 * stride * 8 + y * stride * 8 + x * bpp], kept to 32 bits,
    where [bpp] is 2 in pack mode 1 and 4 otherwise and [stride] is the
    one of [FB_W_LINESTRIDE]. *)
Theorem write_out_pixel_order {B : Tile.Backend} (emu_regs : PvrRegs.RegFile)
    (entry : RegTypes.RegionArrayEntry) (c : Lists.Core) :
  TileFacts.config_supported emu_regs = true ->
  let bpp := if PvrRegs.fb_packmode emu_regs =? 1 then 2 else 4 in
  let stride := PvrRegs.stride emu_regs in
  let origin :=
    PvrRegs.FB_W_SOF1 emu_regs +
    (RegTypes.tilex (RegTypes.control entry) * 32 * bpp +
     RegTypes.tiley (RegTypes.control entry) * 32 * stride * 8) in
  let pixels :=
    flat_map (fun y => map (fun x => (Z.of_nat x, Z.of_nat y)) (seq 0 32))
             (seq 0 32) in
  Lists.write_out emu_regs entry c =
  Lists.Done
    (fold_left
       (fun c '(x, y) =>
          Lists.write_pixel (PvrRegs.fb_packmode emu_regs) x y
            (4 * (32 * y + x))
            (Word.u32 (origin + y * stride * 8 + x * bpp)) c)
       pixels c).
Proof.
  intros Hcfg bpp stride origin pixels.
  rewrite TileFacts.write_out_cases, Hcfg.
  rewrite (WriteOutFacts.write_lines_fold emu_regs 32 _ _ _ _ 0%nat c).
  rewrite WriteOutFacts.tile_pixels_eq.
  unfold TileFacts.pixel_bytes. reflexivity.
Qed.

(** The registers [regs_aligned] and the tile at the origin. *)
Lemma write_out_pixel_order_witness :
  TileFacts.config_supported Fixtures.regs_aligned = true /\
  exists c',
    Lists.write_out (B := Fixtures.idle) Fixtures.regs_aligned
      (RegTypes.mkEntry 0 0x80000000 0x80000000 0x80000000 0x80000000
                        0x80000000)
      (Fixtures.idle_core (fun _ => 0) []) = Lists.Done c'.
Proof.
  assert (H : TileFacts.config_supported Fixtures.regs_aligned = true)
    by reflexivity.
  split; [exact H |].
  eexists.
  exact (write_out_pixel_order (B := Fixtures.idle) Fixtures.regs_aligned
           (RegTypes.mkEntry 0 0x80000000 0x80000000 0x80000000 0x80000000
                             0x80000000)
           (Fixtures.idle_core (fun _ => 0) []) H).
Defined.



(** X10. The RGB565 quantization of the write-out keeps the order of
    colors and the two ends of the range, at every pixel position: a
    component that is not smaller gives a quantized component that is not
    smaller, black [(0, 0, 0)] gives [(0, 0, 0)] and white
    [(255, 255, 255)] gives [(31, 63, 31)]; and the threshold pattern
    repeats every 4 pixels in both directions. *)
Theorem dither565_monotone (x y : Z) :
  (forall r g b r' g' b', r <= r' -> g <= g' -> b <= b' ->
     let '(r5, g6, b5) := Lists.dither565 x y r g b in
     let '(r5', g6', b5') := Lists.dither565 x y r' g' b' in
     r5 <= r5' /\ g6 <= g6' /\ b5 <= b5') /\
  Lists.dither565 x y 0 0 0 = (0, 0, 0) /\
  Lists.dither565 x y 255 255 255 = (31, 63, 31) /\
  (forall i j r g b,
     Lists.dither565 (x + 4 * i) (y + 4 * j) r g b = Lists.dither565 x y r g b).
Proof.
  split; [| split; [| split]].
  - intros r g b r' g' b'. apply DitherMore.dither565_mono.
  - pose proof (DitherFacts.bayer_range y x) as HT.
    unfold Lists.dither565. cbv zeta.
    destruct (DitherFacts.quantize_in_range 0 31 (Lists.bayer y x) 31
                ltac:(lia) HT ltac:(lia) eq_refl) as [-> _].
    destruct (DitherFacts.quantize_in_range 0 63 (Lists.bayer y x) 63
                ltac:(lia) HT ltac:(lia) eq_refl) as [-> _].
    change (0 * 31) with 0. change (0 * 63) with 0. rewrite Z.add_0_l.
    rewrite Z.div_small by lia. reflexivity.
  - pose proof (DitherFacts.bayer_range y x) as HT.
    unfold Lists.dither565. cbv zeta.
    destruct (DitherFacts.quantize_in_range 255 31 (Lists.bayer y x) 31
                ltac:(lia) HT ltac:(lia) eq_refl) as [-> _].
    destruct (DitherFacts.quantize_in_range 255 63 (Lists.bayer y x) 63
                ltac:(lia) HT ltac:(lia) eq_refl) as [-> _].
    replace ((255 * 31 + Lists.bayer y x) / 255) with 31
      by (Z.to_euclidean_division_equations; lia).
    replace ((255 * 63 + Lists.bayer y x) / 255) with 63
      by (Z.to_euclidean_division_equations; lia).
    reflexivity.
  - intros i j r g b. apply DitherMore.dither565_period.
Qed.

(** Mid grey is not above a lighter grey at the pixel (1, 2). *)
Lemma dither565_monotone_witness :
  (128 <= 200 /\ 128 <= 200 /\ 128 <= 200) /\
  let '(r5, g6, b5) := Lists.dither565 1 2 128 128 128 in
  let '(r5', g6', b5') := Lists.dither565 1 2 200 200 200 in
  r5 <= r5' /\ g6 <= g6' /\ b5 <= b5'.
Proof.
  split; [lia |].
  apply (proj1 (dither565_monotone 1 2) 128 128 128 200 200 200); lia.
Defined.

(** X11. The ordered dither of the write-out is exact on average: for a
    uniform 8-bit level [v], the sixteen quantized values of a 4 by 4 block
    of pixels add up to [(v * 496 + 143) / 255] for red and blue and to
    [(v * 1008 + 143) / 255] for green, which is the level on a scale 16
    times finer than the 5 or 6 bits of one pixel. *)
Theorem dither565_block_average (v : Z) :
  0 <= v <= 255 ->
  let sum f :=
    fold_right Z.add 0
      (flat_map (fun y => map (fun x => f (Lists.dither565 x y v v v))
                              [0; 1; 2; 3]) [0; 1; 2; 3]) in
  sum (fun c => fst (fst c)) = (v * 496 + 143) / 255 /\
  sum (fun c => snd (fst c)) = (v * 1008 + 143) / 255 /\
  sum (fun c => snd c) = (v * 496 + 143) / 255.
Proof.
  intros Hv sum. subst sum.
  pose proof (Exhaust.forall_below_spec _ _ DitherMore.block_checked v
                ltac:(lia)) as H.
  unfold DitherMore.block_ok in H.
  apply andb_true_iff in H. destruct H as [H Hb].
  apply andb_true_iff in H. destruct H as [Hr Hg].
  apply Z.eqb_eq in Hr. apply Z.eqb_eq in Hg. apply Z.eqb_eq in Hb.
  split; [exact Hr | split; [exact Hg | exact Hb]].
Qed.

(** The level 100 over a block: red adds up to 195, green to 395. *)
Lemma dither565_block_average_witness :
  0 <= 100 <= 255 /\
  (100 * 496 + 143) / 255 = 195 /\ (100 * 1008 + 143) / 255 = 395 /\
  fold_right Z.add 0
    (flat_map (fun y => map (fun x => fst (fst (Lists.dither565 x y 100 100 100)))
                            [0; 1; 2; 3]) [0; 1; 2; 3]) =
  (100 * 496 + 143) / 255.
Proof.
  split; [lia |]. split; [reflexivity |]. split; [reflexivity |].
  apply (dither565_block_average 100). lia.
Defined.

(** X12. A pixel written out as RGB565 and unpacked again with
    [ARGB565_32], as a texture of that format is, comes back opaque, with
    its components in the same channels and close to what they were: red
    and blue are [8 * r5] and [8 * b5], between 14 below and 7 above the
    8-bit value written, green is [4 * g6], between 6 below and 3 above. *)
Theorem rgb565_reread_error (x y r8 g8 b8 : Z) :
  0 <= r8 <= 255 -> 0 <= g8 <= 255 -> 0 <= b8 <= 255 ->
  let color :=
    TexUtils.ARGB565_32 (Lists.pack565 (Lists.dither565 x y r8 g8 b8)) in
  (-14 <= TexUtils.channel 0 color - r8 <= 7) /\
  (-6 <= TexUtils.channel 1 color - g8 <= 3) /\
  (-14 <= TexUtils.channel 2 color - b8 <= 7) /\
  TexUtils.channel 3 color = 255.
Proof.
  intros Hr Hg Hb color. subst color.
  pose proof (DitherFacts.bayer_range y x) as HT.
  unfold Lists.dither565. cbv zeta.
  destruct (DitherFacts.quantize_in_range r8 31 (Lists.bayer y x) 31
              Hr HT ltac:(lia) eq_refl) as [-> Hr5].
  destruct (DitherFacts.quantize_in_range g8 63 (Lists.bayer y x) 63
              Hg HT ltac:(lia) eq_refl) as [-> Hg6].
  destruct (DitherFacts.quantize_in_range b8 31 (Lists.bayer y x) 31
              Hb HT ltac:(lia) eq_refl) as [-> Hb5].
  revert Hr5 Hg6 Hb5.
  assert (Hq : forall v k, 0 <= v <= 255 ->
            255 * ((v * k + Lists.bayer y x) / 255) <= v * k + 248 /\
            v * k - 246 <= 255 * ((v * k + Lists.bayer y x) / 255)).
  { intros v k Hvk. Z.to_euclidean_division_equations. lia. }
  pose proof (Hq r8 31 Hr) as Qr. pose proof (Hq g8 63 Hg) as Qg.
  pose proof (Hq b8 31 Hb) as Qb. clear Hq.
  generalize dependent ((r8 * 31 + Lists.bayer y x) / 255). intros r5 Qr.
  generalize dependent ((g8 * 63 + Lists.bayer y x) / 255). intros g6 Qg.
  generalize dependent ((b8 * 31 + Lists.bayer y x) / 255). intros b5 Qb.
  intros Hr5 Hg6 Hb5.
  destruct (DitherFacts.pack565_fields r5 g6 b5 Hr5 Hg6 Hb5) as (Fr & Fg & Fb).
  unfold Lists.red565, Lists.green565, Lists.blue565 in Fr, Fg, Fb.
  assert (Hw : 0 <= Lists.pack565 (r5, g6, b5) < 2 ^ 16).
  { rewrite DitherFacts.pack565_sum by assumption.
    change (2 ^ 5) with 32. change (2 ^ 11) with 2048. change (2 ^ 16) with 65536.
    lia. }
  destruct (UnpackFacts.unpack_facts _ Hw) as (H565 & _ & _).
  unfold UnpackFacts.unpack_565_ok in H565. cbv zeta in H565.
  repeat (apply andb_true_iff in H565; destruct H565 as [H565 ?]).
  repeat match goal with
         | H : (_ =? _) = true |- _ => apply Z.eqb_eq in H
         end.
  rewrite Fr, Fg, Fb in *.
  repeat split; lia.
Qed.

(** Mid grey at the pixel (0, 0). *)
Lemma rgb565_reread_error_witness :
  (0 <= 128 <= 255 /\ 0 <= 128 <= 255 /\ 0 <= 128 <= 255) /\
  TexUtils.channel 3
    (TexUtils.ARGB565_32 (Lists.pack565 (Lists.dither565 0 0 128 128 128))) =
  255.
Proof.
  split; [lia |].
  apply (rgb565_reread_error 0 0 128 128 128); lia.
Defined.

(** X13. For every 16-bit texel, [ARGB565_32] gives an opaque color (alpha
    [0xFF]) whose channels 0, 1 and 2 hold the 5-bit field of bits 0..4,
    the 6-bit field of bits 5..10 and the 5-bit field of bits 11..15 in
    their high bits, the low 3, 2 and 3 bits being zero. *)
Theorem ARGB565_32_channels (word : Z) :
  0 <= word < 2 ^ 16 ->
  TexUtils.channel 0 (TexUtils.ARGB565_32 word) = 8 * Word.bits 0 5 word /\
  TexUtils.channel 1 (TexUtils.ARGB565_32 word) = 4 * Word.bits 5 6 word /\
  TexUtils.channel 2 (TexUtils.ARGB565_32 word) = 8 * Word.bits 11 5 word /\
  TexUtils.channel 3 (TexUtils.ARGB565_32 word) = 0xFF.
Proof.
  intros Hw. destruct (UnpackFacts.unpack_facts word Hw) as (H & _ & _).
  unfold UnpackFacts.unpack_565_ok in H. cbv zeta in H.
  repeat (apply andb_true_iff in H; destruct H as [H ?]).
  repeat match goal with
         | H : (_ =? _) = true |- _ => apply Z.eqb_eq in H
         end.
  auto.
Qed.

(** The texel [0xFFFF] is unpacked to [0xFFF8FCF8]. *)
Lemma ARGB565_32_channels_witness :
  0 <= 0xFFFF < 2 ^ 16 /\
  TexUtils.channel 1 (TexUtils.ARGB565_32 0xFFFF) = 4 * Word.bits 5 6 0xFFFF /\
  TexUtils.ARGB565_32 0xFFFF = 0xFFF8FCF8.
Proof.
  split; [lia |]. split; [| reflexivity].
  apply (ARGB565_32_channels 0xFFFF). lia.
Defined.

(** X14. For every 16-bit texel, [ARGB1555_32] gives a color whose alpha is
    all or nothing, [0xFF] when bit 15 of the texel is set and 0 when it is
    clear, and whose channels 0, 1 and 2 hold the 5-bit fields of bits
    0..4, 5..9 and 10..14 in their high five bits, the low three being
    zero. *)
Theorem ARGB1555_32_channels (word : Z) :
  0 <= word < 2 ^ 16 ->
  TexUtils.channel 0 (TexUtils.ARGB1555_32 word) = 8 * Word.bits 0 5 word /\
  TexUtils.channel 1 (TexUtils.ARGB1555_32 word) = 8 * Word.bits 5 5 word /\
  TexUtils.channel 2 (TexUtils.ARGB1555_32 word) = 8 * Word.bits 10 5 word /\
  TexUtils.channel 3 (TexUtils.ARGB1555_32 word) =
    (if Z.testbit word 15 then 0xFF else 0).
Proof.
  intros Hw. destruct (UnpackFacts.unpack_facts word Hw) as (_ & H & _).
  unfold UnpackFacts.unpack_1555_ok in H. cbv zeta in H.
  repeat (apply andb_true_iff in H; destruct H as [H ?]).
  repeat match goal with
         | H : (_ =? _) = true |- _ => apply Z.eqb_eq in H
         end.
  repeat split; try assumption.
  match goal with
  | H : TexUtils.channel 3 _ = _ |- _ => rewrite H
  end.
  unfold Word.bits. rewrite Z.land_ones, Z.shiftr_div_pow2 by lia.
  rewrite <- Z.testbit_spec' by lia.
  destruct (Z.testbit word 15); reflexivity.
Qed.

(** The texel [0x8000]: alpha only. *)
Lemma ARGB1555_32_channels_witness :
  0 <= 0x8000 < 2 ^ 16 /\
  TexUtils.channel 3 (TexUtils.ARGB1555_32 0x8000) =
    (if Z.testbit 0x8000 15 then 0xFF else 0) /\
  TexUtils.ARGB1555_32 0x8000 = 0xFF000000.
Proof.
  split; [lia |]. split; [| reflexivity].
  apply (ARGB1555_32_channels 0x8000). lia.
Defined.

(** X15. The three unpackers of 16-bit texels lose nothing: two texels that
    [ARGB565_32], [ARGB1555_32] or [ARGB4444_32] unpack to the same color
    are the same texel; and the color fits 32 bits. *)
Theorem unpack_lossless (word word' : Z) :
  0 <= word < 2 ^ 16 -> 0 <= word' < 2 ^ 16 ->
  (TexUtils.ARGB565_32 word = TexUtils.ARGB565_32 word' -> word = word') /\
  (TexUtils.ARGB1555_32 word = TexUtils.ARGB1555_32 word' -> word = word') /\
  (TexUtils.ARGB4444_32 word = TexUtils.ARGB4444_32 word' -> word = word') /\
  TexUtils.ARGB565_32 word < 2 ^ 32 /\ TexUtils.ARGB1555_32 word < 2 ^ 32 /\
  TexUtils.ARGB4444_32 word < 2 ^ 32.
Proof.
  intros Hw Hw'.
  destruct (UnpackFacts.unpack_facts word Hw) as (H1 & H2 & H3).
  destruct (UnpackFacts.unpack_facts word' Hw') as (H1' & H2' & H3').
  unfold UnpackFacts.unpack_565_ok, UnpackFacts.unpack_1555_ok,
    UnpackFacts.unpack_4444_ok in *.
  cbv zeta in *.
  repeat match goal with
         | H : (_ && _) = true |- _ =>
             apply andb_true_iff in H; destruct H as [H ?]
         end.
  repeat match goal with
         | H : (_ =? _) = true |- _ => apply Z.eqb_eq in H
         | H : (_ <? _) = true |- _ => apply Z.ltb_lt in H
         end.
  repeat split; try assumption; intros Heq.
  - match goal with
    | Ha : _ = word, Hb : _ = word' |- _ =>
        rewrite <- Ha, <- Hb, Heq; reflexivity
    end.
  - match goal with
    | Ha : _ + Word.bits 31 1 _ * _ = word,
      Hb : _ + Word.bits 31 1 _ * _ = word' |- _ =>
        rewrite <- Ha, <- Hb, Heq; reflexivity
    end.
  - match goal with
    | Ha : _ + Word.bits 28 4 _ * _ = word,
      Hb : _ + Word.bits 28 4 _ * _ = word' |- _ =>
        rewrite <- Ha, <- Hb, Heq; reflexivity
    end.
Qed.

(** Two texels that differ in one bit. *)
Lemma unpack_lossless_witness :
  (0 <= 0x1234 < 2 ^ 16 /\ 0 <= 0x1235 < 2 ^ 16) /\
  (TexUtils.ARGB4444_32 0x1234 = TexUtils.ARGB4444_32 0x1235 ->
   0x1234 = 0x1235) /\
  TexUtils.ARGB4444_32 0x1234 <> TexUtils.ARGB4444_32 0x1235.
Proof.
  split; [lia |]. split; [| vm_compute; discriminate].
  apply (unpack_lossless 0x1234 0x1235); lia.
Defined.

(** X16. [YUV422] on three bytes gives an opaque color whose channels 0, 1
    and 2 are the red, green and blue values [Y + (Yv-128)*11/8],
    [Y - ((Yu-128)*11 + (Yv-128)*22)/32] and [Y + (Yu-128)*110/64], with
    divisions that truncate, each clamped to [0, 255]. With neutral chroma
    ([Yu = Yv = 128]) the color is the grey [(Y, Y, Y)]; red does not
    decrease when [Yv] grows, nor blue when [Yu] grows. *)
Theorem YUV422_channels (Y Yu Yv : Z) :
  0 <= Y <= 255 -> 0 <= Yu <= 255 -> 0 <= Yv <= 255 ->
  let color := TexUtils.YUV422 Y Yu Yv in
  TexUtils.channel 0 color =
    Z.min 255 (Z.max 0 (Y + Z.quot ((Yv - 128) * 11) 8)) /\
  TexUtils.channel 1 color =
    Z.min 255 (Z.max 0 (Y - Z.quot ((Yu - 128) * 11 + (Yv - 128) * 22) 32)) /\
  TexUtils.channel 2 color =
    Z.min 255 (Z.max 0 (Y + Z.quot ((Yu - 128) * 110) 64)) /\
  TexUtils.channel 3 color = 0xFF /\
  TexUtils.YUV422 Y 128 128 = Y + Y * 2 ^ 8 + Y * 2 ^ 16 + 0xFF * 2 ^ 24 /\
  (forall Yv', Yv <= Yv' <= 255 ->
     TexUtils.channel 0 color <= TexUtils.channel 0 (TexUtils.YUV422 Y Yu Yv')) /\
  (forall Yu', Yu <= Yu' <= 255 ->
     TexUtils.channel 2 color <= TexUtils.channel 2 (TexUtils.YUV422 Y Yu' Yv)).
Proof.
  intros HY HU HV color. subst color.
  assert (Hch : forall y u v, 0 <= y <= 255 -> 0 <= u <= 255 -> 0 <= v <= 255 ->
    TexUtils.channel 0 (TexUtils.YUV422 y u v) =
      TexUtils.cclamp 0 255 (y + Z.quot ((v - 128) * 11) 8) /\
    TexUtils.channel 1 (TexUtils.YUV422 y u v) =
      TexUtils.cclamp 0 255 (y - Z.quot ((u - 128) * 11 + (v - 128) * 22) 32) /\
    TexUtils.channel 2 (TexUtils.YUV422 y u v) =
      TexUtils.cclamp 0 255 (y + Z.quot ((u - 128) * 110) 64) /\
    TexUtils.channel 3 (TexUtils.YUV422 y u v) = 255).
  { intros y u v Hy Hu Hv. unfold TexUtils.YUV422. cbv zeta.
    rewrite UnpackFacts.packRGB_sum by (apply UnpackFacts.cclamp_range; lia).
    apply UnpackFacts.channels_of_sum; try lia;
      apply UnpackFacts.cclamp_range; lia. }
  destruct (Hch Y Yu Yv HY HU HV) as (H0 & H1 & H2 & H3).
  split; [exact H0 |]. split; [exact H1 |]. split; [exact H2 |].
  split; [exact H3 |]. split; [| split].
  - unfold TexUtils.YUV422. cbv zeta.
    change (128 - 128) with 0. change (0 * 11) with 0. change (0 * 22) with 0.
    change (0 * 110) with 0. change (0 + 0) with 0.
    change (Z.quot 0 8) with 0. change (Z.quot 0 32) with 0.
    change (Z.quot 0 64) with 0.
    rewrite Z.add_0_r, Z.sub_0_r.
    replace (TexUtils.cclamp 0 255 Y) with Y by (unfold TexUtils.cclamp; lia).
    now apply UnpackFacts.packRGB_sum.
  - intros Yv' Hv'. rewrite H0.
    destruct (Hch Y Yu Yv' HY HU ltac:(lia)) as (H0' & _). rewrite H0'.
    apply UnpackFacts.cclamp_mono.
    apply Z.add_le_mono_l. apply Z.quot_le_mono; lia.
  - intros Yu' Hu'. rewrite H2.
    destruct (Hch Y Yu' Yv HY ltac:(lia) HV) as (_ & _ & H2' & _). rewrite H2'.
    apply UnpackFacts.cclamp_mono.
    apply Z.add_le_mono_l. apply Z.quot_le_mono; lia.
Qed.

(** The grey of level 200. *)
Lemma YUV422_channels_witness :
  (0 <= 200 <= 255 /\ 0 <= 128 <= 255 /\ 0 <= 128 <= 255) /\
  TexUtils.channel 0 (TexUtils.YUV422 200 128 128) =
    Z.min 255 (Z.max 0 (200 + Z.quot ((128 - 128) * 11) 8)) /\
  TexUtils.YUV422 200 128 128 = 0xFFC8C8C8.
Proof.
  split; [lia |]. split; [| reflexivity].
  apply (YUV422_channels 200 128 128); lia.
Defined.

(** X17. The table look-up is right for rectangular textures too. After
    [InitTexUtils], for log-sizes [bcx], [bcy] up to 10 and coordinates
    inside the [2^bcx] by [2^bcy] texture, [twop2(x, y, bcx, bcy)] is
    [twiddle_slow(x, y, 1 << bcx, 1 << bcy)]; and [twop], which adds 3 to
    both log-sizes, is the same for the sizes from 8 to 1024. *)
Theorem twop_rectangular (x y bcx bcy : N) :
  ((bcx <= 10)%N -> (bcy <= 10)%N -> (x < 2 ^ bcx)%N -> (y < 2 ^ bcy)%N ->
   TexUtils.twop2 x y bcx bcy =
     TexUtils.twiddle_slow x y (N.shiftl 1 bcx) (N.shiftl 1 bcy)) /\
  ((bcx <= 7)%N -> (bcy <= 7)%N ->
   (x < 2 ^ (bcx + 3))%N -> (y < 2 ^ (bcy + 3))%N ->
   TexUtils.twop x y bcx bcy =
     TexUtils.twiddle_slow x y (N.shiftl 8 bcx) (N.shiftl 8 bcy)).
Proof.
  assert (H2 : forall bx by_, (bx <= 10)%N -> (by_ <= 10)%N ->
            (x < 2 ^ bx)%N -> (y < 2 ^ by_)%N ->
            TexUtils.twop2 x y bx by_ =
              TexUtils.twiddle_slow x y (N.shiftl 1 bx) (N.shiftl 1 by_)).
  { intros bx by_ Hbx Hby Hx Hy.
    pose proof (TwiddleFacts.pow2_le_1024 bx Hbx).
    pose proof (TwiddleFacts.pow2_le_1024 by_ Hby).
    destruct (TwiddleRect.twiddle_slow_rect bx by_ x y Hbx Hby Hx Hy)
      as [Hsum Hlt].
    cbv zeta in Hsum, Hlt.
    unfold TexUtils.twop2.
    rewrite TwiddleFacts.detwiddle_0, TwiddleFacts.detwiddle_1 by lia.
    rewrite <- Hsum. unfold TexUtils.wrap32. apply N.mod_small.
    eapply N.lt_le_trans; [exact Hlt |].
    apply N.pow_le_mono_r; lia. }
  split.
  - apply H2.
  - intros Hbx Hby Hx Hy.
    change (TexUtils.twop x y bcx bcy)
      with (TexUtils.twop2 x y (bcx + 3) (bcy + 3)).
    rewrite H2 by lia.
    assert (Hs : forall b, N.shiftl 1 (b + 3) = N.shiftl 8 b).
    { intros b. rewrite !N.shiftl_mul_pow2, N.pow_add_r. lia. }
    now rewrite !Hs.
Qed.

(** The texel (5, 2) of a 16 by 4 texture. *)
Lemma twop_rectangular_witness :
  ((4 <= 10)%N /\ (2 <= 10)%N /\ (5 < 2 ^ 4)%N /\ (2 < 2 ^ 2)%N) /\
  TexUtils.twop2 5 2 4 2 =
    TexUtils.twiddle_slow 5 2 (N.shiftl 1 4) (N.shiftl 1 2).
Proof.
  split; [repeat split; vm_compute; congruence |].
  apply (proj1 (twop_rectangular 5 2 4 2)); vm_compute; congruence.
Defined.

(** X18. [twiddle_slow] gives every texel a place of its own: for a
    [2^bcx] by [2^bcy] texture with log-sizes up to 10, two texels inside
    the texture with the same twiddled index are the same texel, and the
    index is below the [2^(bcx+bcy)] texels of the texture. *)
Theorem twiddle_slow_injective (bcx bcy x y x' y' : N) :
  (bcx <= 10)%N -> (bcy <= 10)%N ->
  (x < 2 ^ bcx)%N -> (y < 2 ^ bcy)%N -> (x' < 2 ^ bcx)%N -> (y' < 2 ^ bcy)%N ->
  (TexUtils.twiddle_slow x y (N.shiftl 1 bcx) (N.shiftl 1 bcy) <
     2 ^ (bcx + bcy))%N /\
  (TexUtils.twiddle_slow x y (N.shiftl 1 bcx) (N.shiftl 1 bcy) =
   TexUtils.twiddle_slow x' y' (N.shiftl 1 bcx) (N.shiftl 1 bcy) ->
   x = x' /\ y = y').
Proof.
  intros Hbx Hby Hx Hy Hx' Hy'. split.
  - apply (TwiddleRect.twiddle_slow_rect bcx bcy x y); assumption.
  - now apply TwiddleRect.twiddle_slow_inj.
Qed.

(** The texel (3, 1) of an 8 by 2 texture is at index 7 of 16. *)
Lemma twiddle_slow_injective_witness :
  ((3 <= 10)%N /\ (1 <= 10)%N /\ (3 < 2 ^ 3)%N /\ (1 < 2 ^ 1)%N) /\
  TexUtils.twiddle_slow 3 1 (N.shiftl 1 3) (N.shiftl 1 1) = 7%N /\
  (TexUtils.twiddle_slow 3 1 (N.shiftl 1 3) (N.shiftl 1 1) < 2 ^ (3 + 1))%N.
Proof.
  split; [repeat split; vm_compute; congruence |].
  split; [vm_compute; reflexivity |].
  apply (twiddle_slow_injective 3 1 3 1 3 1); vm_compute; congruence.
Defined.

(** X19. With products accurate to a thousandth, every entry the second
    loop of [InitTexUtils] stores is within the range of [int8_t], so that
    the conversion is a defined one: the entries of [BM_SIN90] and
    [BM_COS90] lie in [0, 127] (a product just below zero is truncated to
    0), those of [BM_COS360] in [-127, 127]. *)
Theorem bump_tables_in_range
    (product_sin90 product_cos90 product_cos360 : Z -> R) (i : Z) :
  BumpTables.accurate product_sin90 BumpTables.exact_sin90 ->
  BumpTables.accurate product_cos90 BumpTables.exact_cos90 ->
  BumpTables.accurate product_cos360 BumpTables.exact_cos360 ->
  0 <= i < 256 ->
  0 <= BumpTables.BM_SIN90 product_sin90 i <= 127 /\
  0 <= BumpTables.BM_COS90 product_cos90 i <= 127 /\
  -127 <= BumpTables.BM_COS360 product_cos360 i <= 127.
Proof. apply BumpRange.bump_range. Qed.

(** The entry 37 of the tables of exact products. *)
Lemma bump_tables_in_range_witness :
  (BumpTables.accurate BumpTables.exact_sin90 BumpTables.exact_sin90 /\
   BumpTables.accurate BumpTables.exact_cos90 BumpTables.exact_cos90 /\
   BumpTables.accurate BumpTables.exact_cos360 BumpTables.exact_cos360 /\
   0 <= 37 < 256) /\
  0 <= BumpTables.BM_SIN90 BumpTables.exact_sin90 37 <= 127.
Proof.
  split.
  - split; [apply BumpFacts.accurate_exact |].
    split; [apply BumpFacts.accurate_exact |].
    split; [apply BumpFacts.accurate_exact | lia].
  - apply (bump_tables_in_range BumpTables.exact_sin90 BumpTables.exact_cos90
             BumpTables.exact_cos360 37);
      try apply BumpFacts.accurate_exact; lia.
Defined.

(** X20. [vert_packed_color_] splits a 32-bit color into its four bytes,
    least significant first, and the packing of the 32-bit write-out puts
    them together again: each is the inverse of the other. *)
Theorem vert_packed_color_round_trip :
  (forall src, 0 <= src < 2 ^ 32 ->
     let '(to0, to1, to2, to3) := Lists.vert_packed_color_ src in
     (0 <= to0 < 256 /\ 0 <= to1 < 256 /\ 0 <= to2 < 256 /\ 0 <= to3 < 256) /\
     Lists.pack8888 to0 to1 to2 to3 = src) /\
  (forall s0 s1 s2 s3,
     0 <= s0 < 256 -> 0 <= s1 < 256 -> 0 <= s2 < 256 -> 0 <= s3 < 256 ->
     Lists.vert_packed_color_ (Lists.pack8888 s0 s1 s2 s3) = (s0, s1, s2, s3)).
Proof.
  split.
  - intros src Hs. unfold Lists.vert_packed_color_, Lists.pack8888. cbv zeta.
    rewrite !Z.shiftr_shiftr, !Z.shiftr_div_pow2 by lia.
    change (2 ^ 8) with 256. change (2 ^ (8 + 8)) with 65536.
    change (2 ^ (8 + 8 + 8)) with 16777216.
    change (2 ^ 32) with 4294967296 in Hs.
    split.
    + repeat split; try apply Z.mod_pos_bound; lia.
    + unfold Word.u32. change (2 ^ 32) with 4294967296.
      Z.to_euclidean_division_equations. lia.
  - intros s0 s1 s2 s3 H0 H1 H2 H3.
    unfold Lists.vert_packed_color_, Lists.pack8888. cbv zeta.
    rewrite Word.u32_small by (change (2 ^ 32) with 4294967296; lia).
    rewrite !Z.shiftr_shiftr, !Z.shiftr_div_pow2 by lia.
    change (2 ^ 8) with 256. change (2 ^ (8 + 8)) with 65536.
    change (2 ^ (8 + 8 + 8)) with 16777216.
    repeat f_equal; Z.to_euclidean_division_equations; lia.
Qed.

(** The color [0x80FF4020]. *)
Lemma vert_packed_color_round_trip_witness :
  0 <= 0x80FF4020 < 2 ^ 32 /\
  Lists.vert_packed_color_ 0x80FF4020 = (0x20, 0x40, 0xFF, 0x80) /\
  Lists.pack8888 0x20 0x40 0xFF 0x80 = 0x80FF4020.
Proof.
  assert (H : 0 <= 0x80FF4020 < 2 ^ 32) by lia.
  split; [exact H |]. split; [reflexivity |].
  exact (proj2 (proj1 vert_packed_color_round_trip 0x80FF4020 H)).
Defined.

(** X21. What a tile can ask for and store. However far the tile of an
    entry comes, each of its events is a tag resolution at the origin of
    the tile or a store of the write-out: the opaque resolution apart, a
    punch-through resolution ([PASS0]) needs a punch-through list, the
    modifier-volume resolution ([MV]) a punch-through list and an opaque
    modifier list, an auto-sort resolution a translucent list with
    [pre_sort] clear, a pre-sort resolution a translucent list with
    [pre_sort] set; no tag is ever resolved in the modes [PASSN] and
    [MODIFIER]; and nothing is stored when [no_writeout] is set. *)
Theorem tile_events_allowed {B : Tile.Backend} (emu_regs : PvrRegs.RegFile)
    (fuel : nat) (entry : RegTypes.RegionArrayEntry) (c : Lists.Core) :
  let allowed e :=
    match e with
    | Lists.EvParamTags mode l t =>
        l = RegTypes.tilex (RegTypes.control entry) * 32 /\
        t = RegTypes.tiley (RegTypes.control entry) * 32 /\
        match mode with
        | Tile.RM_OPAQUE => True
        | Tile.RM_PUNCHTHROUGH_PASS0 =>
            RegTypes.empty (RegTypes.puncht entry) = 0
        | Tile.RM_PUNCHTHROUGH_MV =>
            RegTypes.empty (RegTypes.puncht entry) = 0 /\
            RegTypes.empty (RegTypes.opaque_mod entry) = 0
        | Tile.RM_TRANSLUCENT_AUTOSORT =>
            RegTypes.empty (RegTypes.trans entry) = 0 /\
            RegTypes.pre_sort (RegTypes.control entry) = 0
        | Tile.RM_TRANSLUCENT_PRESORT =>
            RegTypes.empty (RegTypes.trans entry) = 0 /\
            RegTypes.pre_sort (RegTypes.control entry) <> 0
        | Tile.RM_PUNCHTHROUGH_PASSN | Tile.RM_MODIFIER => False
        end
    | Lists.EvWrite16 _ _ | Lists.EvWrite32 _ _ =>
        RegTypes.no_writeout (RegTypes.control entry) = 0
    end in
  exists l,
    Lists.trace (Lists.state_of (Lists.RenderTile emu_regs fuel entry c)) =
      Lists.trace c ++ l /\
    Forall allowed l.
Proof.
  intros allowed.
  exact (EventFacts.emits_RenderTile emu_regs fuel entry c).
Qed.

(** X22. With the five-word region array format
    ([FPU_PARAM_CFG.region_header_type] clear) a frame never runs a
    punch-through pass: however far it comes, none of its events is a tag
    resolution in a punch-through mode. *)
Theorem five_word_format_has_no_punchthrough {B : Tile.Backend}
    (regs : PvrRegs.RegFile) (fuel : nat) (vram : PvrMem.Vram)
    (buffers : Tile.TileBuffers) :
  PvrRegs.region_header_type regs = 0 ->
  Forall
    (fun e =>
       match e with
       | Lists.EvParamTags Tile.RM_PUNCHTHROUGH_PASS0 _ _
       | Lists.EvParamTags Tile.RM_PUNCHTHROUGH_PASSN _ _
       | Lists.EvParamTags Tile.RM_PUNCHTHROUGH_MV _ _ => False
       | _ => True
       end)
    (Lists.trace (Lists.state_of
       (Lists.ffi_refsw2_render fuel vram regs buffers))).
Proof.
  intros Hfmt. unfold Lists.ffi_refsw2_render, Lists.RenderCORE. cbv zeta.
  destruct (EventFacts.emits_RenderCORE_loop regs fuel
              (PvrRegs.REGION_BASE regs) (Lists.mkCore vram buffers []) Hfmt)
    as (l & Ht & Hl).
  cbn [Lists.trace app] in Ht. rewrite Ht. exact Hl.
Qed.

(** A frame of one tile in the five-word format. *)
Lemma five_word_format_has_no_punchthrough_witness :
  PvrRegs.region_header_type (Fixtures.regs_of []) = 0 /\
  Lists.trace (Lists.state_of
    (Lists.ffi_refsw2_render (B := Fixtures.idle) 1
       (Fixtures.single_tile_array 0x90000000) (Fixtures.regs_of []) tt)) =
  [Lists.EvParamTags Tile.RM_OPAQUE 0 0] /\
  Forall
    (fun e =>
       match e with
       | Lists.EvParamTags Tile.RM_PUNCHTHROUGH_PASS0 _ _
       | Lists.EvParamTags Tile.RM_PUNCHTHROUGH_PASSN _ _
       | Lists.EvParamTags Tile.RM_PUNCHTHROUGH_MV _ _ => False
       | _ => True
       end)
    (Lists.trace (Lists.state_of
       (Lists.ffi_refsw2_render (B := Fixtures.idle) 1
          (Fixtures.single_tile_array 0x90000000) (Fixtures.regs_of []) tt))).
Proof.
  assert (H : PvrRegs.region_header_type (Fixtures.regs_of []) = 0)
    by reflexivity.
  split; [exact H |]. split; [vm_compute; reflexivity |].
  exact (five_word_format_has_no_punchthrough (B := Fixtures.idle)
           (Fixtures.regs_of []) 1 (Fixtures.single_tile_array 0x90000000) tt H).
Defined.

(** X23. The instruction codec of the DSP. [DecodeInst] reads back what
    [EncodeInst] wrote, for an instruction whose fields are within their
    widths; and [EncodeInst] of the instruction decoded from four words
    gives the four words with the bits outside the fields cleared: bit 0
    of the first two words, bits 0 to 6 of the last one, and everything
    above bit 15. *)
Theorem inst_codec_round_trip :
  (forall i, DspFacts.INST_valid i ->
     let '(w0, w1, w2, w3) := AicaDsp.EncodeInst i in
     AicaDsp.DecodeInst w0 w1 w2 w3 = i) /\
  (forall w0 w1 w2 w3,
     AicaDsp.EncodeInst (AicaDsp.DecodeInst w0 w1 w2 w3) =
     (Z.land w0 0xFFFE, Z.land w1 0xFFFE, Z.land w2 0xFFFF, Z.land w3 0xFF80)).
Proof.
  split.
  - exact DspFacts.decode_encode.
  - exact DspFacts.encode_decode.
Qed.

(** An instruction with every field at its largest value. *)
Lemma inst_codec_round_trip_witness :
  let i := AicaDsp.mkINST 127 1 127 1 3 63 1 31 1 15 1 1 3 1 1 1 1 1 1 1 1 63 1 1 in
  DspFacts.INST_valid i /\
  AicaDsp.EncodeInst i = (0xFFFE, 0xFFFE, 0xFFFF, 0xFF80) /\
  AicaDsp.DecodeInst 0xFFFE 0xFFFE 0xFFFF 0xFF80 = i.
Proof.
  intros i.
  assert (H : DspFacts.INST_valid i) by (unfold DspFacts.INST_valid; cbn; lia).
  split; [exact H |]. split; [vm_compute; reflexivity |].
  exact (proj1 inst_codec_round_trip i H).
Defined.

(** X24. [PACK] after [UNPACK]. Every 16-bit word unpacks to a value of 24
    signed bits. A word whose exponent field is at most 11 is given back by
    [PACK]; a word whose exponent field is 12 to 15 comes back with the
    exponent 12 when its sign bit is clear and 11 when it is set, the sign
    and the mantissa kept. *)
Theorem PACK_of_UNPACK (w : Z) :
  0 <= w < 2 ^ 16 ->
  let sign := w / 2 ^ 15 in
  let exponent := (w / 2 ^ 11) mod 2 ^ 4 in
  let mantissa := w mod 2 ^ 11 in
  - 2 ^ 23 <= AicaDsp.UNPACK w < 2 ^ 23 /\
  AicaDsp.PACK (AicaDsp.UNPACK w) =
    if exponent <=? 11 then w
    else mantissa + (16 * sign + (12 - sign)) * 2 ^ 11.
Proof.
  intros Hw s e m.
  assert (Hm : 0 <= m < 2 ^ 11) by (apply Z.mod_pos_bound; lia).
  assert (He : 0 <= e < 2 ^ 4) by (apply Z.mod_pos_bound; lia).
  assert (Hs : 0 <= s <= 1)
    by (unfold s; Z.to_euclidean_division_equations; lia).
  assert (E : w = m + (16 * s + e) * 2 ^ 11)
    by (unfold s, e, m; Z.to_euclidean_division_equations; lia).
  clearbody s e m. subst w.
  destruct (Z.leb_spec e 11) as [Hle | Hgt].
  - exact (PackFacts.PACK_UNPACK_normal m s e Hm Hs ltac:(lia)).
  - rewrite PackFacts.UNPACK_denormal by lia.
    split; [lia |].
    assert (Hs' : s = 0 \/ s = 1) by lia.
    destruct Hs' as [-> | ->].
    + destruct (PackFacts.small_facts (m - 4096 * 0) ltac:(lia)) as (_ & HP & _).
      rewrite HP.
      destruct (Z.ltb_spec (m - 4096 * 0) 0); lia.
    + destruct (PackFacts.PACK_UNPACK_normal m 1 11 Hm ltac:(lia) ltac:(lia))
        as [_ HP].
      rewrite PackFacts.UNPACK_exact in HP by lia.
      change (1 =? 0) with false in HP. cbv iota in HP.
      change (2 ^ (11 - 11)) with 1 in HP. rewrite Z.mul_1_r in HP.
      replace (m - 4096 * 1) with (m - 4096) by lia.
      rewrite HP. lia.
Qed.

(** The word [0xFC56]: sign 1, exponent field 15, mantissa [0x456]. *)
Lemma PACK_of_UNPACK_witness :
  AicaDsp.UNPACK 0xFC56 = - 2986 /\ AicaDsp.PACK (- 2986) = 0xDC56.
Proof.
  pose proof (PACK_of_UNPACK 0xFC56 ltac:(lia)) as H. cbv zeta in H.
  split; [vm_compute; reflexivity |].
  change (AicaDsp.UNPACK 0xFC56) with (- 2986) in H.
  exact (proj2 H).
Defined.

(** X25. [UNPACK] after [PACK] on the values of 24 signed bits. A value of
    [0 .. 2047] comes back unchanged; a value [v] of [-2048 .. -1] comes
    back as [v - 2048]; any other value comes back rounded down to a
    multiple of [2^k], where [k <= 11] is such that
    [2^(k+11) <= |v| <= 2^(k+12)]: the 12 leading bits are kept. *)
Theorem UNPACK_of_PACK (v : Z) :
  - 2 ^ 23 <= v < 2 ^ 23 ->
  let r := AicaDsp.UNPACK (AicaDsp.PACK v) in
  (0 <= v < 2048 -> r = v) /\
  (- 2048 <= v < 0 -> r = v - 2048) /\
  (v < - 2048 \/ 2048 <= v ->
   exists k, 0 <= k <= 11 /\ 2 ^ (k + 11) <= Z.abs v <= 2 ^ (k + 12) /\
             r = v / 2 ^ k * 2 ^ k).
Proof.
  intros Hv r. subst r. split; [| split].
  - intros H. destruct (PackFacts.small_facts v ltac:(lia)) as (_ & _ & HU).
    rewrite HU. destruct (Z.ltb_spec v 0); lia.
  - intros H. destruct (PackFacts.small_facts v ltac:(lia)) as (_ & _ & HU).
    rewrite HU. destruct (Z.ltb_spec v 0); lia.
  - intros H.
    destruct (PackFacts.class_facts v Hv) as (Hr & Hc & H12).
    set (e := PackFacts.exponent_of (v / 2 ^ 11)) in *.
    assert (He : e < 12) by (destruct (Z.eq_dec e 12) as [E | E];
                              [specialize (H12 E) |]; lia).
    exists (11 - e). split; [lia |].
    split; [| exact (PackFacts.UNPACK_PACK_normal v Hv He)].
    replace (11 - e + 11) with (22 - e) by lia.
    replace (11 - e + 12) with (23 - e) by lia.
    destruct (Hc He) as [Hneg Hpos]. lia.
Qed.

(** The value -1 comes back as -2049, the value 0x123456 without its low
    byte. *)
Lemma UNPACK_of_PACK_witness :
  AicaDsp.UNPACK (AicaDsp.PACK (- 1)) = - 2049 /\
  (exists k, 0 <= k <= 11 /\ 2 ^ (k + 11) <= Z.abs 0x123456 <= 2 ^ (k + 12) /\
     AicaDsp.UNPACK (AicaDsp.PACK 0x123456) = 0x123456 / 2 ^ k * 2 ^ k).
Proof.
  split.
  - exact (proj1 (proj2 (UNPACK_of_PACK (- 1) ltac:(lia))) ltac:(lia)).
  - exact (proj2 (proj2 (UNPACK_of_PACK 0x123456 ltac:(lia))) ltac:(lia)).
Defined.

(** X26. The [TEMP] and [MEMS] entries hold 24 bits. After
    [SetTEMP(idx, v)], [GetTEMP(idx)] is [v mod 2^24], a value that is not
    negative; the sign extension [<<= 8; >>= 8] of a step gives a [v] of 24
    signed bits back, and the expansion [<< 2; <<= 6; >>= 6] gives [4 * v];
    the same holds of [SetMEMS] and [GetMEMS]; the other entries read as
    before. *)
Theorem TEMP_MEMS_round_trip (reg : AicaDsp.Mem) (idx v : Z) :
  - 2 ^ 23 <= v < 2 ^ 23 ->
  let t := AicaDsp.GetTEMP (AicaDsp.SetTEMP reg idx v) idx in
  let m := AicaDsp.GetMEMS (AicaDsp.SetMEMS reg idx v) idx in
  t = v mod 2 ^ 24 /\ m = v mod 2 ^ 24 /\
  Z.shiftr (AicaDsp.shl32 t 8) 8 = v /\
  Z.shiftr (AicaDsp.shl32 m 8) 8 = v /\
  Z.shiftr (AicaDsp.shl32 (AicaDsp.shl32 t 2) 6) 6 = 4 * v /\
  (forall j, j <> idx ->
     AicaDsp.GetTEMP (AicaDsp.SetTEMP reg idx v) j = AicaDsp.GetTEMP reg j /\
     AicaDsp.GetMEMS (AicaDsp.SetMEMS reg idx v) j = AicaDsp.GetMEMS reg j).
Proof.
  intros Hv t m. subst t m.
  rewrite InterpFacts.GetTEMP_SetTEMP, InterpFacts.GetMEMS_SetMEMS.
  split; [reflexivity |]. split; [reflexivity |].
  rewrite InterpFacts.sext24_mod, InterpFacts.sext26_mod.
  unfold AicaDsp.shl32, AicaDsp.s32. rewrite Z.shiftl_mul_pow2 by lia.
  split; [Z.to_euclidean_division_equations; lia |].
  split; [Z.to_euclidean_division_equations; lia |].
  split; [Z.to_euclidean_division_equations; lia |].
  intros j Hj. split.
  - now apply InterpFacts.GetTEMP_SetTEMP_other.
  - now apply InterpFacts.GetMEMS_SetMEMS_other.
Qed.

(** The value -1 in entry 5 of a cleared register file. *)
Lemma TEMP_MEMS_round_trip_witness :
  AicaDsp.GetTEMP (AicaDsp.SetTEMP (fun _ => 0) 5 (- 1)) 5 = 0xFFFFFF /\
  Z.shiftr (AicaDsp.shl32
              (AicaDsp.GetTEMP (AicaDsp.SetTEMP (fun _ => 0) 5 (- 1)) 5) 8) 8 =
  - 1.
Proof.
  pose proof (TEMP_MEMS_round_trip (fun _ => 0) 5 (- 1) ltac:(lia)) as H.
  cbv zeta in H. split; [exact (proj1 H) | exact (proj1 (proj2 (proj2 H)))].
Defined.

(** X27. The widths of the registers of the interpreter. The initial
    globals are within the widths [regs_ok] gives (ACC 26 signed bits,
    SHIFTED, X, INPUTS, Y_REG and the MEMVAL entries 24, Y 13, FRC_REG 13
    unsigned, ADRS_REG 32 unsigned, B between [-2^25] and [2^25]
    inclusive); a step that passes its assertion keeps them so, and so do
    the 128 steps of [Step128]. With [SHIFT] 0 or 1 the shifter saturates
    [SHIFTED] to 20 signed bits, whatever the state before. *)
Theorem Step_register_widths :
  (forall reg ram mask,
     InterpFacts.regs_ok
       (AicaDsp.mkDsp reg ram mask 1 0 0 0 0 0 0 (fun _ => 0) 0 0 0)) /\
  (forall step d d',
     InterpFacts.regs_ok d -> AicaDsp.Step step d = Some d' ->
     InterpFacts.regs_ok d') /\
  (forall d d',
     InterpFacts.regs_ok d -> AicaDsp.Step128 d = Some d' ->
     InterpFacts.regs_ok d') /\
  (forall step d d',
     AicaDsp.Step step d = Some d' ->
     AicaDsp.field
       (PvrMem.load32 (AicaDsp.aica_reg d) (AicaDsp.MPRO_at (step * 4 + 2)))
       4 0x03 <= 1 ->
     - 2 ^ 19 <= AicaDsp.SHIFTED d' < 2 ^ 19).
Proof.
  split; [| split; [| split]].
  - intros reg ram mask. unfold InterpFacts.regs_ok.
    cbn [AicaDsp.ACC AicaDsp.SHIFTED AicaDsp.X AicaDsp.Y AicaDsp.B
         AicaDsp.INPUTS AicaDsp.MEMVAL AicaDsp.FRC_REG AicaDsp.Y_REG
         AicaDsp.ADRS_REG].
    repeat split; intros; lia.
  - exact InterpFacts.Step_regs_ok.
  - intros d d' Hd H. unfold AicaDsp.Step128 in H.
    destruct (AicaDsp.Step128_loop 128 0 (AicaDsp.Step128Start d))
      as [d1 |] eqn:E; [| discriminate].
    apply (f_equal (fun o => match o with Some x => x | None => d end)) in H.
    subst d'.
    assert (H1 : InterpFacts.regs_ok d1).
    { assert (Hs : InterpFacts.regs_ok (AicaDsp.Step128Start d)) by exact Hd.
      apply (InterpFacts.Step128_loop_regs_ok _ _ _ _ Hs E). }
    exact H1.
  - exact InterpFacts.Step_saturates.
Qed.

(** The first step of a cleared machine. *)
Lemma Step_register_widths_witness :
  let d := AicaDsp.mkDsp (fun _ => 0) (fun _ => 0) 0x1FFFFF 1 0 0 0 0 0 0
             (fun _ => 0) 0 0 0 in
  AicaDsp.Step 0 d = Some d /\ InterpFacts.regs_ok d.
Proof.
  intros d.
  assert (E : AicaDsp.Step 0 d = Some d) by (vm_compute; reflexivity).
  split; [exact E |].
  exact (proj1 (proj2 Step_register_widths) 0 d d
           (proj1 Step_register_widths _ _ _) E).
Defined.

(** X28. What a step writes. A step of the program ([0 <= step < 128])
    that passes its assertion leaves [aram_mask] and [MDEC_CT] alone and
    writes [aica_reg] only inside [TEMP], [MEMS] and [EFREG]: the
    program, [COEF], [MADRS], [MIXS], [EXTS] and [CommonData] are
    unchanged. It changes a byte of [aica_ram] only on an odd step whose
    [MWT] is set, and then only at [ADDR & aram_mask] or the byte after
    it, for an even [ADDR] from [RBP * 2048] on, less than twice the ring
    length above it ([TABLE] clear) or less than [2 * 65536] above it
    ([TABLE] set); when [aram_mask] is [2^k - 1] both bytes are within
    the mask. *)
Theorem Step_writes_confined (step : Z) (d d' : AicaDsp.Dsp) :
  0 <= step < 128 ->
  AicaDsp.Step step d = Some d' ->
  AicaDsp.aram_mask d' = AicaDsp.aram_mask d /\
  AicaDsp.MDEC_CT d' = AicaDsp.MDEC_CT d /\
  (forall i, i < 0x4000 \/ 0x4500 <= i < 0x4580 \/ 0x45C0 <= i ->
     AicaDsp.aica_reg d' i = AicaDsp.aica_reg d i) /\
  (forall i, AicaDsp.aica_ram d' i <> AicaDsp.aica_ram d i ->
     let IPtr2 := PvrMem.load32 (AicaDsp.aica_reg d)
                    (AicaDsp.MPRO_at (step * 4 + 2)) in
     let base := AicaDsp.RBP (AicaDsp.aica_reg d) * 2048 in
     Z.land step 1 <> 0 /\ AicaDsp.field IPtr2 14 0x01 <> 0 /\
     (exists ADDR,
        ADDR mod 2 = 0 /\
        base <= ADDR <
          base + 2 * (if AicaDsp.field IPtr2 15 0x01 =? 0
                      then AicaDsp.GetRBL (AicaDsp.aica_reg d) else 65536) /\
        (i = Z.land ADDR (AicaDsp.aram_mask d) \/
         i = Z.land ADDR (AicaDsp.aram_mask d) + 1)) /\
     (forall k, 1 <= k -> AicaDsp.aram_mask d = 2 ^ k - 1 ->
        0 <= i <= AicaDsp.aram_mask d)).
Proof.
  intros Hstep H.
  destruct (InterpFacts.Step_frame _ _ _ H) as (Ha & Hb & Hc).
  split; [exact Ha |]. split; [exact Hb |].
  split.
  { intros i Hi. apply Hc. unfold InterpFacts.writable. lia. }
  intros i Hi IPtr2 base.
  destruct (InterpFacts.Step_ram _ _ _ Hstep H i Hi) as (H1 & H2 & a & Ha0 & Ha1 & Ha2).
  split; [exact H1 |]. split; [exact H2 |].
  split; [exists a; split; [exact Ha0 |]; split; [exact Ha1 | exact Ha2] |].
  intros k Hk Hmask. rewrite Hmask in *.
  replace (2 ^ k - 1) with (Z.ones k) in Ha2
    by (rewrite Z.ones_equiv; lia).
  rewrite Z.land_ones in Ha2 by lia.
  assert (E : 2 ^ k = 2 * 2 ^ (k - 1)).
  { rewrite <- Z.pow_succ_r by lia. f_equal. lia. }
  assert (Hp : 0 < 2 ^ (k - 1)) by (apply Z.pow_pos_nonneg; lia).
  assert (Ea : a = 2 * (a / 2)) by (Z.to_euclidean_division_equations; lia).
  rewrite Ea, E, Z.mul_mod_distr_l in Ha2 by lia.
  pose proof (Z.mod_pos_bound (a / 2) (2 ^ (k - 1)) Hp). lia.
Qed.

(** Step 1 of a cleared machine. *)
Lemma Step_writes_confined_witness :
  let d := AicaDsp.mkDsp (fun _ => 0) (fun _ => 0) 0x1FFFFF 1 0 0 0 0 0 0
             (fun _ => 0) 0 0 0 in
  exists d', AicaDsp.Step 1 d = Some d' /\
             AicaDsp.MDEC_CT d' = 1 /\ AicaDsp.aica_reg d' 0x3400 = 0.
Proof.
  intros d. exists d.
  assert (E : AicaDsp.Step 1 d = Some d) by (vm_compute; reflexivity).
  split; [exact E |].
  destruct (Step_writes_confined 1 d d ltac:(lia) E) as (_ & Hm & Hr & _).
  split; [exact Hm | exact (Hr 0x3400 ltac:(lia))].
Defined.

(** X29. When the interpreter stops. [Step] fails, on [assert(IRA <
    0x38)], exactly when the [IRA] field of its instruction is [0x38] or
    more, whatever the state; and [Step128] fails exactly when one of the
    128 instructions that the program holds at its start has such an
    [IRA]: no step changes the program. *)
Theorem Step128_fails_iff (d : AicaDsp.Dsp) :
  let IRA step :=
    AicaDsp.field
      (PvrMem.load32 (AicaDsp.aica_reg d) (AicaDsp.MPRO_at (step * 4 + 1)))
      7 0x3F in
  (forall step, AicaDsp.Step step d = None <-> 0x38 <= IRA step) /\
  (AicaDsp.Step128 d = None <-> exists step, 0 <= step < 128 /\ 0x38 <= IRA step).
Proof.
  intros IRA. split.
  - intros step. apply InterpFacts.Step_None.
  - unfold AicaDsp.Step128.
    pose proof (InterpFacts.Step128_loop_None 128 0 (AicaDsp.Step128Start d)
                  ltac:(lia) ltac:(lia)) as H.
    destruct (InterpFacts.Step128Start_frame d) as (_ & _ & Hf).
    destruct (AicaDsp.Step128_loop 128 0 (AicaDsp.Step128Start d)) as [d1 |].
    + split; [discriminate |]. intros (k & Hk & HI).
      assert (Hn : @None AicaDsp.Dsp = None) by reflexivity.
      destruct H as [_ H]. 
      assert (Hex : exists k0, 0 <= k0 < 0 + Z.of_nat 128 /\
                  56 <= InterpFacts.IRA_at
                          (AicaDsp.aica_reg (AicaDsp.Step128Start d)) k0).
      { exists k. split; [lia |].
        rewrite (InterpFacts.IRA_at_frame (AicaDsp.aica_reg d)) by (assumption || lia).
        exact HI. }
      specialize (H Hex). discriminate.
    + split; [| reflexivity]. intros _.
      destruct (proj1 H eq_refl) as (k & Hk & HI).
      exists k. split; [lia |].
      rewrite (InterpFacts.IRA_at_frame (AicaDsp.aica_reg d)) in HI
        by (assumption || lia).
      exact HI.
Qed.

(** X30. The 128 steps as a whole. When [Step128] returns it has left
    [aram_mask] alone and written [aica_reg] only inside [TEMP], [MEMS]
    and [EFREG]; [MDEC_CT] has been decremented, modulo [2^32], and set to
    the ring length [GetRBL()] if that gave 0: a counter that starts within
    [1 .. GetRBL()] stays there and counts down cyclically. *)
Theorem Step128_counts_down (d d' : AicaDsp.Dsp) :
  AicaDsp.Step128 d = Some d' ->
  let RBL := AicaDsp.GetRBL (AicaDsp.aica_reg d) in
  AicaDsp.aram_mask d' = AicaDsp.aram_mask d /\
  (forall i, i < 0x4000 \/ 0x4500 <= i < 0x4580 \/ 0x45C0 <= i ->
     AicaDsp.aica_reg d' i = AicaDsp.aica_reg d i) /\
  AicaDsp.GetRBL (AicaDsp.aica_reg d') = RBL /\
  (RBL = 8192 \/ RBL = 16384 \/ RBL = 32768 \/ RBL = 65536) /\
  AicaDsp.MDEC_CT d' =
    (if Word.u32 (AicaDsp.MDEC_CT d - 1) =? 0 then RBL
     else Word.u32 (AicaDsp.MDEC_CT d - 1)) /\
  (1 <= AicaDsp.MDEC_CT d <= RBL ->
   1 <= AicaDsp.MDEC_CT d' <= RBL /\
   AicaDsp.MDEC_CT d' = (AicaDsp.MDEC_CT d - 2) mod RBL + 1).
Proof.
  intros H RBL. unfold AicaDsp.Step128 in H.
  destruct (AicaDsp.Step128_loop 128 0 (AicaDsp.Step128Start d))
    as [d1 |] eqn:E; [| discriminate].
  apply (f_equal (fun o => match o with Some x => x | None => d end)) in H.
  subst d'.
  destruct (InterpFacts.Step128Start_frame d) as (Ha & Hb & Hc).
  destruct (InterpFacts.Step128_loop_frame _ _ _ _ E) as (Ha' & Hb' & Hc').
  assert (Hf : forall i, ~ InterpFacts.writable i ->
                 AicaDsp.aica_reg d1 i = AicaDsp.aica_reg d i).
  { intros i Hi. rewrite Hc', Hc by assumption. reflexivity. }
  assert (HL : AicaDsp.GetRBL (AicaDsp.aica_reg d1) = RBL)
    by (apply InterpFacts.GetRBL_frame; exact Hf).
  unfold AicaDsp.Step128SEnd.
  cbn [AicaDsp.aram_mask AicaDsp.aica_reg AicaDsp.MDEC_CT].
  split; [congruence |].
  split; [intros i Hi; apply Hf; unfold InterpFacts.writable; lia |].
  split; [exact HL |].
  pose proof (InterpFacts.GetRBL_cases (AicaDsp.aica_reg d)) as Hcases.
  fold RBL in Hcases.
  split; [exact Hcases |].
  rewrite HL, Hb', Hb.
  split; [reflexivity |].
  intros Hm. rewrite (Word.u32_small (AicaDsp.MDEC_CT d - 1)) by lia.
  destruct (Z.eqb_spec (AicaDsp.MDEC_CT d - 1) 0) as [E0 | E0];
    destruct Hcases as [-> | [-> | [-> | ->]]];
    (split; [lia | Z.to_euclidean_division_equations; lia]).
Qed.

(** The 128 steps of a cleared machine whose counter is 1. *)
Lemma Step128_counts_down_witness :
  let d := AicaDsp.mkDsp (fun _ => 0) (fun _ => 0) 0x1FFFFF 1 0 0 0 0 0 0
             (fun _ => 0) 0 0 0 in
  exists d', AicaDsp.Step128 d = Some d' /\ AicaDsp.MDEC_CT d' = 8192.
Proof.
  intros d.
  destruct (AicaDsp.Step128 d) as [d' |] eqn:E.
  - exists d'. split; [reflexivity |].
    destruct (Step128_counts_down d d' E) as (_ & _ & _ & _ & Hm & _).
    rewrite Hm. vm_compute. reflexivity.
  - vm_compute in E. discriminate.
Defined.
